(** * Deck-Genie: content-to-slide pipeline of [ppt_generator.py]

    A shallow embedding of the text normaliser, the deduplicator, the
    truncator with its sentence-completion repair, the slide-order planner,
    the team-slide wrapper, the image cache layer and the advantage-slide
    builder, followed by the properties established about them. *)

From Stdlib Require Import Strings.String Strings.Ascii.
From stdpp Require Import base decidable option numbers list gmap strings.

Set Default Proof Using "Type*".

(** ** Python strings

    A Python [str] is a sequence of Unicode code points. *)

Abbreviation char := N.
Abbreviation str := (list char).

(** Literals of the source are ASCII; [lit] turns a literal into its code
    points. The two non-ASCII bullet glyphs are given by number. *)
Definition lit (s : string) : str :=
  N_of_ascii <$> list_ascii_of_string s.

Definition BULLET : char := 8226%N.      (* U+2022 *)
Definition MIDDLE_DOT : char := 183%N.   (* U+00B7 *)

Definition str_eqb (a b : str) : bool := bool_decide (a = b).

(** Character classification comes from the Unicode database of the Python
    runtime, which is no part of the repository: [isalnum], [isspace] and
    the per-character [lower] are taken as an interface, [Runtime], together
    with the facts of that database the development relies on; so is the
    string form of a dict. The ASCII block of the three tables is written
    out. *)
Definition ascii_isalnum (c : char) : bool :=
  ((48 <=? c) && (c <=? 57) || (65 <=? c) && (c <=? 90)
   || (97 <=? c) && (c <=? 122))%N.

(* str.isspace on ASCII: \t \n \v \f \r, the separators 0x1c-0x1f, space *)
Definition ascii_isspace (c : char) : bool :=
  ((9 <=? c) && (c <=? 13) || (28 <=? c) && (c <=? 32))%N.

Definition ascii_lower (c : char) : char :=
  (if (65 <=? c) && (c <=? 90) then c + 32 else c)%N.

Class Runtime := {
  isalnum : char → bool;
  isspace : char → bool;
  lower : char → str;
  (* str(d) of a dict d, used as the last resort of the text extraction *)
  dict_str : gmap string str → str;
  (* letters and digits are not white space *)
  isalnum_not_space c : isalnum c = true → isspace c = false;
  (* white space has no case mapping *)
  lower_space c : isspace c = true → lower c = [c];
  (* case mapping never produces white space *)
  lower_not_space c : isspace c = false → forallb (λ d, negb (isspace d)) (lower c) = true;
  (* the bullet glyphs outside ASCII are symbols *)
  isalnum_bullet : isalnum BULLET = false ∧ isalnum MIDDLE_DOT = false;
  isspace_bullet : isspace BULLET = false ∧ isspace MIDDLE_DOT = false;
  (* the ASCII block *)
  isalnum_ascii c : (c < 128)%N → isalnum c = ascii_isalnum c;
  isspace_ascii c : (c < 128)%N → isspace c = ascii_isspace c;
  lower_ascii c : (c < 128)%N → lower c = [ascii_lower c];
}.

(** The ASCII table, with every code point from 128 on treated as a caseless
    symbol; it agrees with Python on ASCII text and is the table used to run
    the examples. Its [dict_str] prints the fields between braces in
    Python's form for plain keys and values, in the order of the keys:
    Python prints them in the order of insertion, which a map does not
    record, so that the two agree on a dict filled in key order; the
    theorems stated over an arbitrary table leave [dict_str] open. *)
Definition quote (s : str) : str := lit "'" ++ s ++ lit "'".
Definition ascii_dict_str (d : gmap string str) : str :=
  lit "{" ++
  foldr (λ kv acc,
           quote (lit kv.1) ++ lit ": " ++ quote kv.2 ++
           match acc with [] => [] | _ => lit ", " ++ acc end)
        [] (map_to_list d) ++
  lit "}".

Definition ascii_lower_str (c : char) : str := [ascii_lower c].
Definition ascii_only_isalnum (c : char) : bool := (c <? 128)%N && ascii_isalnum c.
Definition ascii_only_isspace (c : char) : bool := (c <? 128)%N && ascii_isspace c.

#[global] Program Instance ascii_table : Runtime := {|
  isalnum := ascii_only_isalnum;
  isspace := ascii_only_isspace;
  lower := ascii_lower_str;
  dict_str := ascii_dict_str;
|}.
Next Obligation.
  intros c.
  unfold ascii_only_isalnum, ascii_only_isspace, ascii_isalnum, ascii_isspace.
  intros H.
  destruct (c <? 128)%N; [|done]. simpl in *.
  destruct (9 <=? c)%N eqn:E1, (c <=? 13)%N eqn:E2, (28 <=? c)%N eqn:E3,
    (c <=? 32)%N eqn:E4; simpl; try done;
  repeat match goal with
  | H : (_ <=? _)%N = true |- _ => apply N.leb_le in H
  | H : (_ <=? _)%N = false |- _ => apply N.leb_gt in H
  end;
  exfalso;
  repeat (apply orb_prop in H as [H|H] || apply andb_prop in H as [H ?]);
  repeat match goal with
  | H : (_ <=? _)%N = true |- _ => apply N.leb_le in H
  end; lia.
Qed.
Next Obligation.
  intros c.
  unfold ascii_only_isspace, ascii_isspace, ascii_lower_str, ascii_lower.
  intros H. apply andb_prop in H as [_ H].
  destruct ((65 <=? c)%N && (c <=? 90)%N) eqn:E; [|done].
  apply andb_prop in E as [E1 E2]. apply N.leb_le in E1, E2.
  exfalso.
  apply orb_prop in H as [H|H]; apply andb_prop in H as [H1 H2];
    apply N.leb_le in H1, H2; lia.
Qed.
Next Obligation.
  intros c.
  unfold ascii_lower_str, ascii_lower. simpl. intros H.
  destruct ((65 <=? c)%N && (c <=? 90)%N) eqn:E; [|by rewrite H].
  apply andb_prop in E as [E1 E2]. apply N.leb_le in E1, E2.
  rewrite andb_true_r. apply negb_true_iff.
  unfold ascii_only_isspace, ascii_isspace.
  apply andb_false_iff. right.
  apply orb_false_iff. split; apply andb_false_iff.
  - right. apply N.leb_gt. lia.
  - right. apply N.leb_gt. lia.
Qed.
Next Obligation. done. Qed.
Next Obligation. done. Qed.
Next Obligation.
  intros c H. unfold ascii_only_isalnum.
  by apply N.ltb_lt in H as ->.
Qed.
Next Obligation.
  intros c H. unfold ascii_only_isspace.
  by apply N.ltb_lt in H as ->.
Qed.
Next Obligation. done. Qed.

(** ** String methods of the Python runtime used by the source *)

Definition truthy (s : str) : bool :=
  match s with [] => false | _ => true end.

(* [a or b] on strings *)
Definition por (a b : str) : str := if truthy a then a else b.

Definition inb (c : char) (cs : str) : bool := existsb (N.eqb c) cs.

(* s.rstrip(chars) and s.lstrip(chars), for a set of characters *)
Fixpoint rstrip_by (P : char → bool) (s : str) : str :=
  match s with
  | [] => []
  | c :: s' =>
      match rstrip_by P s' with
      | [] => if P c then [] else [c]
      | r => c :: r
      end
  end.

Fixpoint lstrip_by (P : char → bool) (s : str) : str :=
  match s with
  | [] => []
  | c :: s' => if P c then lstrip_by P s' else s
  end.

Definition rstrip_chars (cs : str) (s : str) : str := rstrip_by (λ c, inb c cs) s.

(* sep.join(ws) *)
Fixpoint join (sep : str) (ws : list str) : str :=
  match ws with
  | [] => []
  | w :: ws' =>
      match ws' with
      | [] => w
      | _ => w ++ sep ++ join sep ws'
      end
  end.

(* s.startswith(p) *)
Fixpoint startswith (s p : str) : bool :=
  match p, s with
  | [], _ => true
  | _ :: _, [] => false
  | d :: p', c :: s' => (c =? d)%N && startswith s' p'
  end.

(* s.replace(old, new) for a non-empty [old]: leftmost occurrences, not
   overlapping; [skip] counts the characters of a match still to be dropped *)
Fixpoint replace_go (old new : str) (skip : nat) (s : str) : str :=
  match s with
  | [] => []
  | c :: s' =>
      match skip with
      | S k => replace_go old new k s'
      | O =>
          if startswith s old
          then new ++ replace_go old new (length old - 1) s'
          else c :: replace_go old new 0 s'
      end
  end.

Definition replace (old new s : str) : str := replace_go old new 0 s.

(* s.rfind(c, 0, e) for a one-character c: the highest index below e, or -1 *)
Fixpoint rfind_go (c : char) (s : str) (i : nat) : option nat :=
  match s with
  | [] => None
  | d :: s' =>
      match rfind_go c s' (S i) with
      | Some j => Some j
      | None => if (d =? c)%N then Some i else None
      end
  end.

Definition rfind (c : char) (s : str) (e : nat) : Z :=
  match rfind_go c (take e s) 0 with
  | Some j => Z.of_nat j
  | None => (-1)%Z
  end.

(** Exceptions of the modelled code paths; a function that can raise returns
    a [res]. *)
Inductive exn := IndexError | KeyError | AttributeError.

Inductive res (A : Type) :=
| Ok (a : A)
| Raise (e : exn).
Arguments Ok {A} a.
Arguments Raise {A} e.

Section Text.
Context `{Py : Runtime}.

(* s.split(): the maximal runs of characters that are not white space.
   [split_go s] is the run at the head of s (empty when s starts with
   white space) and the words after it. *)
Definition push (w : str) (ws : list str) : list str :=
  match w with [] => ws | _ => w :: ws end.

Fixpoint split_go (s : str) : str * list str :=
  match s with
  | [] => ([], [])
  | c :: s' =>
      let r := split_go s' in
      if isspace c then ([], push r.1 r.2) else (c :: r.1, r.2)
  end.

Definition split (s : str) : list str := push (split_go s).1 (split_go s).2.

(* s.strip() *)
Definition strip (s : str) : str := rstrip_by isspace (lstrip_by isspace s).

(* s.lower(), character by character; the final-sigma rule, the one case in
   which str.lower looks at the neighbours of a character, is left out: the
   source compares the result with ASCII text alone, which no form of sigma
   matches *)
Definition str_lower (s : str) : str := flat_map lower s.

(** ** Text normaliser and comparison key *)

Definition clean_and_deduplicate_text (text : str) : str :=
  if negb (truthy text) then [] else
  let text := replace [45%N] [] (replace [MIDDLE_DOT] []
                (replace [42%N] [] (replace [BULLET] [] text))) in
  let text := join (lit " ") (split text) in
  let text := rstrip_chars (lit ".,;:") text in
  strip text.

Definition stop_words : list str :=
  lit <$> ["the"; "a"; "an"; "and"; "or"; "but"; "in"; "on"; "at"; "to";
           "for"; "with"; "by"]%string.

Definition is_stop_word (w : str) : bool := bool_decide (w ∈ stop_words).

Definition get_comparison_key (text : str) : str :=
  if negb (truthy text) then [] else
  let key := flat_map lower (List.filter (λ c, isalnum c || isspace c) text) in
  let words := split key in
  let key_words := List.filter (λ w, negb (is_stop_word w)) words in
  join (lit " ") key_words.

(** ** Deduplicator *)

(* a content item: a string, or a record with text-valued fields *)
Inductive item :=
| IStr (s : str)
| IDict (d : gmap string str).

Definition dict_get (d : gmap string str) (k : string) : str :=
  default [] (d !! k).

Definition PRODUCT_NAME : str := lit "[Product Name]".

Definition subst_product (product_name : option str) (v : str) : str :=
  match product_name with
  | Some p => if truthy p then replace PRODUCT_NAME p v else v
  | None => v
  end.

Definition longer_or_new (seen : gmap str str) (key clean_text : str) : bool :=
  match seen !! key with
  | None => true
  | Some old => length old <? length clean_text
  end.

(* the text of an item: the first non-empty of "point", "feature", "text",
   else the item as a string *)
Definition item_text (it : item) : str :=
  match it with
  | IDict d => por (dict_get d "point") (por (dict_get d "feature")
                 (por (dict_get d "text") (dict_str d)))
  | IStr s => s
  end.

Definition deduplicate_content_step (product_name : option str)
    (st : gmap str str * list item) (it : item) : gmap str str * list item :=
  let '(seen_points, cleaned_content) := st in
  let text := item_text it in
  let clean_text := clean_and_deduplicate_text text in
  if negb (truthy clean_text) then st else
  let key := get_comparison_key clean_text in
  if negb (truthy key) then st else
  if longer_or_new seen_points key clean_text then
    let seen_points := <[key := clean_text]> seen_points in
    match it with
    | IDict d =>
        let item_copy := subst_product product_name <$> d in
        (seen_points, cleaned_content ++ [IDict item_copy])
    | IStr _ =>
        let clean_point := subst_product product_name clean_text in
        (seen_points, cleaned_content ++ [IStr clean_point])
    end
  else st.

Definition deduplicate_content (content_list : list item)
    (product_name : option str) : list item :=
  (foldl (deduplicate_content_step product_name) (∅, []) content_list).2.

(* the dict of deduplicate_bullets keeps its keys in insertion order *)
Fixpoint od_set (k v : str) (d : list (str * str)) : list (str * str) :=
  match d with
  | [] => [(k, v)]
  | (k', v') :: d' =>
      if str_eqb k' k then (k', v) :: d' else (k', v') :: od_set k v d'
  end.

Fixpoint od_get (k : str) (d : list (str * str)) : option str :=
  match d with
  | [] => None
  | (k', v') :: d' => if str_eqb k' k then Some v' else od_get k d'
  end.

Definition bullet_text (bullet : item) : str :=
  match bullet with
  | IDict d => por (dict_get d "point") (por (dict_get d "text") (dict_str d))
  | IStr s => s
  end.

Definition deduplicate_bullets_step (unique_bullets : list (str * str))
    (bullet : item) : list (str * str) :=
  let text := bullet_text bullet in
  let clean_text := clean_and_deduplicate_text text in
  let key := get_comparison_key clean_text in
  if negb (truthy key) then unique_bullets else
  match od_get key unique_bullets with
  | None => od_set key clean_text unique_bullets
  | Some old =>
      if length old <? length clean_text
      then od_set key clean_text unique_bullets
      else unique_bullets
  end.

Definition deduplicate_bullets (bullets : list item) : list str :=
  (foldl deduplicate_bullets_step [] bullets).*2.

(* the canonical dedup key of a string and of an item *)
Definition dedup_key (text : str) : str :=
  get_comparison_key (clean_and_deduplicate_text text).

Definition item_key (it : item) : str := dedup_key (item_text it).

(* no two elements share a non-empty key *)
Definition keys_distinct {A} (key : A → str) (out : list A) : Prop :=
  ∀ i j a b, i ≠ j → out !! i = Some a → out !! j = Some b →
    key a = key b → key a = [].

(** ** Truncator and sentence-completion repair *)

(* the table of ensure_complete_sentences, in the order the dict lists it *)
Definition endings : list (str * str) :=
  (λ pc : string * string, (lit pc.1, lit pc.2)) <$>
  [("manua", "manual processes.");
   ("vulnerab", "vulnerability management.");
   ("efficien", "efficiency.");
   ("secur", "security measures.");
   ("complian", "compliance requirements.");
   ("detect", "detection capabilities.");
   ("automa", "automation capabilities.");
   ("respon", "response procedures.");
   ("sophisti", "sophisticated approach.");
   ("integra", "integration capabilities.");
   ("platfor", "platform features.");
   ("soluti", "solution benefits.");
   ("analy", "analysis capabilities.");
   ("monitor", "monitoring system.");
   ("protect", "protection measures.")]%string.

(* complete.split()[0].lower() *)
Definition first_word_lower (complete : str) : str :=
  str_lower (default [] (head (split complete))).

(* the loop over [endings], left at the first entry that applies *)
Fixpoint complete_last_word (es : list (str * str)) (last_word text : str) : str :=
  match es with
  | [] => text
  | (partial, complete) :: es' =>
      if startswith last_word partial
         && negb (str_eqb last_word (first_word_lower complete))
      then join (lit " ") (removelast (split text)) ++ lit " " ++ complete
      else complete_last_word es' last_word text
  end.

Definition ensure_complete_sentences (text : str) : res str :=
  if negb (truthy text) then Ok text else
  let text := rstrip_chars (lit "...") (rstrip_chars (lit ". ") text) in
  match last text with
  | None => Raise IndexError                       (* text[-1] *)
  | Some c =>
      let text := if isalnum c then text ++ lit "." else text in
      match last (split text) with
      | None => Raise IndexError                   (* text.split()[-1] *)
      | Some w => Ok (complete_last_word endings (str_lower w) text)
      end
  end.

(* [limit or default]: None and 0 both give the default *)
Definition limit_or (limit : option nat) (dflt : nat) : nat :=
  match limit with
  | Some (S n) => S n
  | _ => dflt
  end.

(* max(last_period, last_exclamation, last_question) *)
Definition last_sentence_end (text : str) (max_chars : nat) : Z :=
  let last_period := rfind 46%N text max_chars in
  let last_exclamation := rfind 33%N text max_chars in
  let last_question := rfind 63%N text max_chars in
  Z.max (Z.max last_period last_exclamation) last_question.

(* the cut at the character limit: sentence end, else space, else hard *)
Definition cut_to_chars (text : str) (max_chars : nat) : str :=
  if (0 <? last_sentence_end text max_chars)%Z
  then strip (take (Z.to_nat (last_sentence_end text max_chars + 1)) text)
  else
    let last_space := rfind 32%N text max_chars in
    if (0 <? last_space)%Z
    then strip (take (Z.to_nat last_space) text)
    else strip (take max_chars text).

Definition truncate_text_for_slide (text : str)
    (max_chars max_words : option nat) : res str :=
  if negb (truthy text) then Ok [] else
  let max_chars := limit_or max_chars 100 in
  let max_words := limit_or max_words 20 in
  let text := strip text in
  let words := split text in
  if (length words <=? max_words) && (length text <=? max_chars)
  then ensure_complete_sentences text
  else
    let text :=
      if max_words <? length words
      then join (lit " ") (take max_words words) else text in
    let text :=
      if max_chars <? length text
      then cut_to_chars text max_chars else text in
    ensure_complete_sentences text.

End Text.

(** ** Vocabulary of the properties *)

Definition ends_sentence (s : str) : bool :=
  match last s with
  | Some c => inb c (lit ".!?")
  | None => false
  end.

Section Vocabulary.
Context `{Py : Runtime}.

Definition notspace (c : char) : bool := negb (isspace c).

(* a word: not empty and free of white space *)
Definition is_word (w : str) : Prop := w ≠ [] ∧ forallb notspace w = true.

(* the text with the period that ensure_complete_sentences may add *)
Definition completed (t : str) (c : char) : str :=
  if isalnum c then t ++ lit "." else t.

(* the condition under which the loop of ensure_complete_sentences takes an
   entry of the table *)
Definition ending_applies (last_word : str) (pc : str * str) : bool :=
  startswith last_word pc.1 && negb (str_eqb last_word (first_word_lower pc.2)).

(* the text after the word cut, on which the character limit is checked *)
Definition word_cut (text : str) (max_words : nat) : str :=
  let text := strip text in
  let words := split text in
  if max_words <? length words
  then join (lit " ") (take max_words words) else text.

(* the text the Truncator hands to ensure_complete_sentences *)
Definition truncated_text (text : str) (max_chars max_words : option nat) : str :=
  let max_chars := limit_or max_chars 100 in
  let max_words := limit_or max_words 20 in
  let stripped := strip text in
  if (length (split stripped) <=? max_words) && (length stripped <=? max_chars)
  then stripped
  else
    let text := word_cut text max_words in
    if max_chars <? length text then cut_to_chars text max_chars else text.

(* the forced hard cut: over the character limit after the word cut, with
   neither a sentence end nor a space found before the limit *)
Definition hard_cut_taken (text : str) (max_chars max_words : option nat) : bool :=
  let max_chars := limit_or max_chars 100 in
  let max_words := limit_or max_words 20 in
  let stripped := strip text in
  truthy text
  && negb ((length (split stripped) <=? max_words) && (length stripped <=? max_chars))
  && (max_chars <? length (word_cut text max_words))
  && negb (0 <? last_sentence_end (word_cut text max_words) max_chars)%Z
  && negb (0 <? rfind 32%N (word_cut text max_words) max_chars)%Z.

(* the claim, as the specification words it *)
Definition truncator_claim (text : str) (max_chars max_words : option nat) : Prop :=
  ∀ out, truncate_text_for_slide text max_chars max_words = Ok out →
    length (split out) ≤ limit_or max_words 20 ∧
    (hard_cut_taken text max_chars max_words = false →
     length out ≤ limit_or max_chars 100).

Definition is_bullet_glyph (c : char) : bool :=
  inb c [BULLET; 42%N; MIDDLE_DOT; 45%N].

Definition remove_bullets (s : str) : str :=
  List.filter (λ c, negb (is_bullet_glyph c)) s.

(* punctuation: neither letter or digit nor white space *)
Definition is_punct (c : char) : bool := negb (isalnum c || isspace c).

(* two characters that differ in case at most: the same lower-case form,
   and letters or digits alike *)
Definition case_variant (c d : char) : Prop :=
  lower c = lower d ∧ isalnum c = isalnum d.

Definition non_stop_words (s : str) : list str :=
  List.filter (λ w, negb (is_stop_word w)) (split s).

(* one difference of a kind the key is to ignore *)
Inductive noise_step : str → str → Prop :=
| bullet_glyphs s1 s2 :
    remove_bullets s1 = remove_bullets s2 → noise_step s1 s2
| letter_case s1 s2 :
    Forall2 case_variant s1 s2 → noise_step s1 s2
| stop_word_occurrences s1 s2 :
    non_stop_words s1 = non_stop_words s2 → noise_step s1 s2
| trailing_punctuation s p :
    forallb is_punct p = true → noise_step s (s ++ p).

(* any number of such differences, in either direction *)
Definition differ_only_in_noise : relation str := rtsc noise_step.

(* the differences as the specification words them: beside the above, a
   stop word is an occurrence wherever it stands as a word of its own,
   between the ends of the string or characters that are neither letters
   nor digits, a hyphen for one *)
Definition starts_no_word (s : str) : bool :=
  match s with [] => true | c :: _ => negb (isalnum c) end.

Definition ends_no_word (s : str) : bool :=
  match last s with None => true | Some c => negb (isalnum c) end.

Inductive worded_noise_step : str → str → Prop :=
| noise_of_the_key s1 s2 :
    noise_step s1 s2 → worded_noise_step s1 s2
| stop_word_between_marks s1 w s2 :
    is_stop_word w = true → ends_no_word s1 = true → starts_no_word s2 = true →
    worded_noise_step (s1 ++ w ++ s2) (s1 ++ s2).

(* the claim, as the specification words it *)
Definition key_invariance_claim (s1 s2 : str) : Prop :=
  rtsc worded_noise_step s1 s2 →
  dedup_key s1 = dedup_key s2 ∧ get_comparison_key s1 = get_comparison_key s2.

(* the characters of the key before it is split into words *)
Definition key_chars (text : str) : str :=
  flat_map lower (List.filter (λ c, isalnum c || isspace c) text).

Definition key_words (text : str) : list str := split (key_chars text).

Definition key_rewrite (c : char) : str :=
  if isalnum c || isspace c then lower c else [].

(* what the key is made from: the words of the key that are no stop words *)
Definition key_content (s : str) : list str :=
  List.filter (λ w, negb (is_stop_word w)) (key_words s).

(* the dict of deduplicate_bullets: no key twice, and each value filed under
   its own comparison key *)
Definition keyed (d : list (str * str)) : Prop :=
  NoDup d.*1 ∧ ∀ k v, (k, v) ∈ d → get_comparison_key v = k.

(* the claim, as the specification words it *)
Definition completion_claim (text : str) : Prop :=
  text ≠ [] →
  ∃ out, ensure_complete_sentences text = Ok out ∧ ends_sentence out = true.

(* the claim, as the specification words it *)
Definition idempotence_claim (text : str)
    (max_chars max_words : option nat) : Prop :=
  ∀ out, truncate_text_for_slide text max_chars max_words = Ok out →
         truncate_text_for_slide out max_chars max_words = Ok out.

End Vocabulary.

Definition is_ascii (s : str) : bool := forallb (λ c, c <? 128)%N s.

Definition is_lower_ascii (c : char) : bool := ((97 <=? c) && (c <=? 122))%N.

(* the characters of the words and one separator before each *)
Fixpoint spread (ws : list str) : nat :=
  match ws with
  | [] => 0
  | w :: ws' => S (length w) + spread ws'
  end.

(* what makes a completion phrase come back unchanged, checked on the ASCII
   table: the phrase is ASCII and is a lower-case letter followed by a
   period at its end, its last word is its own lower-case form, and no
   entry of the table applies to that word *)
Definition phrase_is_stable (complete : str) : bool :=
  is_ascii complete
  && match reverse complete with
     | dot :: letter :: _ => (dot =? 46)%N && is_lower_ascii letter
     | _ => false
     end
  && match last (split (Py := ascii_table) complete) with
     | Some w =>
         is_ascii w
         && str_eqb (str_lower (Py := ascii_table) w) w
         && forallb (λ pc, negb (ending_applies (Py := ascii_table) w pc)) endings
     | None => false
     end.

(** ** Slide order planner ([create_presentation], default order) *)

(* a roster entry: a record with text-valued fields, a plain string, or
   anything else *)
Inductive member :=
| MDict (d : gmap string str)
| MStr (s : str)
| MOther.

Record team_config := {
  include_team_slide : bool;
  team_members : list member;
}.

Definition nonempty {A} (l : list A) : bool :=
  match l with [] => false | _ => true end.

Section Planner.
Context {V : Type}.
Implicit Types (content : gmap string V) (persona : str).

Definition has_key content (k : string) : bool := bool_decide (is_Some (content !! k)).

Definition persona_groups persona : list string * list string * list string :=
  if str_eqb persona (lit "technical") then
    (["title_slide"; "problem_slide"; "solution_slide"; "features_slide";
      "advantage_slide"],
     ["roadmap_slide"; "audience_slide"],
     ["market_slide"])%string
  else if str_eqb persona (lit "executive") then
    (["title_slide"; "problem_slide"; "market_slide"; "solution_slide";
      "advantage_slide"],
     ["features_slide"; "audience_slide"],
     ["roadmap_slide"])%string
  else
    (["title_slide"; "problem_slide"; "solution_slide"; "features_slide"],
     ["advantage_slide"; "audience_slide"],
     ["market_slide"; "roadmap_slide"])%string.

Definition default_slide_order content persona (tc : team_config) : list string :=
  let '(core_slides, supporting_slides, optional_slides) := persona_groups persona in
  let slide_order :=
    List.filter (has_key content)
      (core_slides ++ supporting_slides ++ optional_slides) in
  let slide_order :=
    if include_team_slide tc && nonempty (team_members tc)
    then slide_order ++ ["team_slide"%string] else slide_order in
  if has_key content "cta_slide"
     && negb (bool_decide ("cta_slide"%string ∈ slide_order))
  then slide_order ++ ["cta_slide"%string] else slide_order.

(* custom_slide_order: None, or a list that counts only when non-empty *)
Definition plan_slide_order content persona (tc : team_config)
    (custom_slide_order : option (list string)) : list string :=
  match custom_slide_order with
  | Some (t :: ts) => t :: ts
  | _ => default_slide_order content persona tc
  end.

Definition persona_slides persona : list string :=
  let '(core_slides, supporting_slides, optional_slides) := persona_groups persona in
  core_slides ++ supporting_slides ++ optional_slides.

(* the claim on the default order, as the specification words it *)
Definition planner_claim content persona tc : Prop :=
  let order := plan_slide_order content persona tc None in
  (∀ t, t ∈ order → is_Some (content !! t)) ∧
  (is_Some (content !! "cta_slide"%string) → last order = Some "cta_slide"%string).

End Planner.

(** ** Team slide wrapper ([create_team_slide_wrapper]) *)

Definition generic_names : list str :=
  lit <$> ["John Doe"; "Jane Smith"; "Team Member"; "CEO"; "CTO"; "Manager";
           "Chief Executive Officer"; "Chief Technology Officer";
           "Chief Operating Officer"; "COO"; "CFO"; "CMO"; "Director"; "VP";
           "Vice President"]%string.

Definition is_generic (s : str) : bool := bool_decide (s ∈ generic_names).

Definition member_is_real (m : member) : bool :=
  match m with
  | MDict d =>
      let name := default [] (d !! "name"%string) in
      let title := default [] (d !! "title"%string) in
      truthy name && negb (is_generic name) && negb (is_generic title)
  | MStr s => negb (is_generic s)
  | MOther => false
  end.

(* an entry with a non-generic name and title, by the denylist alone *)
Definition entry_non_generic (m : member) : bool :=
  match m with
  | MDict d =>
      negb (is_generic (default [] (d !! "name"%string)))
      && negb (is_generic (default [] (d !! "title"%string)))
  | MStr s => negb (is_generic s)
  | MOther => false
  end.

(* the loop that sets has_real_names *)
Definition has_real_names (ms : list member) : bool := existsb member_is_real ms.

(* a slide-content record: text fields, and the roster under "team_members"
   when the key is there *)
Record slide_record := {
  text_fields : gmap string str;
  roster : option (list member);
}.

Section TeamSlide.

(* create_team_slide lives in ppt_generator_additions, which is not part of
   the sources at hand: it either returns the slide or raises (None) *)
Context {slide : Type} (create_team_slide : slide_record → option slide).

Definition create_team_slide_wrapper (content : slide_record)
    (ctx_include_team_slide : bool) : option slide :=
  if negb ctx_include_team_slide then None else
  let team_members := default [] (roster content) in
  if negb (nonempty team_members) then None else
  if negb (has_real_names team_members) then None else
  create_team_slide content.

End TeamSlide.

Definition engineer : member :=
  MDict {[ "name"%string := lit "Ada Lovelace"; "title"%string := lit "Engineer" ]}.

Definition john_doe : member :=
  MDict {[ "name"%string := lit "John Doe"; "title"%string := lit "CEO" ]}.

Definition nameless : member :=
  MDict {[ "name"%string := []; "title"%string := lit "Lead Engineer" ]}.

Definition plain_record : slide_record :=
  {| text_fields := {[ "title"%string := lit "Acme" ]}; roster := None |}.

Definition team_record (ms : list member) : slide_record :=
  {| text_fields := {[ "title"%string := lit "Our Team" ]}; roster := Some ms |}.

(* a bundle with a title and a call to action, and no team record *)
Definition bundle_without_team : gmap string slide_record :=
  {[ "title_slide"%string := plain_record; "cta_slide"%string := plain_record ]}.

(** ** Image cache layer ([fetch_image_with_cache], [fetch_unique_image])

    The layer works on three pieces of state: the set of hashes used in the
    deck under construction, the session's byte cache (absent when the
    session has no "original_images_cache" entry) and the outside world, of
    which only the number of fetches made so far matters: the answer of the
    image service to the n-th request is given by [fetch_image_for_slide]. *)

Section ImageCache.
Context {bytes hash : Type} `{Countable hash}.
Context (md5 : bytes → hash).
Context (fetch_image_for_slide : nat → string → bool → option bytes).

Record session := {
  used_images : gset hash;
  original_images_cache : option (gmap string bytes);
  fetches : nat;
}.

Definition M (A : Type) : Type := session → A * session.

#[global] Instance M_ret : MRet M := λ A a s, (a, s).
#[global] Instance M_bind : MBind M := λ A B f m s, let '(a, s') := m s in f a s'.

Definition is_used (h : hash) : M bool := λ s, (bool_decide (h ∈ used_images s), s).

Definition mark_used (h : hash) : M unit := λ s,
  (tt, {| used_images := {[h]} ∪ used_images s;
          original_images_cache := original_images_cache s;
          fetches := fetches s |}).

Definition cache_lookup (key : string) : M (option bytes) := λ s,
  (match original_images_cache s with
   | Some cache => cache !! key
   | None => None
   end, s).

(* the assignment is made only when the session has the cache *)
Definition cache_store (key : string) (img : bytes) : M unit := λ s,
  (tt, {| used_images := used_images s;
          original_images_cache := <[key := img]> <$> original_images_cache s;
          fetches := fetches s |}).

Definition fetch (slide_type : string) (use_placeholders : bool) : M (option bytes) :=
  λ s,
  (fetch_image_for_slide (fetches s) slide_type use_placeholders,
   {| used_images := used_images s;
      original_images_cache := original_images_cache s;
      fetches := S (fetches s) |}).

Definition cache_key (slide_type : string) : string := (slide_type +:+ "_slide")%string.

(* for _ in range(n) *)
Fixpoint fetch_attempts (n : nat) (slide_type : string) (use_placeholders : bool)
    : M (option bytes) :=
  match n with
  | O => mret None
  | S n' =>
      image_data ← fetch slide_type use_placeholders;
      match image_data : option bytes with
      | None => mret None
      | Some img_bytes =>
          used ← is_used (md5 img_bytes);
          if used : bool then fetch_attempts n' slide_type use_placeholders
          else
            mark_used (md5 img_bytes);;
            cache_store (cache_key slide_type) img_bytes;;
            mret (Some img_bytes)
      end
  end.

Definition fetch_unique_image (slide_type : string) (is_new_presentation : bool)
    (use_placeholders : bool) : M (option bytes) :=
  if negb is_new_presentation then mret None
  else fetch_attempts 3 slide_type use_placeholders.

Definition fetch_image_with_cache (slide_type : string) (is_new_presentation : bool)
    (use_placeholders : bool) : M (option bytes) :=
  cached ← cache_lookup (cache_key slide_type);
  match cached : option bytes with
  | Some cached_data =>
      used ← is_used (md5 cached_data);
      if negb used then
        mark_used (md5 cached_data);; mret (Some cached_data)
      else if negb is_new_presentation then mret (Some cached_data)
      else fetch_unique_image slide_type is_new_presentation use_placeholders
  | None =>
      if is_new_presentation
      then fetch_unique_image slide_type is_new_presentation use_placeholders
      else mret None
  end.

(* the calls of one build, in order, on the shared state *)
Fixpoint fetch_all (is_new_presentation : bool) (calls : list (string * bool))
    : M (list (option bytes)) :=
  match calls with
  | [] => mret []
  | (slide_type, use_placeholders) :: rest =>
      r ← fetch_image_with_cache slide_type is_new_presentation use_placeholders;
      rs ← fetch_all is_new_presentation rest;
      mret (r :: rs)
  end.

(* what one call may do to the set of used hashes *)
Definition fresh_result (s : session) (r : option bytes)
    (s' : session) : Prop :=
  used_images s ⊆ used_images s' ∧
  match r with
  | Some img => (md5 img ∉ used_images s) ∧ md5 img ∈ used_images s'
  | None => True
  end.

(* three answers in a row that are all in use leave the layer empty-handed *)
Definition attempts_collide (n : nat) (slide_type : string) (up : bool)
    (s : session) : Prop :=
  ∀ i, i < n →
    match fetch_image_for_slide (fetches s + i) slide_type up with
    | Some img => md5 img ∈ used_images s
    | None => True
    end.

Definition cached_image (slide_type : string) (s : session)
    : option bytes :=
  match original_images_cache s with
  | Some cache => cache !! cache_key slide_type
  | None => None
  end.

End ImageCache.

(** ** The advantage slide builder and the lists it shares with its caller

    A list-valued field of a record holds a reference to a list object; the
    objects live in a store, so that two names for one list see each
    other's updates. *)

Abbreviation loc := nat.

Inductive field :=
| FStr (s : str)
| FList (l : loc).

Section Builders.
Context `{Py : Runtime}.

Definition additional_advantages : list item :=
  (λ s, IStr (lit s)) <$>
  ["Industry-leading innovation and technology";
   "Proven track record of success";
   "Comprehensive support and resources"]%string.

(* what the builder writes on the slide *)
Record advantage_slide := {
  slide_title : str;
  slide_bullets : list str;
}.

Fixpoint truncate_all (bs : list str) : res (list str) :=
  match bs with
  | [] => Ok []
  | b :: bs' =>
      match truncate_text_for_slide b (Some 80) (Some 15) with
      | Raise e => Raise e
      | Ok t =>
          match truncate_all bs' with
          | Raise e => Raise e
          | Ok ts => Ok ((BULLET :: 32%N :: t) :: ts)
          end
      end
  end.

(* the list the name [bullets] is bound to: the record's own list when it
   has one of the three fields, a new empty list otherwise *)
Definition bullets_of (content : gmap string field) (store : gmap loc (list item))
    : option field * gmap loc (list item) :=
  match content !! "differentiators"%string with
  | Some v => (Some v, store)
  | None =>
      match content !! "bullets"%string with
      | Some v => (Some v, store)
      | None =>
          match content !! "advantages"%string with
          | Some v => (Some v, store)
          | None =>
              let l := fresh (dom store) in
              (Some (FList l), <[l := []]> store)
          end
      end
  end.

Definition create_advantage_slide (content : gmap string field)
    (product_name : str) (store : gmap loc (list item))
    : gmap loc (list item) * res advantage_slide :=
  match content !! "title"%string with
  | None => (store, Raise KeyError)
  | Some (FList _) => (store, Raise AttributeError)
  | Some (FStr title) =>
      (* create_section_header writes the title with its white space
         cleaned up *)
      let clean_title := replace PRODUCT_NAME product_name title in
      let clean_title := join (lit " ") (split clean_title) in
      match bullets_of content store with
      | (Some (FList l), store) =>
          (* bullets.extend(additional_advantages) *)
          let bullets := default [] (store !! l) ++ additional_advantages in
          let store := <[l := bullets]> store in
          let clean_bullets := take 5 (deduplicate_bullets bullets) in
          match truncate_all clean_bullets with
          | Raise e => (store, Raise e)
          | Ok ps => (store, Ok {| slide_title := clean_title; slide_bullets := ps |})
          end
      | (_, store) => (store, Raise AttributeError)
      end
  end.

(* create_market_slide_wrapper, up to the call of the builder proper: the
   record it passes on, with "description" replaced by its truncation. A
   list under "description" is taken for the empty string when it is empty
   and has no strip method otherwise. *)
Definition market_wrapper_record (content : gmap string field)
    (store : gmap loc (list item)) : res (gmap string field) :=
  match content !! "description"%string with
  | None => Ok content
  | Some (FStr d) =>
      match truncate_text_for_slide d (Some 200) (Some 35) with
      | Ok t => Ok (<["description"%string := FStr t]> content)
      | Raise e => Raise e
      end
  | Some (FList l) =>
      match default [] (store !! l) with
      | [] => Ok (<["description"%string := FStr []]> content)
      | _ => Raise AttributeError
      end
  end.

(* the value of a field as a reader of the record sees it *)
Definition field_value (content : gmap string field) (store : gmap loc (list item))
    (k : string) : option (str + list item) :=
  match content !! k with
  | None => None
  | Some (FStr s) => Some (inl s)
  | Some (FList l) => Some (inr (default [] (store !! l)))
  end.
End Builders.

Definition adv_content : gmap string field :=
  {[ "title"%string := FStr (lit "Why us");
     "differentiators"%string := FList 0 ]}.

Definition adv_store : gmap loc (list item) :=
  {[ 0 := [IStr (lit "Fast setup")] ]}.

(* an image service that answers the first four requests with one image and
   the later ones with another; images are numbers and hash to themselves *)
Definition same_image_four_times (n : nat) (_ : string) (_ : bool) : option nat :=
  Some (if n <? 4 then 7 else 8).

Definition fresh_session : session (bytes := nat) (hash := nat) :=
  {| used_images := ∅; original_images_cache := Some ∅; fetches := 0 |}.

(** ** Style names ([normalize_style]) and the build loop's dispatch *)

(* the keys of PRESENTATION_STYLES *)
Definition PRESENTATION_STYLES_keys : list str :=
  lit <$> ["technical"; "executive"; "business"]%string.

Section Styles.
Context `{Py : Runtime}.

(* the argument is any Python value: a string, or something that is none *)
Definition normalize_style (style : option str) : str :=
  match style with
  | None => lit "business"
  | Some style =>
      let style := str_lower style in
      if bool_decide (style ∈ PRESENTATION_STYLES_keys) then style
      else lit "business"
  end.

(* content.get('metadata', {}).get('persona', 'business'), normalised *)
Definition presentation_persona (metadata : option (gmap string str)) : str :=
  normalize_style
    (Some (default (lit "business") (default ∅ metadata !! "persona"%string))).

End Styles.

(* the builders the loop of create_presentation chooses from *)
Inductive builder :=
| BTitle | BProblem | BSolution | BFeatures | BAdvantage | BAudience
| BMarket | BRoadmap | BTeam | BCta.

(* the if/elif chain of the loop; a slide type outside it builds nothing *)
Definition builder_of (slide_type : string) : option builder :=
  if (slide_type =? "title_slide")%string then Some BTitle
  else if (slide_type =? "problem_slide")%string then Some BProblem
  else if (slide_type =? "solution_slide")%string then Some BSolution
  else if (slide_type =? "features_slide")%string then Some BFeatures
  else if (slide_type =? "advantage_slide")%string then Some BAdvantage
  else if (slide_type =? "audience_slide")%string then Some BAudience
  else if (slide_type =? "market_slide")%string then Some BMarket
  else if (slide_type =? "roadmap_slide")%string then Some BRoadmap
  else if (slide_type =? "team_slide")%string then Some BTeam
  else if (slide_type =? "cta_slide")%string then Some BCta
  else None.

Section BuildLoop.
Context {V : Type}.

(* the builder calls of the loop, in order, each with the record it is
   handed; an entry of the order that is no key of the bundle is skipped *)
Definition build_calls (content : gmap string V) (persona : str)
    (tc : team_config) (custom_slide_order : option (list string))
    : list (builder * V) :=
  omap (λ slide_type : string,
          match content !! slide_type with
          | None => None
          | Some slide_data => (λ b, (b, slide_data)) <$> builder_of slide_type
          end)
       (plan_slide_order content persona tc custom_slide_order).

End BuildLoop.

(** ** Merger of the persona defaults into the bundle ([create_presentation])

    A slide record is a dict whose fields are strings or references to list
    objects; the lists of PERSONA_CONTENT are objects of the same store as
    the lists of the bundle. *)

Definition list_at (store : gmap loc (list item)) (l : loc) : list item :=
  default [] (store !! l).

(* the truth value of a field: the empty string and the empty list are false *)
Definition field_truthy (store : gmap loc (list item)) (v : field) : bool :=
  match v with
  | FStr s => truthy s
  | FList l => nonempty (list_at store l)
  end.

(* the keys dict.fromkeys is given: the strings of the list; a dict among
   the items cannot be hashed, which raises TypeError (None) *)
Fixpoint hashable (l : list item) : option (list str) :=
  match l with
  | [] => Some []
  | IStr s :: l' => cons s <$> hashable l'
  | IDict _ :: _ => None
  end.

(* list(dict.fromkeys(l)): each element once, in the order of the first
   occurrences *)
Definition dict_fromkeys (l : list str) : list str :=
  foldl (λ keys k, if bool_decide (k ∈ keys) then keys else keys ++ [k]) [] l.

(* one round of the inner loop on merged_content; None once an exception
   has been raised. An assignment of the persona's value stores the
   reference it is given; the combined list is a new object. *)
Definition merge_field (key : string) (v : field)
    (st : option (gmap string field * gmap loc (list item)))
    : option (gmap string field * gmap loc (list item)) :=
  match st with
  | None => None
  | Some (merged_content, store) =>
      match merged_content !! key with
      | None => Some (<[key := v]> merged_content, store)
      | Some mine =>
          if negb (field_truthy store mine)
          then Some (<[key := v]> merged_content, store)
          else
            match v, mine with
            | FList theirs, FList mine =>
                match hashable (list_at store mine ++ list_at store theirs) with
                | None => None
                | Some keys =>
                    let l := fresh (dom store) in
                    Some (<[key := FList l]> merged_content,
                          <[l := IStr <$> dict_fromkeys keys]> store)
                end
            | _, _ => Some (merged_content, store)
            end
      end
  end.

(* the inner loop, over the fields of the persona's record, on a copy of
   the user's record; each round reads and writes the field of its own key
   only *)
Definition merge_record (user_record slide_content : gmap string field)
    (store : gmap loc (list item))
    : option (gmap string field * gmap loc (list item)) :=
  map_fold merge_field (Some (user_record, store)) slide_content.

(* the outer loop: the record of a slide the bundle has is merged, or, when
   the merge raises, replaced by the persona's record *)
Definition merge_persona_content
    (persona_content content : gmap string (gmap string field))
    (store : gmap loc (list item))
    : gmap string (gmap string field) * gmap loc (list item) :=
  map_fold
    (λ slide_type slide_content (st : gmap string (gmap string field)
                                      * gmap loc (list item)),
       match st.1 !! slide_type with
       | None => st
       | Some user_record =>
           match merge_record user_record slide_content st.2 with
           | Some (merged_content, store) =>
               (<[slide_type := merged_content]> st.1, store)
           | None => (<[slide_type := slide_content]> st.1, st.2)
           end
       end)
    (content, store) persona_content.

(* the lists a record refers to are objects of the store *)
Definition field_in_store (store : gmap loc (list item)) (v : field) : bool :=
  match v with
  | FStr _ => true
  | FList l => bool_decide (is_Some (store !! l))
  end.

Definition record_in_store (store : gmap loc (list item))
    (record : gmap string field) : Prop :=
  map_Forall (λ _ v, field_in_store store v = true) record.

Definition bundle_in_store (store : gmap loc (list item))
    (content : gmap string (gmap string field)) : Prop :=
  map_Forall (λ _ record, record_in_store store record) content.

(* the objects of the first store are objects of the second, unchanged *)
Definition store_extends (store store' : gmap loc (list item)) : Prop :=
  ∀ l, is_Some (store !! l) → store' !! l = store !! l.

(* the merge of two fields raises: the user's is a list that is not empty,
   the persona's is a list, and one of the items is a dict *)
Definition field_raises (store : gmap loc (list item)) (mine : field)
    (theirs : option field) : bool :=
  match mine, theirs with
  | FList lm, Some (FList lt) =>
      nonempty (list_at store lm)
      && bool_decide (hashable (list_at store lm ++ list_at store lt) = None)
  | _, _ => false
  end.

Definition merge_raises (store : gmap loc (list item))
    (user_record slide_content : gmap string field) : Prop :=
  map_Exists (λ key mine, field_raises store mine (slide_content !! key) = true)
             user_record.

(* the outcome of the inner loop for one key: the user's field, the
   persona's, and the field of the merged record, with the store the merge
   started in and the store it ended in *)
Definition field_outcome (store st : gmap loc (list item))
    (mine theirs result : option field) : Prop :=
  match theirs, mine with
  | None, _ => result = mine
  | Some v, None => result = Some v
  | Some v, Some m =>
      if negb (field_truthy store m) then result = Some v
      else
        match v, m with
        | FList lt, FList lm =>
            ∃ keys l,
              hashable (list_at store lm ++ list_at store lt) = Some keys ∧
              result = Some (FList l) ∧ store !! l = None ∧
              st !! l = Some (IStr <$> dict_fromkeys keys)
        | _, _ => result = Some m
        end
  end.

Definition strs (l : list string) : list item := IStr ∘ lit <$> l.

(* the list objects of PERSONA_CONTENT, numbered in the order of the source *)
Definition PERSONA_CONTENT_lists : gmap loc (list item) :=
  {[
     (* technical, problem_slide, bullets *)
     0 := strs ["Complex integration requirements with legacy systems";
                 "Scalability limitations in current architecture";
                 "Manual deployment and configuration processes";
                 "Limited visibility into system performance metrics";
                 "Technical debt from outdated infrastructure";
                 "Resource-intensive maintenance procedures"];
     (* technical, solution_slide, features *)
     1 := strs ["Containerized microservices deployment";
                 "RESTful API integration capabilities";
                 "Automated CI/CD pipeline integration";
                 "Real-time monitoring and logging";
                 "Horizontal scaling with Kubernetes"];
     (* technical, advantage_slide, bullets *)
     2 := strs ["99.99% system availability with redundant architecture";
                 "Sub-millisecond response times for API endpoints";
                 "Zero-downtime deployments with blue-green strategy";
                 "Comprehensive API documentation and SDKs";
                 "Advanced debugging and monitoring tools"];
     (* executive, problem_slide, bullets *)
     3 := strs ["Increasing operational costs impacting bottom line";
                 "Market share erosion from digital competitors";
                 "Risk exposure from legacy systems";
                 "Inefficient resource allocation";
                 "Compliance and regulatory pressures";
                 "Limited business agility and innovation"];
     (* executive, solution_slide, features *)
     4 := strs ["Comprehensive business intelligence dashboard";
                 "Executive-level reporting and analytics";
                 "Strategic resource optimization";
                 "Risk management framework";
                 "Compliance automation suite"];
     (* executive, advantage_slide, bullets *)
     5 := strs ["30% reduction in operational costs";
                 "40% improvement in resource utilization";
                 "60% faster time-to-market for new initiatives";
                 "25% increase in customer satisfaction";
                 "Demonstrated ROI within 6 months"];
     (* business, problem_slide, bullets *)
     6 := strs ["Inefficient workflow processes causing delays";
                 "Data silos limiting business insights";
                 "Manual reporting consuming valuable time";
                 "Inconsistent customer experience";
                 "Resource allocation inefficiencies";
                 "Limited scalability for growth"];
     (* business, solution_slide, features *)
     7 := strs ["Automated workflow management";
                 "Intuitive business process designer";
                 "Real-time performance analytics";
                 "Customizable reporting dashboard";
                 "Integration with existing tools"];
     (* business, advantage_slide, bullets *)
     8 := strs ["Streamlined business processes";
                 "Enhanced operational visibility";
                 "Improved team collaboration";
                 "Reduced manual workload";
                 "Better resource utilization"] ]}.

(* the three entries of PERSONA_CONTENT *)
Definition technical_content : gmap string (gmap string field) :=
  {[
     "problem_slide"%string :=
       {[ "title"%string :=
         FStr (lit "Technical Challenges");
          "bullets"%string := FList 0 ]};
     "solution_slide"%string :=
       {[ "title"%string :=
         FStr (lit "Technical Solution Architecture");
          "description"%string :=
         FStr (lit "Our solution leverages modern microservices architecture with containerized deployments for optimal scalability and maintainability.");
          "features"%string := FList 1 ]};
     "advantage_slide"%string :=
       {[ "title"%string :=
         FStr (lit "Technical Advantages");
          "bullets"%string := FList 2 ]};
     "cta_slide"%string :=
       {[ "title"%string :=
         FStr (lit "Ready to Enhance Your Technical Infrastructure?");
          "cta_text"%string :=
         FStr (lit "Schedule a technical deep-dive session today");
          "contact_info"%string :=
         FStr (lit "Contact our solutions architects to begin") ]} ]}.

Definition executive_content : gmap string (gmap string field) :=
  {[
     "problem_slide"%string :=
       {[ "title"%string :=
         FStr (lit "Strategic Business Challenges");
          "bullets"%string := FList 3 ]};
     "solution_slide"%string :=
       {[ "title"%string :=
         FStr (lit "Strategic Business Solution");
          "description"%string :=
         FStr (lit "Our enterprise solution delivers measurable ROI through operational efficiency, risk reduction, and enhanced business capabilities.");
          "features"%string := FList 4 ]};
     "advantage_slide"%string :=
       {[ "title"%string :=
         FStr (lit "Business Impact & ROI");
          "bullets"%string := FList 5 ]};
     "cta_slide"%string :=
       {[ "title"%string :=
         FStr (lit "Ready to Drive Business Growth?");
          "cta_text"%string :=
         FStr (lit "Transform your business today");
          "contact_info"%string :=
         FStr (lit "Contact our executive team to discuss your goals") ]} ]}.

Definition business_content : gmap string (gmap string field) :=
  {[
     "problem_slide"%string :=
       {[ "title"%string :=
         FStr (lit "Business Operations Challenges");
          "bullets"%string := FList 6 ]};
     "solution_slide"%string :=
       {[ "title"%string :=
         FStr (lit "Business Process Solution");
          "description"%string :=
         FStr (lit "Our solution streamlines operations, automates workflows, and provides actionable insights for better business decisions.");
          "features"%string := FList 7 ]};
     "advantage_slide"%string :=
       {[ "title"%string :=
         FStr (lit "Operational Benefits");
          "bullets"%string := FList 8 ]};
     "cta_slide"%string :=
       {[ "title"%string :=
         FStr (lit "Ready to Streamline Your Operations?");
          "cta_text"%string :=
         FStr (lit "Start optimizing your business processes");
          "contact_info"%string :=
         FStr (lit "Contact us to begin your transformation") ]} ]}.

Definition PERSONA_CONTENT : gmap str (gmap string (gmap string field)) :=
  {[ lit "technical" := technical_content;
     lit "executive" := executive_content;
     lit "business" := business_content ]}.

(* PERSONA_CONTENT.get(persona, PERSONA_CONTENT['business']) *)
Definition persona_content_of (persona : str)
    : gmap string (gmap string field) :=
  default (default ∅ (PERSONA_CONTENT !! lit "business"))
          (PERSONA_CONTENT !! persona).

(* a store with the lists of PERSONA_CONTENT and two lists of a user *)
Definition session_store : gmap loc (list item) :=
  <[20 := strs ["Manual deployment and configuration processes";
                "No rollback plan"]]>
  (<[21 := [IDict {[ "point"%string := lit "No rollback plan" ]}]]>
   PERSONA_CONTENT_lists).

(* records of a user: a problem slide with two bullets, the same with the
   bullet given as a record, and an advantage slide that has its title only *)
Definition problem_record : gmap string field :=
  {[ "title"%string := FStr (lit "Why deployments fail");
     "bullets"%string := FList 20 ]}.

Definition problem_record_with_dict : gmap string field :=
  {[ "title"%string := FStr (lit "Why deployments fail");
     "bullets"%string := FList 21 ]}.

Definition bare_advantage_record : gmap string field :=
  {[ "title"%string := FStr (lit "Why [Product Name]") ]}.

Definition bundle_with_bullets : gmap string (gmap string field) :=
  {[ "problem_slide"%string := problem_record ]}.

Definition bundle_with_bullet_record : gmap string (gmap string field) :=
  {[ "problem_slide"%string := problem_record_with_dict ]}.

Definition bundle_with_bare_advantage : gmap string (gmap string field) :=
  {[ "advantage_slide"%string := bare_advantage_record ]}.

(** ** Content enrichers ([expand_advantage_content] and its siblings,
    [expand_content_intelligently], [enhance_bullet_content]) *)

(* s.endswith('.') *)
Definition ends_with_period (s : str) : bool :=
  match last s with
  | Some c => (c =? 46)%N
  | None => false
  end.

(* the loop the enrichers share: one round for each expansion, left at the
   first round that finds the text long enough *)
Fixpoint add_expansions (threshold : nat) (expansions : list str)
    (clean_text : str) : str :=
  match expansions with
  | [] => clean_text
  | expansion :: expansions' =>
      if threshold <=? length clean_text then clean_text
      else
        let clean_text :=
          if ends_with_period clean_text then clean_text
          else clean_text ++ lit "." in
        add_expansions threshold expansions' (clean_text ++ lit " " ++ expansion)
  end.

Definition advantage_expansions : list str :=
  lit <$>
  ["This provides a clear competitive edge in the market.";
   "Our solution outperforms traditional approaches significantly.";
   "Customers report substantial improvements in key metrics.";
   "Implementation time and complexity are reduced by up to 60%.";
   "The return on investment is typically realized within 6 months.";
   "Our approach has been validated by industry experts and analysts.";
   "Integration capabilities exceed industry standards.";
   "Customer satisfaction scores consistently exceed 90%."]%string.

Definition audience_expansions : list str :=
  lit <$>
  ["These organizations face increasing pressure to modernize their operations.";
   "Decision-makers in this segment prioritize efficiency and reliability.";
   "The need for comprehensive solutions continues to grow.";
   "Budget constraints and resource limitations drive demand for efficient solutions.";
   "Regulatory compliance requirements add complexity to their operations.";
   "They seek partners who understand their unique challenges.";
   "Time-to-value is a critical factor in their decision-making process.";
   "Integration with existing systems is a key consideration."]%string.

Definition market_expansions : list str :=
  lit <$>
  ["Market growth is driven by increasing digital transformation initiatives.";
   "Industry analysts project significant expansion in coming years.";
   "Regulatory requirements continue to drive market demand.";
   "Technology adoption rates show strong upward trends.";
   "Organizations are increasing their investment in this sector.";
   "Market penetration opportunities remain substantial.";
   "Competitive dynamics favor innovative solutions.";
   "Global market conditions support continued growth."]%string.

Definition cta_expansions : list str :=
  lit <$>
  ["Take the first step toward transforming your security posture.";
   "Join industry leaders who have already embraced this solution.";
   "Schedule a personalized demo to see the benefits firsthand.";
   "Our team of experts is ready to guide your implementation.";
   "Start your journey to enhanced security today.";
   "Limited-time implementation support available.";
   "Join our growing community of satisfied customers.";
   "Experience the difference our solution can make."]%string.

(* the "additions" of the table of expand_content_intelligently, by content
   type; its "keywords" are never read *)
Definition expansions : gmap string (list str) :=
  {[ "problem"%string :=
       lit <$>
       ["This poses significant risks to business operations and data security.";
        "Organizations must address this challenge proactively to maintain compliance.";
        "The impact on overall security posture is substantial and growing.";
        "Traditional approaches have proven insufficient in today's threat landscape."]%string;
     "solution"%string :=
       lit <$>
       ["Our solution delivers comprehensive protection across the entire attack surface.";
        "The platform integrates seamlessly with existing security infrastructure.";
        "Advanced analytics provide real-time insights and actionable intelligence.";
        "Automated responses minimize manual intervention and reduce response times."]%string;
     "feature"%string :=
       lit <$>
       ["This capability enhances operational efficiency while reducing complexity.";
        "Users benefit from streamlined workflows and improved productivity.";
        "Integration capabilities maximize value across the security ecosystem.";
        "Regular updates ensure continued effectiveness against emerging threats."]%string;
     "market"%string :=
       lit <$>
       ["Market trends indicate strong growth potential in the security sector.";
        "Industry adoption continues to accelerate as threats evolve.";
        "Regulatory requirements drive increased demand for comprehensive solutions.";
        "Digital transformation initiatives fuel expansion across all verticals."]%string ]}.

Section Enrichers.
Context `{Py : Runtime}.

Definition expand_advantage_content (text product_name : str) : str :=
  let clean_text := strip text in
  let clean_text :=
    if truthy product_name then replace PRODUCT_NAME product_name clean_text
    else clean_text in
  if length clean_text <? 200
  then add_expansions 200 advantage_expansions clean_text
  else clean_text.

Definition expand_audience_content (text product_name : str) : str :=
  let clean_text := strip text in
  let clean_text :=
    if truthy product_name then replace PRODUCT_NAME product_name clean_text
    else clean_text in
  if length clean_text <? 200
  then add_expansions 200 audience_expansions clean_text
  else clean_text.

Definition expand_market_content (text : str) : str :=
  let clean_text := strip text in
  if length clean_text <? 200
  then add_expansions 200 market_expansions clean_text
  else clean_text.

(* the second parameter, content_type, is never read *)
Definition expand_cta_content (text : str) : str :=
  let clean_text := strip text in
  if length clean_text <? 100
  then add_expansions 100 cta_expansions clean_text
  else clean_text.

Definition expand_content_intelligently (text : str) (content_type : string) : str :=
  if negb (truthy text) then text else
  let clean_text := strip text in
  if length clean_text <? 400
  then
    let content_expansions :=
      default (default [] (expansions !! "solution"%string))
              (expansions !! content_type) in
    add_expansions 400 content_expansions clean_text
  else clean_text.

Definition enhance_bullet_content (bullets : list str) (content_type : string)
    : list str :=
  (λ bullet,
     let clean_text := strip bullet in
     if length clean_text <? 75
     then expand_content_intelligently clean_text content_type
     else clean_text) <$> bullets.

End Enrichers.

(* the characters a list of expansions adds: each with its space *)
Fixpoint expansions_length (expansions : list str) : nat :=
  match expansions with
  | [] => 0
  | expansion :: expansions' => S (length expansion) + expansions_length expansions'
  end.

(** ** Deduplicator: the form in which an item is kept *)

Section KeptForm.
Context `{Py : Runtime}.

(* what deduplicate_content appends for an item it keeps: the copy of a
   record, or the cleaned text of a string, with the product name filled in *)
Definition kept_form (product_name : option str) (it : item) : item :=
  match it with
  | IDict d => IDict (subst_product product_name <$> d)
  | IStr s => IStr (subst_product product_name (clean_and_deduplicate_text s))
  end.

End KeptForm.

(** ** Problem slide: the bullets it shows ([create_problem_slide],
    [determine_content_type], [generate_additional_bullet]) *)

(* needle in s *)
Fixpoint contains (s needle : str) : bool :=
  match s with
  | [] => startswith [] needle
  | _ :: s' => startswith s needle || contains s' needle
  end.

(* the stock bullets of generate_additional_bullet, by content type *)
Definition additional_bullets : gmap string (list str) :=
  {[ "market"%string :=
       lit <$>
       ["Growing demand for integrated security solutions";
        "Increasing adoption of cloud-based security platforms";
        "Rising focus on regulatory compliance and data protection";
        "Expanding threat landscape driving security investments"]%string;
     "solution"%string :=
       lit <$>
       ["Advanced threat detection and response capabilities";
        "Seamless integration with existing security tools";
        "Automated security workflows and orchestration";
        "Real-time monitoring and alerting system"]%string;
     "challenge"%string :=
       lit <$>
       ["Need for comprehensive security visibility";
        "Resource constraints in security operations";
        "Complex compliance requirements management";
        "Rapid response to emerging threats"]%string;
     "general"%string :=
       lit <$>
       ["Enhanced operational efficiency and productivity";
        "Improved security posture and risk management";
        "Streamlined compliance and reporting processes";
        "Cost-effective security management"]%string ]}.

(* random.choice(bullets), for the number drawn *)
Definition random_choice (pick : nat) (bullets : list str) : str :=
  default [] (bullets !! (pick mod length bullets)).

(* additional_bullets.get(content_type, additional_bullets["general"]) *)
Definition stock_bullets (content_type : string) : list str :=
  default (default [] (additional_bullets !! "general"%string))
          (additional_bullets !! content_type).

Definition generate_additional_bullet (pick : nat) (content_type : string) : str :=
  random_choice pick (stock_bullets content_type).

(* the two replace calls that take the strong tags out of a point *)
Definition strip_strong (s : str) : str :=
  replace (lit "</strong>") [] (replace (lit "<strong>") [] s).

Section ProblemSlide.
Context `{Py : Runtime}.

(* any(word in combined_text for word in words) *)
Definition any_in (combined_text : str) (words : list string) : bool :=
  existsb (λ word, contains combined_text (lit word)) words.

Definition determine_content_type (bullets : list str) : string :=
  let combined_text := str_lower (join (lit " ") bullets) in
  if any_in combined_text ["market"; "growth"; "opportunity"; "size"]%string
  then "market"%string
  else if any_in combined_text ["solution"; "feature"; "platform"; "product"]%string
  then "solution"%string
  else if any_in combined_text ["challenge"; "need"; "require"; "face"]%string
  then "challenge"%string
  else "general"%string.

(* the points collected from the record: "pain_points" and "bullets" are
   lists of strings, "differentiators" a list of content items *)
Definition all_points (pain_points bullets : option (list str))
    (differentiators : option (list item)) : list str :=
  (strip_strong <$> default [] pain_points)
  ++ (strip_strong <$> default [] bullets)
  ++ (strip_strong <$> List.filter truthy (bullet_text <$> default [] differentiators)).

(* the loop that fills the list up to four bullets, on the numbers the
   random generator draws; None when the draws given are used up before
   the list is full *)
Fixpoint fill_bullets (picks : list nat) (clean_bullets : list str)
    : option (list str) :=
  if 4 <=? length clean_bullets then Some clean_bullets else
  match picks with
  | [] => None
  | pick :: picks' =>
      let new_bullet :=
        generate_additional_bullet pick (determine_content_type clean_bullets) in
      if bool_decide (get_comparison_key new_bullet
                      ∈ get_comparison_key <$> clean_bullets)
      then fill_bullets picks' clean_bullets
      else fill_bullets picks' (clean_bullets ++ [new_bullet])
  end.

Fixpoint truncate_each (max_chars max_words : nat) (bullets : list str)
    : res (list str) :=
  match bullets with
  | [] => Ok []
  | bullet :: bullets' =>
      match truncate_text_for_slide bullet (Some max_chars) (Some max_words) with
      | Raise e => Raise e
      | Ok t =>
          match truncate_each max_chars max_words bullets' with
          | Raise e => Raise e
          | Ok ts => Ok (t :: ts)
          end
      end
  end.

(* the texts create_problem_slide writes, one paragraph each, behind a
   bullet glyph; the title is read first, and a record without one raises
   KeyError *)
Definition problem_slide_bullets (title : option str)
    (pain_points bullets : option (list str))
    (differentiators : option (list item)) (style product_name : str)
    (picks : list nat) : option (res (list str)) :=
  match title with
  | None => Some (Raise KeyError)
  | Some _ =>
      let clean_bullets :=
        deduplicate_bullets
          (IStr <$> all_points pain_points bullets differentiators) in
      let clean_bullets :=
        if truthy product_name
        then replace PRODUCT_NAME product_name <$> clean_bullets
        else clean_bullets in
      match fill_bullets picks clean_bullets with
      | None => None
      | Some clean_bullets =>
          let executive := str_eqb style (lit "executive") in
          let max_bullets := if executive then 4 else 5 in
          let clean_bullets := take max_bullets clean_bullets in
          Some (truncate_each (if executive then 100 else 80)
                              (if executive then 20 else 15) clean_bullets)
      end
  end.

End ProblemSlide.

(** ** Title slide builder ([create_title_slide]) *)

Inductive name_error := UnboundLocalError (name : string).

(* Inches(1.0), in the units of the slide *)
Definition EMU_PER_INCH : Z := 914400.

(* what the builder puts on the slide: the two texts and the top of the
   accent line *)
Record title_slide := {
  title_text : field;
  subtitle_text : field;
  line_top : Z;
}.

(* subtitle_top is assigned in the branch of "subtitle" alone, and read
   after it in every case *)
Definition create_title_slide (content : gmap string field)
    : name_error + title_slide :=
  let title_top := (2 * EMU_PER_INCH)%Z in
  let title := default (FStr (lit "Presentation Title")) (content !! "title"%string) in
  match content !! "subtitle"%string with
  | Some subtitle =>
      let subtitle_top := (title_top + 2 * EMU_PER_INCH)%Z in
      inr {| title_text := title;
             subtitle_text := subtitle;
             line_top := (subtitle_top + 1 * EMU_PER_INCH)%Z |}
  | None => inl (UnboundLocalError "subtitle_top")
  end.

(* a bundle whose title slide has a title and nothing else *)
Definition bundle_with_bare_title : gmap string (gmap string field) :=
  {[ "title_slide"%string := {[ "title"%string := FStr (lit "Acme") ]};
     "cta_slide"%string := {[ "title"%string := FStr (lit "Talk to us") ]} ]}.

(** ** The build loop of [create_presentation] *)

Section BuildDeck.
Context {slide : Type} (create_team_slide : slide_record → option slide).

(* the builders other than create_title_slide and the team wrapper draw with
   python-pptx, fetch images and call into ppt_generator_additions: a call
   of one of them returns or raises *)
Context (builder_returns : builder → slide_record → bool).

(* one builder call of the loop: None when the call raises, otherwise the
   team slide it has added to the deck, if any; the title builder raises on
   a record without "subtitle", the team wrapper never raises *)
Definition call_builder (ctx_include_team_slide : bool) (b : builder)
    (slide_data : slide_record) : option (option slide) :=
  match b with
  | BTitle =>
      match create_title_slide (FStr <$> text_fields slide_data) with
      | inl _ => None
      | inr _ => Some None
      end
  | BTeam =>
      Some (create_team_slide_wrapper create_team_slide slide_data
              ctx_include_team_slide)
  | _ => if builder_returns b slide_data then Some None else None
  end.

(* the loop has no handler of its own: the calls are made in order and the
   first one that raises ends the build; create_presentation prints the
   error and raises it again, so that no deck is returned (None) *)
Fixpoint build_loop (ctx_include_team_slide : bool)
    (calls : list (builder * slide_record)) : option (list slide) :=
  match calls with
  | [] => Some []
  | (b, slide_data) :: calls' =>
      match call_builder ctx_include_team_slide b slide_data with
      | None => None
      | Some added =>
          match build_loop ctx_include_team_slide calls' with
          | None => None
          | Some deck => Some (option_list added ++ deck)
          end
      end
  end.

(* the team slides of the deck a build returns. The bundle is taken as the
   loop finds it, after the merge of the persona defaults, which changes
   neither its keys nor its title and team records; a call served from the
   session's ppt_cache returns the deck of an earlier build of the same
   input and runs no loop *)
Definition team_slides_built (content : gmap string slide_record) (persona : str)
    (tc : team_config) (custom_slide_order : option (list string))
    : option (list slide) :=
  build_loop (include_team_slide tc)
    (build_calls content persona tc custom_slide_order).

(* the claim, as the specification words it, on the session roster: the
   flag, a roster that is not empty, and an entry whose name and title are
   both outside the denylist *)
Definition team_slide_claim (content : gmap string slide_record) (persona : str)
    (tc : team_config) (custom_slide_order : option (list string)) : Prop :=
  ∀ deck, team_slides_built content persona tc custom_slide_order = Some deck →
    (deck ≠ [] ↔
     include_team_slide tc = true ∧ team_members tc ≠ [] ∧
     existsb entry_non_generic (team_members tc) = true).

End BuildDeck.

(* a title record that create_title_slide accepts *)
Definition titled_record : slide_record :=
  {| text_fields := {[ "title"%string := lit "Acme";
                       "subtitle"%string := lit "Seed round" ]};
     roster := None |}.

(* a bundle with a title slide and nothing else *)
Definition bundle_with_title : gmap string slide_record :=
  {[ "title_slide"%string := titled_record ]}.

(** * Properties *)

(** ** Sentence completion on text made of periods and spaces *)

(** C10 (code defect): on a text of periods only, stripping leaves nothing
    and the inspection of the last character raises IndexError, both in the
    repair itself and in the Truncator that calls it. *)
Theorem ensure_complete_sentences_raises_on_periods :
  ensure_complete_sentences (lit "...") = Raise IndexError ∧
  truncate_text_for_slide (lit "...") None None = Raise IndexError.
Proof. split; vm_compute; reflexivity. Qed.

(** ** Deduplicator *)

(** C1 (code defect): when a later item has the key of an earlier one and a
    longer cleaned text, deduplicate_content appends it next to the earlier
    one, so the output holds two elements with one non-empty key. *)
Theorem deduplicate_content_keeps_both_variants :
  let out := deduplicate_content
               [IStr (lit "deployment"); IStr (lit "the deployment")] None in
  out = [IStr (lit "deployment"); IStr (lit "the deployment")] ∧
  item_key (IStr (lit "deployment")) = lit "deployment" ∧
  item_key (IStr (lit "the deployment")) = lit "deployment" ∧
  ¬ keys_distinct item_key out.
Proof.
  assert (O : deduplicate_content
               [IStr (lit "deployment"); IStr (lit "the deployment")] None
             = [IStr (lit "deployment"); IStr (lit "the deployment")])
    by (vm_compute; reflexivity).
  assert (K1 : item_key (IStr (lit "deployment")) = lit "deployment")
    by (vm_compute; reflexivity).
  assert (K2 : item_key (IStr (lit "the deployment")) = lit "deployment")
    by (vm_compute; reflexivity).
  cbv zeta. rewrite O. repeat split; try done.
  intros D. specialize (D 0 1 _ _ ltac:(done) eq_refl eq_refl).
  rewrite K1, K2 in D. by specialize (D eq_refl).
Qed.

(* the scenario of the specification: one bullet is left, without its period *)
Example deduplicate_manual_deployment :
  deduplicate_bullets
    [IStr (lit "Manual deployment."); IStr (lit "manual deployment")]
  = [lit "Manual deployment"] ∧
  deduplicate_content
    [IStr (lit "Manual deployment."); IStr (lit "manual deployment")] None
  = [IStr (lit "Manual deployment")].
Proof. split; vm_compute; reflexivity. Qed.

(** ** Slide order planner *)

Section PlannerFacts.
Context {V : Type}.
Implicit Types (content : gmap string V) (persona : str) (tc : team_config).

Lemma has_key_true content k : has_key content k = true ↔ is_Some (content !! k).
Proof. unfold has_key. by rewrite bool_decide_eq_true. Qed.

Lemma persona_slides_no_cta persona : "cta_slide"%string ∉ persona_slides persona.
Proof.
  unfold persona_slides, persona_groups.
  destruct (str_eqb persona (lit "technical"));
    [|destruct (str_eqb persona (lit "executive"))];
    simpl; rewrite !not_elem_of_cons; repeat split; try done;
    apply not_elem_of_nil.
Qed.

Lemma persona_slides_no_team persona : "team_slide"%string ∉ persona_slides persona.
Proof.
  unfold persona_slides, persona_groups.
  destruct (str_eqb persona (lit "technical"));
    [|destruct (str_eqb persona (lit "executive"))];
    simpl; rewrite !not_elem_of_cons; repeat split; try done;
    apply not_elem_of_nil.
Qed.

Lemma elem_of_List_filter {A} (f : A → bool) (l : list A) x :
  x ∈ List.filter f l ↔ x ∈ l ∧ f x = true.
Proof. rewrite !list_elem_of_In. apply filter_In. Qed.

(* the default order, step by step *)
Lemma default_slide_order_unfold content persona tc :
  default_slide_order content persona tc =
  let base := List.filter (has_key content) (persona_slides persona) in
  let with_team :=
    if include_team_slide tc && nonempty (team_members tc)
    then base ++ ["team_slide"%string] else base in
  if has_key content "cta_slide" then with_team ++ ["cta_slide"%string]
  else with_team.
Proof.
  unfold default_slide_order, persona_slides.
  destruct (persona_groups persona) as [[core supporting] optional] eqn:G.
  cbv zeta.
  set (base := List.filter (has_key content) (core ++ supporting ++ optional)).
  set (with_team := if include_team_slide tc && nonempty (team_members tc)
                    then base ++ ["team_slide"%string] else base).
  destruct (has_key content "cta_slide"); [|done].
  rewrite bool_decide_eq_false_2; [done|].
  assert (Hb : "cta_slide"%string ∉ base).
  { unfold base. rewrite elem_of_List_filter. intros [Hin _].
    pose proof (persona_slides_no_cta persona) as Hn.
    unfold persona_slides in Hn. rewrite G in Hn. done. }
  unfold with_team.
  destruct (include_team_slide tc && nonempty (team_members tc)); [|done].
  rewrite elem_of_app, list_elem_of_singleton. by intros [?|?].
Qed.

(* "team_slide" is in the default order exactly when the team is configured *)
Lemma team_slide_in_default_order content persona tc :
  "team_slide"%string ∈ plan_slide_order content persona tc None ↔
  include_team_slide tc = true ∧ team_members tc ≠ [].
Proof.
  unfold plan_slide_order. rewrite default_slide_order_unfold. cbv zeta.
  set (base := List.filter (has_key content) (persona_slides persona)).
  assert (Hnb : "team_slide"%string ∉ base).
  { intros [Hin _]%elem_of_List_filter. by apply (persona_slides_no_team persona). }
  assert (Hne : nonempty (team_members tc) = true ↔ team_members tc ≠ []).
  { by destruct (team_members tc). }
  rewrite <- Hne, <- andb_true_iff.
  destruct (include_team_slide tc && nonempty (team_members tc));
    destruct (has_key content "cta_slide");
    rewrite ?elem_of_app, ?list_elem_of_singleton; split; try done;
    intuition (try done).
Qed.

(** C3 (amended): with no custom order, every entry of the planned order
    is a key of the content bundle or is "team_slide", which is appended
    exactly when the inclusion flag is set and the session roster is not
    empty, whether or not the bundle has that key; and when "cta_slide"
    is a key of the bundle it is the last entry. *)
Theorem default_order_keys_and_cta_last content persona tc :
  let order := plan_slide_order content persona tc None in
  (∀ t, t ∈ order → is_Some (content !! t) ∨ t = "team_slide"%string) ∧
  ("team_slide"%string ∈ order ↔
     include_team_slide tc = true ∧ team_members tc ≠ []) ∧
  (is_Some (content !! "cta_slide"%string) → last order = Some "cta_slide"%string).
Proof.
  cbv zeta. pose proof (team_slide_in_default_order content persona tc) as Hteam.
  revert Hteam.
  unfold plan_slide_order. rewrite default_slide_order_unfold. cbv zeta.
  intros Hteam.
  set (base := List.filter (has_key content) (persona_slides persona)).
  assert (Hbase : ∀ t, t ∈ base → is_Some (content !! t) ∧ t ≠ "team_slide"%string).
  { intros t [Hin Hk]%elem_of_List_filter. split; [by apply has_key_true|].
    intros ->. by apply (persona_slides_no_team persona). }
  split; [|split].
  - intros t Ht.
    destruct (has_key content "cta_slide") eqn:Hc.
    + apply elem_of_app in Ht as [Ht|Ht].
      * destruct (include_team_slide tc && nonempty (team_members tc)).
        -- apply elem_of_app in Ht as [Ht|Ht]; [left; by apply Hbase|].
           right. by apply list_elem_of_singleton in Ht.
        -- left. by apply Hbase.
      * apply list_elem_of_singleton in Ht as ->. left. by apply has_key_true.
    + destruct (include_team_slide tc && nonempty (team_members tc)).
      * apply elem_of_app in Ht as [Ht|Ht]; [left; by apply Hbase|].
        right. by apply list_elem_of_singleton in Ht.
      * left. by apply Hbase.
  - done.
  - intros Hc%has_key_true. rewrite Hc. apply last_snoc.
Qed.
End PlannerFacts.

(** C3 (as stated) fails: with a configured team and a bundle that has no
    team record the planned order is title, team, call to action, and
    "team_slide" is no key of the bundle. *)
Lemma planner_claim_fails_for_team_slide :
  ¬ planner_claim bundle_without_team (lit "business")
      {| include_team_slide := true; team_members := [engineer] |}.
Proof.
  intros [Hkeys _].
  assert (Ho : plan_slide_order bundle_without_team (lit "business")
                 {| include_team_slide := true; team_members := [engineer] |} None
               = ["title_slide"; "team_slide"; "cta_slide"]%string)
    by (vm_compute; reflexivity).
  cbv zeta in Hkeys. rewrite Ho in Hkeys.
  destruct (Hkeys "team_slide"%string) as [? Hx].
  - apply list_elem_of_further, list_elem_of_here.
  - vm_compute in Hx. done.
Qed.

(** ** Team slide *)

Section TeamSlideFacts.
Context {slide : Type} (create_team_slide : slide_record → option slide).
Context (builder_returns : builder → slide_record → bool).
Implicit Types (content : gmap string slide_record) (tc : team_config).









End TeamSlideFacts.


(* the same with a team record in the bundle, when the one entry of the
   roster has an empty name: outside the denylist, and still not real *)
Example team_slide_claim_fails_for_empty_name :
  ¬ team_slide_claim (λ _, Some ()) (λ _ _, true)
      (<["team_slide"%string := team_record [nameless]]> bundle_with_title)
      (lit "business")
      {| include_team_slide := true; team_members := [nameless] |} None.
Proof.
  unfold team_slide_claim. intros Hclaim.
  destruct (Hclaim []) as [_ Hback]; [vm_compute; reflexivity|].
  apply Hback; [|done].
  repeat split; done.
Qed.

(* the scenario of the specification: the roster John Doe, CEO *)
Example john_doe_gets_no_team_slide :
  team_slides_built (λ _, Some ()) (λ _ _, true)
    (<["team_slide"%string := team_record [john_doe]]> bundle_with_title)
    (lit "business")
    {| include_team_slide := true; team_members := [john_doe] |} None = Some [] ∧
  plan_slide_order
    (<["team_slide"%string := team_record [john_doe]]> bundle_with_title)
    (lit "business")
    {| include_team_slide := true; team_members := [john_doe] |} None
  = ["title_slide"; "team_slide"]%string.
Proof. split; vm_compute; reflexivity. Qed.

(* a title record without a subtitle ends the build at the first call, and
   no deck is returned, whatever the team *)
Example bare_title_aborts_the_build :
  team_slides_built (λ _, Some ()) (λ _ _, true)
    (<["team_slide"%string := team_record [engineer]]> bundle_without_team)
    (lit "business")
    {| include_team_slide := true; team_members := [engineer] |} None = None.
Proof. vm_compute. reflexivity. Qed.

(** ** Advantage slide builder *)

(** C9 (code defect): the builder binds [bullets] to the record's own
    "differentiators" list and extends it in place, so the field holds three
    more entries once the builder has returned. *)
Theorem create_advantage_slide_extends_differentiators :
  let store' := (create_advantage_slide adv_content [] adv_store).1 in
  field_value adv_content adv_store "differentiators"
    = Some (inr [IStr (lit "Fast setup")]) ∧
  field_value adv_content store' "differentiators"
    = Some (inr ([IStr (lit "Fast setup")] ++ additional_advantages)) ∧
  field_value adv_content store' "differentiators"
    ≠ field_value adv_content adv_store "differentiators".
Proof.
  assert (H1 : field_value adv_content adv_store "differentiators"
               = Some (inr [IStr (lit "Fast setup")])) by (vm_compute; reflexivity).
  assert (H2 : field_value adv_content
                 (create_advantage_slide adv_content [] adv_store).1 "differentiators"
               = Some (inr ([IStr (lit "Fast setup")] ++ additional_advantages)))
    by (vm_compute; reflexivity).
  cbv zeta. rewrite H1, H2. repeat split. discriminate.
Qed.

(** ** Image cache layer *)

Section ImageCacheFacts.
Context {bytes hash : Type} `{Countable hash}.
Context (md5 : bytes → hash).
Context (fetch_image_for_slide : nat → string → bool → option bytes).

Local Abbreviation sess := (@session bytes hash _ _).
Local Abbreviation fresh_result := (fresh_result md5).
Local Abbreviation attempts_collide := (attempts_collide md5 fetch_image_for_slide).
Local Abbreviation fetch_attempts := (fetch_attempts md5 fetch_image_for_slide).
Local Abbreviation fetch_unique_image := (fetch_unique_image md5 fetch_image_for_slide).
Local Abbreviation fetch_image_with_cache :=
  (fetch_image_with_cache md5 fetch_image_for_slide).
Local Abbreviation fetch_all := (fetch_all md5 fetch_image_for_slide).

Ltac run_bind := unfold mbind, M_bind, mret, M_ret, is_used, mark_used,
  cache_store, cache_lookup, fetch; simpl.

Lemma fetch_attempts_fresh n slide_type up s :
  fresh_result s (fetch_attempts n slide_type up s).1
    (fetch_attempts n slide_type up s).2.
Proof.
  revert s. induction n as [|n IH]; intros s; simpl.
  - by split.
  - run_bind.
    destruct (fetch_image_for_slide (fetches s) slide_type up) as [img|]; simpl;
      [|by split].
    case_bool_decide as Hused; simpl.
    + specialize (IH {| used_images := used_images s;
                        original_images_cache := original_images_cache s;
                        fetches := S (fetches s) |}).
      exact IH.
    + split; [set_solver|]. split; [done|set_solver].
Qed.

Lemma fetch_image_with_cache_fresh slide_type up s :
  fresh_result s (fetch_image_with_cache slide_type true up s).1
    (fetch_image_with_cache slide_type true up s).2.
Proof.
  unfold fetch_image_with_cache, fetch_unique_image. run_bind.
  destruct (match original_images_cache s with
            | Some cache => cache !! cache_key slide_type
            | None => None
            end) as [cached|]; simpl.
  - case_bool_decide as Hused; simpl.
    + exact (fetch_attempts_fresh 3 slide_type up s).
    + split; [set_solver|]. split; [done|set_solver].
  - exact (fetch_attempts_fresh 3 slide_type up s).
Qed.

Lemma bind_run {A B} (m : M (hash := hash) (bytes := bytes) A)
    (f : A → M (hash := hash) (bytes := bytes) B) (s : sess) :
  (m ≫= f) s = f (m s).1 (m s).2.
Proof. unfold mbind, M_bind. by destruct (m s). Qed.

Lemma fetch_all_cons b slide_type up rest :
  fetch_all b ((slide_type, up) :: rest) =
  (r ← fetch_image_with_cache slide_type b up;
   rs ← fetch_all b rest;
   mret (r :: rs)).
Proof. reflexivity. Qed.

Lemma fetch_all_fresh calls s :
  let r := fetch_all true calls s in
  used_images s ⊆ used_images r.2 ∧
  NoDup (md5 <$> omap id r.1) ∧
  ∀ img, Some img ∈ r.1 → (md5 img ∉ used_images s) ∧ md5 img ∈ used_images r.2.
Proof.
  revert s. induction calls as [|[slide_type up] rest IH]; intros s.
  - split; [done|]. split; [constructor|]. intros img Hin. by apply elem_of_nil in Hin.
  - cbv zeta. rewrite fetch_all_cons, !bind_run.
    pose proof (fetch_image_with_cache_fresh slide_type up s) as [Hsub Hr].
    destruct (fetch_image_with_cache slide_type true up s) as [r s1]. simpl in *.
    specialize (IH s1). cbv zeta in IH.
    destruct (fetch_all true rest s1) as [rs s2]. simpl in *.
    destruct IH as (Hsub2 & Hnd & Hall).
    split; [by etrans|]. split.
    + destruct r as [img|]; simpl; [|done].
      constructor; [|done].
      intros Hin. apply list_elem_of_fmap in Hin as (img' & Heq & Hin).
      apply list_elem_of_omap in Hin as (o & Hin & Ho). simpl in Ho. subst o.
      apply Hall in Hin as [Hnot _]. destruct Hr as [_ Hin1].
      rewrite Heq in Hin1. done.
    + intros img [Heq|Hin]%elem_of_cons.
      * subst r. destruct Hr as [Hn Hi]. split; [done|by apply Hsub2].
      * apply Hall in Hin as [Hn Hi]. split; [|done].
        intros Hin'. apply Hn. by apply Hsub.
Qed.

Lemma fetch_attempts_collide n slide_type up s :
  attempts_collide n slide_type up s →
  (fetch_attempts n slide_type up s).1 = None.
Proof.
  revert s. induction n as [|n IH]; intros s Hc; simpl; [done|].
  run_bind.
  pose proof (Hc 0 ltac:(lia)) as H0. rewrite Nat.add_0_r in H0.
  destruct (fetch_image_for_slide (fetches s) slide_type up) as [img|]; simpl;
    [|done].
  rewrite bool_decide_eq_true_2 by done. simpl.
  apply IH. intros i Hi. simpl.
  specialize (Hc (S i) ltac:(lia)).
  by replace (fetches s + S i) with (S (fetches s + i)) in Hc by lia.
Qed.

(** C4: in a new-presentation build, whatever the image service answers
    and whatever the cache holds, the images returned by any sequence of
    calls on the shared state have pairwise distinct hashes, none of them
    in use before the build; and a call whose cached image (if any) is in
    use and whose three fetches all collide returns no image. *)
Theorem image_layer_never_repeats (calls : list (string * bool))
    (s : sess) :
  (let r := fetch_all true calls s in
   NoDup (md5 <$> omap id r.1) ∧
   ∀ img, Some img ∈ r.1 → (md5 img ∉ used_images s) ∧ md5 img ∈ used_images r.2) ∧
  (∀ slide_type up,
     match cached_image slide_type s with
     | Some img => md5 img ∈ used_images s
     | None => True
     end →
     attempts_collide 3 slide_type up s →
     (fetch_image_with_cache slide_type true up s).1 = None).
Proof.
  split.
  - pose proof (fetch_all_fresh calls s) as (_ & ? & ?). by split.
  - intros slide_type up Hcached Hc.
    unfold fetch_image_with_cache, fetch_unique_image. run_bind.
    unfold cached_image in Hcached.
    destruct (match original_images_cache s with
              | Some cache => cache !! cache_key slide_type
              | None => None
              end) as [cached|]; simpl.
    + rewrite bool_decide_eq_true_2 by done. simpl.
      by apply (fetch_attempts_collide 3).
    + by apply (fetch_attempts_collide 3).
Qed.
End ImageCacheFacts.

(* three slides in a row: the first gets the image, the second meets it three
   times and gets none, the third gets the next one *)
Example image_layer_run :
  (fetch_all id same_image_four_times true
     [("problem", false); ("solution", false); ("advantage", false)]%string
     fresh_session).1
  = [Some 7; None; Some 8].
Proof. vm_compute. reflexivity. Qed.

(** ** String methods: stripping *)

Section StripFacts.
Context (P : char → bool).

Lemma rstrip_by_split s :
  ∃ u, s = rstrip_by P s ++ u ∧ forallb P u = true.
Proof.
  induction s as [|c s (u & Hs & Hu)]; simpl.
  - by exists [].
  - destruct (rstrip_by P s) as [|d r] eqn:E.
    + destruct (P c) eqn:Hc.
      * exists (c :: u). simpl in *. subst s. by rewrite Hc.
      * exists u. simpl in *. by subst s.
    + exists u. split; [|done]. simpl. by f_equal.
Qed.

Lemma rstrip_by_length s : length (rstrip_by P s) ≤ length s.
Proof.
  destruct (rstrip_by_split s) as (u & Hs & _).
  rewrite Hs at 2. rewrite length_app. lia.
Qed.

Lemma rstrip_by_last s c : last (rstrip_by P s) = Some c → P c = false.
Proof.
  induction s as [|d s IH]; simpl; [done|].
  destruct (rstrip_by P s) as [|e r] eqn:E.
  - destruct (P d) eqn:Hd; simpl; [done|]. by intros [= <-].
  - rewrite last_cons. destruct (last (e :: r)) eqn:L.
    + intros [= <-]. by apply IH.
    + rewrite last_cons in L. by destruct (last r).
Qed.

Lemma rstrip_by_app t u :
  forallb P u = true → rstrip_by P (t ++ u) = rstrip_by P t.
Proof.
  intros Hu. induction t as [|c t IH]; simpl.
  - induction u as [|d u IHu]; simpl; [done|].
    simpl in Hu. apply andb_prop in Hu as [Hd Hu].
    rewrite (IHu Hu). by rewrite Hd.
  - by rewrite IH.
Qed.

Lemma rstrip_by_snoc t c : P c = false → rstrip_by P (t ++ [c]) = t ++ [c].
Proof.
  intros Hc. induction t as [|d t IH]; simpl.
  - by rewrite Hc.
  - rewrite IH. by destruct t.
Qed.

Lemma rstrip_by_id s :
  (∀ c, last s = Some c → P c = false) → rstrip_by P s = s.
Proof.
  destruct s as [|c s _] using rev_ind; [done|].
  rewrite last_snoc. intros Hc. apply rstrip_by_snoc. by apply Hc.
Qed.

Lemma rstrip_by_idemp s : rstrip_by P (rstrip_by P s) = rstrip_by P s.
Proof. apply rstrip_by_id. apply rstrip_by_last. Qed.

Lemma lstrip_by_length s : length (lstrip_by P s) ≤ length s.
Proof.
  induction s as [|c s IH]; simpl; [done|].
  destruct (P c); simpl; lia.
Qed.
End StripFacts.

Lemma join_cons sep w ws :
  join sep (w :: ws) = match ws with [] => w | _ => w ++ sep ++ join sep ws end.
Proof. done. Qed.

(** ** String methods: words *)

Section SplitFacts.
Context `{Py : Runtime}.

Lemma strip_length s : length (strip s) ≤ length s.
Proof.
  unfold strip. etrans; [apply rstrip_by_length|apply lstrip_by_length].
Qed.

Lemma push_length w ws : length (push w ws) ≤ S (length ws).
Proof. destruct w; simpl; lia. Qed.

Lemma split_nil : split [] = [].
Proof. done. Qed.

Lemma split_cons_space c s : isspace c = true → split (c :: s) = split s.
Proof. intros Hc. unfold split. simpl. by rewrite Hc. Qed.

Lemma split_go_cons_space c s :
  isspace c = true → split_go (c :: s) = ([], split s).
Proof. intros Hc. simpl. by rewrite Hc. Qed.

Lemma split_go_cons_word c s :
  isspace c = false → split_go (c :: s) = (c :: (split_go s).1, (split_go s).2).
Proof. intros Hc. simpl. by rewrite Hc. Qed.

(* a run of characters that are not white space joins the head run *)
Lemma split_go_app_word u s :
  forallb notspace u = true →
  split_go (u ++ s) = (u ++ (split_go s).1, (split_go s).2).
Proof.
  induction u as [|c u IH]; simpl; intros Hu.
  - by destruct (split_go s).
  - apply andb_prop in Hu as [Hc Hu]. apply negb_true_iff in Hc.
    rewrite Hc, (IH Hu). done.
Qed.

Lemma split_word w : is_word w → split w = [w].
Proof.
  intros [Hne Hw]. unfold split.
  rewrite <- (app_nil_r w) at 1 2. rewrite (split_go_app_word _ _ Hw). simpl.
  rewrite app_nil_r. by destruct w.
Qed.

Lemma split_app_word_space w c s :
  is_word w → isspace c = true → split (w ++ c :: s) = w :: split s.
Proof.
  intros [Hne Hw] Hc. unfold split at 1.
  rewrite (split_go_app_word _ _ Hw), (split_go_cons_space _ _ Hc). simpl.
  rewrite app_nil_r. by destruct w.
Qed.

Lemma push_app w ws ws' : push w (ws ++ ws') = push w ws ++ ws'.
Proof. by destruct w. Qed.

(* white space between two texts separates their words *)
Lemma split_go_app_space a c b :
  isspace c = true →
  split_go (a ++ c :: b) = ((split_go a).1, (split_go a).2 ++ split b).
Proof.
  intros Hc. induction a as [|d a IH].
  - simpl. by rewrite Hc.
  - cbn [app split_go]. rewrite IH. cbn [fst snd].
    destruct (isspace d); [|done]. by rewrite push_app.
Qed.

Lemma split_app_space a c b :
  isspace c = true → split (a ++ c :: b) = split a ++ split b.
Proof.
  intros Hc. unfold split at 1 2.
  rewrite (split_go_app_space _ _ _ Hc). cbn [fst snd]. apply push_app.
Qed.

Lemma push_is_word w ws :
  forallb notspace w = true → Forall is_word ws → Forall is_word (push w ws).
Proof.
  intros Hw Hws. destruct w as [|c w]; [done|].
  constructor; [|done]. by split.
Qed.

Lemma split_go_is_word s :
  forallb notspace (split_go s).1 = true ∧ Forall is_word (split_go s).2.
Proof.
  induction s as [|c s [IH1 IH2]]; [by split|].
  cbn [split_go]. destruct (isspace c) eqn:Hc; cbn [fst snd].
  - split; [done|]. by apply push_is_word.
  - split; [|done]. cbn [forallb]. unfold notspace at 1. by rewrite Hc.
Qed.

Lemma split_is_word s : Forall is_word (split s).
Proof.
  destruct (split_go_is_word s). by apply push_is_word.
Qed.

Lemma isspace_space : isspace 32%N = true.
Proof. by rewrite isspace_ascii. Qed.

Lemma split_join ws : Forall is_word ws → split (join (lit " ") ws) = ws.
Proof.
  induction 1 as [|w ws Hw Hws IH]; [done|].
  rewrite join_cons. destruct ws as [|w' ws'].
  - by apply split_word.
  - change (lit " " ++ ?x) with (32%N :: x).
    rewrite (split_app_word_space _ _ _ Hw isspace_space). by rewrite IH.
Qed.

Lemma split_join_split s : split (join (lit " ") (split s)) = split s.
Proof. apply split_join, split_is_word. Qed.

Lemma split_lstrip s : split (lstrip_by isspace s) = split s.
Proof.
  induction s as [|c s IH]; simpl; [done|].
  destruct (isspace c) eqn:Hc; [|done].
  by rewrite IH, split_cons_space.
Qed.

Lemma split_all_space u : forallb isspace u = true → split u = [].
Proof.
  induction u as [|c u IH]; simpl; [done|].
  intros [Hc Hu]%andb_prop. rewrite split_cons_space by done. by apply IH.
Qed.

Lemma split_rstrip s : split (rstrip_by isspace s) = split s.
Proof.
  destruct (rstrip_by_split isspace s) as (u & Hs & Hu).
  rewrite Hs at 2. destruct u as [|c u]; [by rewrite app_nil_r|].
  simpl in Hu. apply andb_prop in Hu as [Hc Hu].
  rewrite split_app_space by done. rewrite (split_all_space u Hu).
  by rewrite app_nil_r.
Qed.

Lemma split_strip s : split (strip s) = split s.
Proof. unfold strip. by rewrite split_rstrip, split_lstrip. Qed.

(* a prefix has no more words than the whole *)
Lemma split_take_length k s : length (split (take k s)) ≤ length (split s).
Proof.
  assert (G : ∀ k, length (split_go (take k s)).2 ≤ length (split_go s).2 ∧
                   length (split (take k s)) ≤ length (split s)).
  { clear k. induction s as [|c s IH]; intros k.
    - by rewrite take_nil.
    - destruct k as [|k]; [simpl; split; lia|].
      destruct (IH k) as [IH1 IH2]. unfold split in *. simpl.
      destruct (isspace c); simpl; [done|]. split; [done|lia]. }
  apply G.
Qed.

Lemma split_nonempty s c :
  c ∈ s → isspace c = false → split s ≠ [].
Proof.
  induction s as [|d s IH]; [by intros ?%elem_of_nil|].
  intros [->|Hin]%elem_of_cons Hc.
  - unfold split. simpl. by rewrite Hc.
  - unfold split in *. simpl. destruct (isspace d); simpl; [by apply IH|done].
Qed.
End SplitFacts.

(** ** Sentence completion: the final character *)

Lemma endings_end_with_period p complete :
  (p, complete) ∈ endings → last complete = Some 46%N.
Proof.
  assert (Hall : Forall (λ pc : str * str, last pc.2 = Some 46%N) endings).
  { vm_compute. repeat constructor. }
  intros Hin. by apply (proj1 (Forall_forall _ _) Hall (p, complete)).
Qed.

Section CompletionFacts.
Context `{Py : Runtime}.

Lemma complete_last_word_cases es last_word text :
  complete_last_word es last_word text = text ∨
  ∃ p complete, (p, complete) ∈ es ∧
    complete_last_word es last_word text =
      join (lit " ") (removelast (split text)) ++ lit " " ++ complete.
Proof.
  induction es as [|[p complete] es IH]; simpl; [by left|].
  destruct (startswith last_word p
            && negb (str_eqb last_word (first_word_lower complete))).
  - right. exists p, complete. split; [apply list_elem_of_here|done].
  - destruct IH as [IH|(p' & c' & Hin & IH)]; [by left|].
    right. exists p', c'. split; [by apply list_elem_of_further|done].
Qed.

Lemma rstrip_dots_after_rstrip text :
  rstrip_chars (lit "...") (rstrip_chars (lit ". ") text)
  = rstrip_chars (lit ". ") text.
Proof.
  apply rstrip_by_id. intros c Hc.
  apply (rstrip_by_last (λ c, inb c (lit ". "))) in Hc.
  unfold inb in *. cbn [lit list_ascii_of_string fmap list_fmap existsb] in *.
  change (N_of_ascii ".") with 46%N in *.
  apply orb_false_iff in Hc as [Hc _]. by rewrite Hc.
Qed.

Lemma isspace_sentence_end c : inb c (lit ".!?") = true → isspace c = false.
Proof.
  unfold inb. cbn [lit list_ascii_of_string fmap list_fmap existsb].
  rewrite !orb_true_iff, !N.eqb_eq.
  intros [->|[->|[->|?]]]; [| | |done];
    by rewrite isspace_ascii by (vm_compute; reflexivity).
Qed.

(** C7 (amended): when the text left by stripping trailing periods and
    spaces ends in an alphanumeric character or in '!' or '?', the repair
    returns a string whose final character is '.', '!' or '?'; it is a
    period whenever the stripped text ends alphanumeric. *)
Theorem completion_ends_sentence text c :
  last (rstrip_chars (lit ". ") text) = Some c →
  isalnum c = true ∨ c = 33%N ∨ c = 63%N →
  ∃ out, ensure_complete_sentences text = Ok out ∧
         ends_sentence out = true ∧
         (isalnum c = true → last out = Some 46%N).
Proof.
  intros Hlast Hc. unfold ensure_complete_sentences.
  destruct text as [|c0 text0]; [done|]. cbn [truthy negb].
  rewrite rstrip_dots_after_rstrip, Hlast.
  set (t := rstrip_chars (lit ". ") (c0 :: text0)) in *.
  set (text1 := if isalnum c then t ++ lit "." else t).
  assert (Hend : ends_sentence text1 = true ∧
                 (isalnum c = true → last text1 = Some 46%N)).
  { unfold text1, ends_sentence. destruct (isalnum c) eqn:Ha.
    - change (lit ".") with [46%N]. by rewrite last_snoc.
    - rewrite Hlast. split; [|done].
      destruct Hc as [?|[->| ->]]; done. }
  destruct Hend as [Hend Hdot].
  assert (Hw : split text1 ≠ []).
  { unfold ends_sentence in Hend.
    destruct (last text1) as [c1|] eqn:L1; [|done].
    apply (split_nonempty _ c1); [|by apply isspace_sentence_end].
    apply last_Some in L1 as [l' ->]. apply elem_of_app. right.
    apply list_elem_of_here. }
  destruct (last (split text1)) as [w|] eqn:Lw.
  2:{ apply last_None in Lw. done. }
  eexists. split; [done|].
  destruct (complete_last_word_cases endings (str_lower w) text1)
    as [->|(p & complete & Hin & ->)]; [done|].
  apply endings_end_with_period in Hin.
  assert (Hl : last (join (lit " ") (removelast (split text1)) ++ lit " " ++ complete)
               = Some 46%N).
  { rewrite last_app, (last_app (lit " ") complete), Hin. done. }
  unfold ends_sentence. rewrite Hl. done.
Qed.
End CompletionFacts.

(** C7 (as stated) fails: a text ending in a closing bracket comes back
    unchanged. *)
Lemma completion_claim_fails_on_bracket : ¬ completion_claim (lit "hello)").
Proof.
  intros Hc. destruct Hc as (out & Hout & Hend); [done|].
  vm_compute in Hout. injection Hout as <-. vm_compute in Hend. done.
Qed.

Lemma completion_ends_sentence_witness :
  last (rstrip_chars (lit ". ") (lit "Hello world...")) = Some 100%N ∧
  (isalnum 100%N = true ∨ 100%N = 33%N ∨ 100%N = 63%N) ∧
  ∃ out, ensure_complete_sentences (lit "Hello world...") = Ok out ∧
         ends_sentence out = true ∧
         (isalnum 100%N = true → last out = Some 46%N).
Proof.
  split; [reflexivity|]. split; [left; reflexivity|].
  apply (completion_ends_sentence (lit "Hello world...") 100%N);
    [reflexivity|left; reflexivity].
Defined.

(** ** Truncator: the limits *)

Lemma rfind_go_bounds c s i j :
  rfind_go c s i = Some j → i ≤ j < i + length s.
Proof.
  revert i. induction s as [|d s IH]; intros i; simpl; [done|].
  destruct (rfind_go c s (S i)) as [j'|] eqn:E.
  - intros [= <-]. apply IH in E. lia.
  - destruct (d =? c)%N; [|done]. intros [= <-]. lia.
Qed.

Lemma rfind_bounds c s e : (-1 ≤ rfind c s e < Z.of_nat e)%Z.
Proof.
  unfold rfind. destruct (rfind_go c (take e s) 0) as [j|] eqn:E; [|lia].
  apply rfind_go_bounds in E. rewrite length_take in E. lia.
Qed.

Section TruncatorFacts.
Context `{Py : Runtime}.

Lemma last_sentence_end_bounds text e :
  (-1 ≤ last_sentence_end text e < Z.of_nat e)%Z.
Proof.
  unfold last_sentence_end.
  pose proof (rfind_bounds 46%N text e).
  pose proof (rfind_bounds 33%N text e).
  pose proof (rfind_bounds 63%N text e). lia.
Qed.

Lemma cut_to_chars_is_prefix text max_chars :
  ∃ k, k ≤ max_chars ∧ cut_to_chars text max_chars = strip (take k text).
Proof.
  unfold cut_to_chars.
  pose proof (last_sentence_end_bounds text max_chars).
  pose proof (rfind_bounds 32%N text max_chars).
  destruct (0 <? last_sentence_end text max_chars)%Z.
  - eexists. split; [|done]. lia.
  - destruct (0 <? rfind 32%N text max_chars)%Z.
    + eexists. split; [|done]. lia.
    + by exists max_chars.
Qed.

Lemma cut_to_chars_length text max_chars :
  length (cut_to_chars text max_chars) ≤ max_chars.
Proof.
  destruct (cut_to_chars_is_prefix text max_chars) as (k & Hk & ->).
  etrans; [apply strip_length|]. rewrite length_take. lia.
Qed.

Lemma cut_to_chars_words text max_chars :
  length (split (cut_to_chars text max_chars)) ≤ length (split text).
Proof.
  destruct (cut_to_chars_is_prefix text max_chars) as (k & Hk & ->).
  rewrite split_strip. apply split_take_length.
Qed.

Lemma word_cut_words text max_words :
  length (split (word_cut text max_words)) ≤ max_words.
Proof.
  unfold word_cut. destruct (max_words <? _) eqn:E.
  - rewrite split_join; [rewrite length_take; lia|].
    apply Forall_take, split_is_word.
  - apply Nat.ltb_ge in E. done.
Qed.

Lemma truncate_text_for_slide_unfold text max_chars max_words :
  truncate_text_for_slide text max_chars max_words =
  if truthy text
  then ensure_complete_sentences (truncated_text text max_chars max_words)
  else Ok [].
Proof.
  unfold truncate_text_for_slide, truncated_text, word_cut.
  destruct (truthy text); [|done]. cbn [negb].
  by destruct (_ && _).
Qed.

(* the cut text is within both limits in every branch, the hard cut included *)
Lemma truncated_text_within_limits text max_chars max_words :
  truncate_text_for_slide text max_chars max_words =
    (if truthy text
     then ensure_complete_sentences (truncated_text text max_chars max_words)
     else Ok []) ∧
  length (split (truncated_text text max_chars max_words)) ≤ limit_or max_words 20 ∧
  length (truncated_text text max_chars max_words) ≤ limit_or max_chars 100.
Proof.
  split; [apply truncate_text_for_slide_unfold|].
  unfold truncated_text.
  set (mc := limit_or max_chars 100). set (mw := limit_or max_words 20).
  destruct ((length (split (strip text)) <=? mw) && (length (strip text) <=? mc))
    eqn:Hpass.
  - apply andb_prop in Hpass as [Hw Hc].
    apply Nat.leb_le in Hw, Hc. done.
  - pose proof (word_cut_words text mw) as Hw.
    destruct (mc <? length (word_cut text mw)) eqn:Hlen.
    + split; [|apply cut_to_chars_length].
      etrans; [apply cut_to_chars_words|done].
    + apply Nat.ltb_ge in Hlen. done.
Qed.
End TruncatorFacts.

(** C2 (as stated) fails: a text within both limits is only completed, and
    the period appended to it takes it over the character limit although no
    hard cut was made. *)
Lemma truncator_claim_fails_by_appended_period :
  ¬ truncator_claim (lit "abcde fghij") (Some 11) None.
Proof.
  intros Hc. destruct (Hc (lit "abcde fghij.")) as [_ Hlen].
  - vm_compute. reflexivity.
  - specialize (Hlen ltac:(vm_compute; reflexivity)).
    vm_compute in Hlen. lia.
Qed.

(** ** Comparison key: what it ignores *)

Lemma startswith_nil s : startswith s [] = true.
Proof. by destruct s. Qed.

Lemma replace_char c s :
  replace [c] [] s = List.filter (λ d, negb (d =? c)%N) s.
Proof.
  unfold replace. induction s as [|d s IH]; simpl; [done|].
  rewrite startswith_nil, andb_true_r. destruct (d =? c)%N; simpl; by rewrite IH.
Qed.

Section KeyFacts.
Context `{Py : Runtime}.

(** Splitting after a character-wise rewriting that keeps white space and
    never produces any: the words are the rewritten words that are left. *)
Section Rewriting.
Context (g : char → str).
Context (g_space : ∀ c, isspace c = true → g c = [c]).
Context (g_word : ∀ c, isspace c = false → forallb notspace (g c) = true).

Lemma push_flat_map w ws :
  push (flat_map g w) (List.filter truthy (map (flat_map g) ws))
  = List.filter truthy (map (flat_map g) (push w ws)).
Proof.
  destruct w as [|c w]; [done|].
  cbn [push map List.filter]. by destruct (flat_map g (c :: w)).
Qed.

Lemma split_go_flat_map s :
  split_go (flat_map g s) =
  (flat_map g (split_go s).1,
   List.filter truthy (map (flat_map g) (split_go s).2)).
Proof.
  induction s as [|c s IH]; [done|].
  cbn [flat_map split_go]. destruct (isspace c) eqn:Hc.
  - rewrite (g_space c Hc). cbn [app split_go]. rewrite Hc, IH. cbn [fst snd].
    by rewrite push_flat_map.
  - rewrite (split_go_app_word _ _ (g_word c Hc)), IH. done.
Qed.

Lemma split_flat_map s :
  split (flat_map g s) = List.filter truthy (map (flat_map g) (split s)).
Proof.
  unfold split. rewrite split_go_flat_map. cbn [fst snd]. apply push_flat_map.
Qed.
End Rewriting.

Lemma key_chars_flat_map s : key_chars s = flat_map key_rewrite s.
Proof.
  unfold key_chars, key_rewrite. induction s as [|c s IH]; [done|].
  cbn [List.filter flat_map]. destruct (isalnum c || isspace c); cbn [flat_map];
    by rewrite IH.
Qed.

Lemma key_rewrite_space c : isspace c = true → key_rewrite c = [c].
Proof.
  intros Hc. unfold key_rewrite. rewrite Hc, orb_true_r. by apply lower_space.
Qed.

Lemma key_rewrite_word c :
  isspace c = false → forallb notspace (key_rewrite c) = true.
Proof.
  intros Hc. unfold key_rewrite. destruct (isalnum c || isspace c); [|done].
  by apply lower_not_space.
Qed.

(* the words of the key are the words of the text, each with its letters
   and digits in lower case, those left empty dropped *)
Lemma key_words_split s :
  key_words s = List.filter truthy (map key_chars (split s)).
Proof.
  unfold key_words. rewrite key_chars_flat_map.
  rewrite (split_flat_map _ key_rewrite_space key_rewrite_word).
  f_equal. apply map_ext. intros w. by rewrite key_chars_flat_map.
Qed.

Lemma key_chars_app s t : key_chars (s ++ t) = key_chars s ++ key_chars t.
Proof. unfold key_chars. by rewrite List.filter_app, List.flat_map_app. Qed.

Lemma key_chars_punct p : forallb is_punct p = true → key_chars p = [].
Proof.
  unfold key_chars, is_punct. induction p as [|c p IH]; [done|].
  cbn [forallb List.filter]. intros [Hc Hp]%andb_prop.
  apply negb_true_iff in Hc. rewrite Hc. by apply IH.
Qed.

Lemma key_chars_filter (f : char → bool) s :
  (∀ c, f c = false → isalnum c || isspace c = false) →
  key_chars (List.filter f s) = key_chars s.
Proof.
  intros Hf. unfold key_chars. f_equal.
  induction s as [|c s IH]; [done|]. cbn [List.filter].
  destruct (f c) eqn:Hc; cbn [List.filter]; rewrite IH; [done|].
  by rewrite (Hf c Hc).
Qed.

Lemma bullet_glyph_dropped c :
  is_bullet_glyph c = true → isalnum c || isspace c = false.
Proof.
  unfold is_bullet_glyph, inb. cbn [existsb].
  rewrite !orb_true_iff, !N.eqb_eq.
  destruct isalnum_bullet as [A1 A2]. destruct isspace_bullet as [S1 S2].
  intros [->|[->|[->|[->|?]]]]; [| | | |done].
  - by rewrite A1, S1.
  - by rewrite isalnum_ascii, isspace_ascii by (vm_compute; reflexivity).
  - by rewrite A2, S2.
  - by rewrite isalnum_ascii, isspace_ascii by (vm_compute; reflexivity).
Qed.

Lemma key_chars_remove_bullets s : key_chars (remove_bullets s) = key_chars s.
Proof.
  apply key_chars_filter. intros c Hc. apply bullet_glyph_dropped.
  by apply negb_false_iff.
Qed.

Lemma key_chars_remove_char b s :
  is_bullet_glyph b = true →
  key_chars (List.filter (λ d, negb (d =? b)%N) s) = key_chars s.
Proof.
  intros Hb. apply key_chars_filter. intros c Hc.
  apply negb_false_iff, N.eqb_eq in Hc as ->. by apply bullet_glyph_dropped.
Qed.

Lemma key_chars_rstrip_chars s :
  key_chars (rstrip_chars (lit ".,;:") s) = key_chars s.
Proof.
  destruct (rstrip_by_split (λ c, inb c (lit ".,;:")) s) as (u & Hs & Hu).
  unfold rstrip_chars. rewrite Hs at 2. rewrite key_chars_app.
  rewrite (key_chars_punct u); [by rewrite app_nil_r|].
  clear Hs. induction u as [|c u IH]; [done|].
  cbn [forallb] in *. apply andb_prop in Hu as [Hc Hu]. rewrite (IH Hu), andb_true_r.
  unfold is_punct. apply negb_true_iff.
  unfold inb in Hc. cbn [lit list_ascii_of_string fmap list_fmap existsb] in Hc.
  rewrite !orb_true_iff, !N.eqb_eq in Hc.
  destruct Hc as [->|[->|[->|[->|?]]]]; [| | | |done];
    by rewrite isalnum_ascii, isspace_ascii by (vm_compute; reflexivity).
Qed.

Lemma key_words_join_split s : key_words (join (lit " ") (split s)) = key_words s.
Proof. by rewrite !key_words_split, split_join_split. Qed.

Lemma key_words_strip s : key_words (strip s) = key_words s.
Proof. by rewrite !key_words_split, split_strip. Qed.

(* cleaning does not change the words of the key *)
Lemma key_words_clean s : key_words (clean_and_deduplicate_text s) = key_words s.
Proof.
  unfold clean_and_deduplicate_text. destruct s as [|c s]; [done|].
  cbn [truthy negb]. rewrite key_words_strip.
  unfold key_words at 1. rewrite key_chars_rstrip_chars.
  fold (key_words (join (lit " ") (split (replace [45%N] [] (replace [MIDDLE_DOT] []
          (replace [42%N] [] (replace [BULLET] [] (c :: s)))))))).
  rewrite key_words_join_split. unfold key_words. f_equal.
  rewrite !replace_char. by rewrite !key_chars_remove_char.
Qed.

Lemma get_comparison_key_words s :
  get_comparison_key s =
  join (lit " ") (List.filter (λ w, negb (is_stop_word w)) (key_words s)).
Proof. unfold get_comparison_key. by destruct s. Qed.

Lemma dedup_key_words s :
  dedup_key s =
  join (lit " ") (List.filter (λ w, negb (is_stop_word w)) (key_words s)).
Proof. unfold dedup_key. by rewrite get_comparison_key_words, key_words_clean. Qed.
End KeyFacts.

Lemma stop_words_lower_ascii w :
  is_stop_word w = true → forallb is_lower_ascii w = true ∧ w ≠ [].
Proof.
  unfold is_stop_word. rewrite bool_decide_eq_true. intros Hin.
  assert (Hall : Forall (λ w, forallb is_lower_ascii w = true ∧ w ≠ []) stop_words).
  { repeat constructor; done. }
  by apply (proj1 (Forall_forall _ _) Hall).
Qed.

Section KeyInvariance.
Context `{Py : Runtime}.

Lemma lower_ascii_letter c :
  is_lower_ascii c = true → isalnum c = true ∧ lower c = [c].
Proof.
  unfold is_lower_ascii. intros [H1 H2]%andb_prop.
  apply N.leb_le in H1, H2.
  rewrite isalnum_ascii, lower_ascii by lia.
  unfold ascii_isalnum, ascii_lower.
  rewrite (proj2 (N.leb_le 97 c) H1), (proj2 (N.leb_le c 122) H2).
  rewrite (proj2 (N.leb_gt c 90)) by lia.
  rewrite andb_false_r, orb_true_r. done.
Qed.

Lemma key_chars_lower_ascii w : forallb is_lower_ascii w = true → key_chars w = w.
Proof.
  unfold key_chars. induction w as [|c w IH]; [done|].
  cbn [forallb List.filter]. intros [Hc Hw]%andb_prop.
  destruct (lower_ascii_letter c Hc) as [Ha Hl].
  rewrite Ha. cbn [orb flat_map]. rewrite Hl, (IH Hw). done.
Qed.

Lemma case_variant_space c d : case_variant c d → isspace c = isspace d.
Proof.
  intros [Hl _].
  destruct (isspace c) eqn:Hc, (isspace d) eqn:Hd; try done.
  - pose proof (lower_not_space d Hd) as Hn.
    rewrite <- Hl, (lower_space c Hc) in Hn. cbn in Hn. by rewrite Hc in Hn.
  - pose proof (lower_not_space c Hc) as Hn.
    rewrite Hl, (lower_space d Hd) in Hn. cbn in Hn. by rewrite Hd in Hn.
Qed.

Lemma key_chars_case s1 s2 :
  Forall2 case_variant s1 s2 → key_chars s1 = key_chars s2.
Proof.
  unfold key_chars. induction 1 as [|c d s1 s2 Hcd _ IH]; [done|].
  cbn [List.filter]. rewrite (case_variant_space c d Hcd).
  destruct Hcd as [Hl Ha]. rewrite Ha.
  destruct (isalnum d || isspace d); [|done].
  cbn [flat_map]. by rewrite Hl, IH.
Qed.

Lemma key_words_drop_stop_words ws :
  List.filter (λ w, negb (is_stop_word w))
    (List.filter truthy (map key_chars ws))
  = List.filter (λ w, negb (is_stop_word w))
      (List.filter truthy
         (map key_chars (List.filter (λ w, negb (is_stop_word w)) ws))).
Proof.
  induction ws as [|w ws IH]; [done|].
  cbn [map List.filter]. destruct (is_stop_word w) eqn:Hw; cbn [negb].
  - destruct (stop_words_lower_ascii w Hw) as [Hl Hne].
    rewrite (key_chars_lower_ascii w Hl).
    destruct w as [|c w]; [done|]. cbn [truthy List.filter].
    rewrite Hw. done.
  - cbn [map List.filter]. destruct (truthy (key_chars w)); [|done].
    cbn [List.filter]. by rewrite IH.
Qed.

Lemma noise_step_key_content s1 s2 :
  noise_step s1 s2 → key_content s1 = key_content s2.
Proof.
  unfold key_content. intros [s s' Hb|s s' Hc|s s' Hs|s p Hp].
  - unfold key_words.
    by rewrite <- (key_chars_remove_bullets s), Hb, key_chars_remove_bullets.
  - unfold key_words. by rewrite (key_chars_case s s' Hc).
  - rewrite !key_words_split.
    rewrite (key_words_drop_stop_words (split s)).
    rewrite (key_words_drop_stop_words (split s')).
    unfold non_stop_words in Hs. by rewrite Hs.
  - unfold key_words. by rewrite key_chars_app, (key_chars_punct p Hp), app_nil_r.
Qed.

(** C5 (amended): two strings joined by a chain of differences of these
    kinds have the same dedup key, both through the normaliser and on the
    comparison-key function alone: bullet glyphs (the strings are equal
    once the four glyphs are deleted), letter case taken character by
    character (characters at the same place have the same lower-case form
    and are letters or digits alike), stop words standing as
    white-space-delimited words (the same words are left once these are
    dropped), and punctuation appended at the end. *)
Theorem noise_gives_same_key s1 s2 :
  differ_only_in_noise s1 s2 →
  dedup_key s1 = dedup_key s2 ∧ get_comparison_key s1 = get_comparison_key s2.
Proof.
  intros Hn.
  assert (Hk : key_content s1 = key_content s2).
  { induction Hn as [|x y z [Hxy|Hyx] _ IH]; [done| |].
    - by rewrite (noise_step_key_content x y Hxy).
    - by rewrite <- (noise_step_key_content y x Hyx). }
  rewrite !dedup_key_words, !get_comparison_key_words.
  unfold key_content in Hk. by rewrite Hk.
Qed.
End KeyInvariance.

Lemma noise_gives_same_key_witness :
  differ_only_in_noise (BULLET :: lit " The Manual deployment.")
                       (lit "manual deployment") ∧
  dedup_key (BULLET :: lit " The Manual deployment.")
    = dedup_key (lit "manual deployment") ∧
  get_comparison_key (BULLET :: lit " The Manual deployment.")
    = get_comparison_key (lit "manual deployment").
Proof.
  assert (Hn : differ_only_in_noise (BULLET :: lit " The Manual deployment.")
                                    (lit "manual deployment")).
  { unfold differ_only_in_noise.
    apply rtc_l with (lit " The Manual deployment.").
    { left. apply bullet_glyphs. vm_compute. reflexivity. }
    apply rtc_l with (lit " the manual deployment.").
    { left. apply letter_case. vm_compute. repeat constructor. }
    apply rtc_l with (lit "manual deployment.").
    { left. apply stop_word_occurrences. vm_compute. reflexivity. }
    apply rtc_once. right.
    apply (trailing_punctuation (lit "manual deployment") (lit ".")).
    vm_compute. reflexivity. }
  split; [exact Hn|].
  exact (noise_gives_same_key _ _ Hn).
Defined.

(** C5 (as stated) fails: "in-house tools" and "house tools" differ in an
    occurrence of the stop word "in" and in a hyphen alone; the key drops
    the hyphen before it looks for stop words, so that the keys are
    "inhouse tools" and "house tools". *)
Lemma key_invariance_claim_fails_on_hyphenated_stop_word :
  ¬ key_invariance_claim (lit "in-house tools") (lit "house tools").
Proof.
  intros Hclaim. destruct Hclaim as [_ Hk].
  - apply rtc_l with (lit "-house tools").
    + left. apply (stop_word_between_marks [] (lit "in") (lit "-house tools"));
        vm_compute; reflexivity.
    + apply rtc_once. left. apply noise_of_the_key, bullet_glyphs.
      vm_compute. reflexivity.
  - vm_compute in Hk. discriminate.
Qed.

(* the keys of the two strings *)
Example hyphenated_stop_word_keys :
  get_comparison_key (lit "in-house tools") = lit "inhouse tools" ∧
  get_comparison_key (lit "house tools") = lit "house tools" ∧
  dedup_key (lit "in-house tools") = lit "inhouse tools" ∧
  dedup_key (lit "house tools") = lit "house tools".
Proof. repeat split; vm_compute; reflexivity. Qed.

(** ** Truncator: applying it twice *)

Lemma endings_are_stable p complete :
  (p, complete) ∈ endings → phrase_is_stable complete = true.
Proof.
  assert (Hall : Forall (λ pc : str * str, phrase_is_stable pc.2 = true) endings).
  { apply Forall_forall. intros pc Hin.
    assert (Hb : forallb (λ pc : str * str, phrase_is_stable pc.2) endings = true)
      by (vm_compute; reflexivity).
    rewrite forallb_forall in Hb. apply Hb. by apply list_elem_of_In. }
  intros Hin. by apply (proj1 (Forall_forall _ _) Hall (p, complete)).
Qed.

Lemma endings_first_words_ascii p complete :
  (p, complete) ∈ endings →
  is_ascii (default [] (head (split (Py := ascii_table) complete))) = true.
Proof.
  assert (Hb : forallb (λ pc : str * str,
                 is_ascii (default [] (head (split (Py := ascii_table) pc.2))))
               endings = true) by (vm_compute; reflexivity).
  rewrite forallb_forall in Hb. intros Hin.
  by apply (Hb (p, complete)), list_elem_of_In.
Qed.

Section AsciiTransfer.
Context `{Py : Runtime}.

Lemma isspace_ascii_table c :
  (c < 128)%N → isspace c = isspace (Runtime := ascii_table) c.
Proof.
  intros Hc. rewrite !isspace_ascii by done. done.
Qed.

Lemma split_go_ascii s :
  is_ascii s = true → split_go s = split_go (Py := ascii_table) s.
Proof.
  induction s as [|c s IH]; [done|]. cbn [is_ascii forallb].
  intros [Hc Hs]%andb_prop. apply N.ltb_lt in Hc.
  cbn [split_go]. rewrite (IH Hs), (isspace_ascii_table c Hc). done.
Qed.

Lemma split_ascii s : is_ascii s = true → split s = split (Py := ascii_table) s.
Proof. intros Hs. unfold split. by rewrite (split_go_ascii s Hs). Qed.

Lemma str_lower_ascii s :
  is_ascii s = true → str_lower s = str_lower (Py := ascii_table) s.
Proof.
  unfold str_lower. induction s as [|c s IH]; [done|]. cbn [is_ascii forallb].
  intros [Hc Hs]%andb_prop. apply N.ltb_lt in Hc.
  cbn [flat_map]. rewrite (IH Hs), !lower_ascii by done. done.
Qed.

Lemma first_word_lower_ascii p complete :
  (p, complete) ∈ endings →
  first_word_lower complete = first_word_lower (Py := ascii_table) complete.
Proof.
  intros Hin. unfold first_word_lower.
  pose proof (endings_are_stable p complete Hin) as Hs.
  unfold phrase_is_stable in Hs.
  apply andb_prop in Hs as [[Ha _]%andb_prop _].
  rewrite (split_ascii complete Ha).
  apply str_lower_ascii. by apply (endings_first_words_ascii p).
Qed.

Lemma ending_applies_ascii w p complete :
  (p, complete) ∈ endings →
  ending_applies w (p, complete) = ending_applies (Py := ascii_table) w (p, complete).
Proof.
  intros Hin. unfold ending_applies. cbn [fst snd].
  by rewrite (first_word_lower_ascii p complete Hin).
Qed.
End AsciiTransfer.

Section Idempotence.
Context `{Py : Runtime}.

Lemma ensure_complete_sentences_unfold text :
  text ≠ [] →
  ensure_complete_sentences text =
  match last (rstrip_chars (lit ". ") text) with
  | None => Raise IndexError
  | Some c =>
      let text1 := completed (rstrip_chars (lit ". ") text) c in
      match last (split text1) with
      | None => Raise IndexError
      | Some w => Ok (complete_last_word endings (str_lower w) text1)
      end
  end.
Proof.
  intros Hne. unfold ensure_complete_sentences.
  destruct text as [|c0 text]; [done|]. cbn [truthy negb].
  by rewrite rstrip_dots_after_rstrip.
Qed.

Lemma complete_last_word_none es last_word text :
  forallb (λ pc, negb (ending_applies last_word pc)) es = true →
  complete_last_word es last_word text = text.
Proof.
  induction es as [|[p complete] es IH]; [done|].
  cbn [forallb complete_last_word]. intros [Hn Hes]%andb_prop.
  apply negb_true_iff in Hn. unfold ending_applies in Hn. cbn [fst snd] in Hn.
  rewrite Hn. by apply IH.
Qed.

Lemma complete_last_word_spec es last_word text :
  (forallb (λ pc, negb (ending_applies last_word pc)) es = true ∧
   complete_last_word es last_word text = text) ∨
  (∃ p complete, (p, complete) ∈ es ∧
     complete_last_word es last_word text =
       join (lit " ") (removelast (split text)) ++ lit " " ++ complete).
Proof.
  induction es as [|[p complete] es IH]; [by left|].
  cbn [forallb complete_last_word]. unfold ending_applies at 1. cbn [fst snd].
  destruct (startswith last_word p
            && negb (str_eqb last_word (first_word_lower complete))).
  - right. exists p, complete. split; [apply list_elem_of_here|done].
  - destruct IH as [[Hn IH]|(p' & c' & Hin & IH)]; [by left|].
    right. exists p', c'. split; [by apply list_elem_of_further|done].
Qed.

Lemma period_is_stripped : forallb (λ c, inb c (lit ". ")) (lit ".") = true.
Proof. done. Qed.

Lemma rstrip_completed t c :
  rstrip_chars (lit ". ") t = t →
  rstrip_chars (lit ". ") (completed t c) = t.
Proof.
  intros Ht. unfold completed. destruct (isalnum c); [|done].
  unfold rstrip_chars in *. by rewrite (rstrip_by_app _ _ _ period_is_stripped).
Qed.

(* a completed text to whose last word no entry applies is returned as is *)
Lemma ensure_fixed t c w :
  rstrip_chars (lit ". ") t = t →
  last t = Some c →
  last (split (completed t c)) = Some w →
  forallb (λ pc, negb (ending_applies (str_lower w) pc)) endings = true →
  ensure_complete_sentences (completed t c) = Ok (completed t c).
Proof.
  intros Ht Hc Hw Hn.
  rewrite ensure_complete_sentences_unfold.
  2:{ unfold completed. destruct t; [done|]. by destruct (isalnum c). }
  rewrite (rstrip_completed t c Ht), Hc. cbv zeta. rewrite Hw.
  by rewrite (complete_last_word_none _ _ _ Hn).
Qed.

Lemma lower_ascii_not_stripped c :
  is_lower_ascii c = true → inb c (lit ". ") = false.
Proof.
  unfold is_lower_ascii. intros [H1 H2]%andb_prop. apply N.leb_le in H1.
  unfold inb. cbn [lit list_ascii_of_string fmap list_fmap existsb].
  rewrite !orb_false_iff. repeat split; apply N.eqb_neq;
    intros ->; vm_compute in H1; done.
Qed.

(* a text that ends with a completion phrase is returned as is *)
Lemma ensure_fixed_phrase J p complete :
  (p, complete) ∈ endings →
  ensure_complete_sentences (J ++ lit " " ++ complete)
  = Ok (J ++ lit " " ++ complete).
Proof.
  intros Hin. pose proof (endings_are_stable p complete Hin) as Hs.
  unfold phrase_is_stable in Hs.
  apply andb_prop in Hs as [[Ha Hrev]%andb_prop Hlast].
  destruct (reverse complete) as [|dot [|letter rest]] eqn:Hr; [done|done|].
  apply andb_prop in Hrev as [Hdot Hletter]. apply N.eqb_eq in Hdot as ->.
  assert (Hcomp : complete = (reverse rest ++ [letter]) ++ lit ".").
  { rewrite <- (reverse_involutive complete), Hr.
    by rewrite !reverse_cons. }
  destruct (last (split (Py := ascii_table) complete)) as [w|] eqn:Hw; [|done].
  apply andb_prop in Hlast as [[Hwa Hwl]%andb_prop Hnone].
  unfold str_eqb in Hwl. apply bool_decide_eq_true in Hwl.
  set (t := J ++ lit " " ++ reverse rest ++ [letter]).
  destruct (lower_ascii_letter letter Hletter) as [Halnum _].
  assert (Hout : J ++ lit " " ++ complete = completed t letter).
  { unfold completed, t. rewrite Halnum, Hcomp. by rewrite <- !app_assoc. }
  rewrite Hout. apply (ensure_fixed t letter w).
  - unfold t, rstrip_chars.
    rewrite !app_assoc. apply rstrip_by_snoc. by apply lower_ascii_not_stripped.
  - unfold t. rewrite !app_assoc. apply last_snoc.
  - rewrite <- Hout. change (lit " " ++ complete) with (32%N :: complete).
    rewrite (split_app_space _ _ _ isspace_space), last_app.
    by rewrite (split_ascii complete Ha), Hw.
  - rewrite (str_lower_ascii w Hwa), Hwl.
    apply forallb_forall. intros [p' c'] Hin'.
    rewrite forallb_forall in Hnone. specialize (Hnone _ Hin').
    apply list_elem_of_In in Hin'.
    by rewrite (ending_applies_ascii w p' c' Hin').
Qed.

(* the repair returns its own results unchanged *)
Lemma ensure_complete_sentences_idempotent text out :
  ensure_complete_sentences text = Ok out →
  ensure_complete_sentences out = Ok out.
Proof.
  destruct text as [|c0 text0]; [by intros [= <-]|].
  rewrite ensure_complete_sentences_unfold by done.
  set (t := rstrip_chars (lit ". ") (c0 :: text0)).
  destruct (last t) as [c|] eqn:Hc; [|done]. cbv zeta.
  destruct (last (split (completed t c))) as [w|] eqn:Hw; [|done].
  remember (complete_last_word endings (str_lower w) (completed t c)) as r eqn:Hr.
  intros [= <-]. subst r.
  destruct (complete_last_word_spec endings (str_lower w) (completed t c))
    as [[Hn ->]|(p & complete & Hin & ->)].
  - apply (ensure_fixed t c w); try done.
    unfold t, rstrip_chars. apply rstrip_by_idemp.
  - by apply (ensure_fixed_phrase _ p).
Qed.

(** C6 (amended): the Truncator returns its own output unchanged whenever
    that output is within both limits and has no white space at either
    end; the sentence-completion step by itself returns each of its
    results unchanged. *)
Theorem truncate_twice_within_limits text max_chars max_words out :
  truncate_text_for_slide text max_chars max_words = Ok out →
  strip out = out →
  length (split out) ≤ limit_or max_words 20 →
  length out ≤ limit_or max_chars 100 →
  truncate_text_for_slide out max_chars max_words = Ok out ∧
  ensure_complete_sentences out = Ok out.
Proof.
  intros Hout Hstrip Hw Hc.
  assert (He : ensure_complete_sentences out = Ok out).
  { rewrite truncate_text_for_slide_unfold in Hout.
    destruct (truthy text); [|by injection Hout as <-].
    by apply ensure_complete_sentences_idempotent in Hout. }
  split; [|done].
  unfold truncate_text_for_slide. destruct out as [|c out']; [done|].
  cbn [truthy negb]. rewrite Hstrip.
  apply Nat.leb_le in Hw, Hc. rewrite Hw, Hc. done.
Qed.
End Idempotence.

(** C6 (as stated) fails: the period appended to a text that just fits takes
    the output over the character limit, and the second pass cuts it. *)
Lemma idempotence_claim_fails_after_appended_period :
  ¬ idempotence_claim (lit "abcde fghij") (Some 11) None.
Proof.
  intros Hc. specialize (Hc (lit "abcde fghij.") ltac:(vm_compute; reflexivity)).
  vm_compute in Hc. discriminate Hc.
Qed.

Lemma truncate_twice_within_limits_witness :
  let text := lit "This is a great solution for your business needs today." in
  let out := lit "This is a great." in
  truncate_text_for_slide text (Some 20) (Some 5) = Ok out ∧
  strip out = out ∧
  length (split out) ≤ limit_or (Some 5) 20 ∧
  length out ≤ limit_or (Some 20) 100 ∧
  truncate_text_for_slide out (Some 20) (Some 5) = Ok out ∧
  ensure_complete_sentences out = Ok out.
Proof.
  cbv zeta.
  assert (H1 : truncate_text_for_slide
                 (lit "This is a great solution for your business needs today.")
                 (Some 20) (Some 5) = Ok (lit "This is a great."))
    by (vm_compute; reflexivity).
  assert (H2 : strip (lit "This is a great.") = lit "This is a great.")
    by (vm_compute; reflexivity).
  assert (H3 : length (split (lit "This is a great.")) ≤ limit_or (Some 5) 20)
    by (vm_compute; lia).
  assert (H4 : length (lit "This is a great.") ≤ limit_or (Some 20) 100)
    by (vm_compute; lia).
  split; [exact H1|]. split; [exact H2|]. split; [exact H3|]. split; [exact H4|].
  exact (truncate_twice_within_limits _ _ _ _ H1 H2 H3 H4).
Defined.

(** ** Truncator: how far the completion step can exceed the limits *)

Lemma endings_are_short p complete :
  (p, complete) ∈ endings →
  is_ascii complete = true ∧
  length (split (Py := ascii_table) complete) ≤ 2 ∧ length complete ≤ 25.
Proof.
  assert (Hb : forallb (λ pc : str * str,
                 is_ascii pc.2
                 && (length (split (Py := ascii_table) pc.2) <=? 2)
                 && (length pc.2 <=? 25)) endings = true)
    by (vm_compute; reflexivity).
  rewrite forallb_forall in Hb. intros Hin%list_elem_of_In.
  specialize (Hb _ Hin). cbn [snd] in Hb.
  apply andb_prop in Hb as [[Ha Hw]%andb_prop Hl].
  apply Nat.leb_le in Hw, Hl. done.
Qed.

Lemma rstrip_by_prefix P s : rstrip_by P s = take (length (rstrip_by P s)) s.
Proof.
  destruct (rstrip_by_split P s) as (u & Hs & _).
  rewrite Hs at 3. by rewrite take_app_length.
Qed.

Lemma join_length_removelast sep ws :
  length (join sep (removelast ws)) ≤ length (join sep ws).
Proof.
  induction ws as [|w ws IH]; [done|].
  destruct ws as [|w' ws]; [simpl; lia|].
  change (removelast (w :: w' :: ws)) with (w :: removelast (w' :: ws)).
  rewrite (join_cons sep w (removelast (w' :: ws))), (join_cons sep w (w' :: ws)).
  destruct (removelast (w' :: ws)) eqn:E.
  - rewrite !length_app. lia.
  - rewrite !length_app. lia.
Qed.

Section CompletionBounds.
Context `{Py : Runtime}.

Lemma join_length_spread ws :
  length (join (lit " ") ws) + (if ws is [] then 0 else 1) ≤ spread ws.
Proof.
  induction ws as [|w ws IH]; [done|].
  rewrite join_cons. destruct ws as [|w' ws]; [simpl; lia|].
  rewrite !length_app. change (length (lit " ")) with 1.
  cbn [spread] in *. lia.
Qed.

Lemma split_go_spread s :
  length (split_go s).1 + spread (split_go s).2 ≤ length s.
Proof.
  induction s as [|c s IH]; [done|].
  cbn [split_go]. revert IH. destruct (split_go s) as [w ws].
  destruct (isspace c); cbn [fst snd length]; intros IH; [|lia].
  destruct w; cbn [push spread length] in *; lia.
Qed.

Lemma join_split_length s : length (join (lit " ") (split s)) ≤ length s.
Proof.
  pose proof (split_go_spread s) as Hs. unfold split.
  revert Hs. destruct (split_go s) as [w ws]. cbn [fst snd]. intros Hs.
  pose proof (join_length_spread ws) as Hj.
  destruct w as [|c w]; cbn [push length] in *.
  - destruct ws; lia.
  - rewrite join_cons. destruct ws as [|w' ws].
    + cbn [length spread] in *. lia.
    + rewrite !length_app. change (length (lit " ")) with 1.
      cbn [length spread] in *. lia.
Qed.

(* a character that is not white space, put after one that is not either,
   starts no new word *)
Lemma split_go_snoc_word t c d :
  last t = Some c → isspace c = false → isspace d = false →
  length (split_go (t ++ [d])).2 = length (split_go t).2 ∧
  ((split_go (t ++ [d])).1 = [] ↔ (split_go t).1 = []).
Proof.
  intros Hl Hc Hd. revert Hl. induction t as [|e t IH]; [done|].
  rewrite last_cons. destruct (last t) as [c'|] eqn:Hlt.
  - intros [= ->]. destruct (IH eq_refl) as [IH1 IH2].
    change ((e :: t) ++ [d]) with (e :: (t ++ [d])).
    cbn [split_go]. destruct (isspace e); cbn [fst snd]; [|done].
    split; [|done]. revert IH1 IH2.
    destruct (split_go (t ++ [d])) as [w1 ws1], (split_go t) as [w2 ws2].
    cbn [fst snd]. intros IH1 IH2.
    destruct w1, w2; cbn [push length]; try lia.
    + by pose proof (proj1 IH2 eq_refl).
    + by pose proof (proj2 IH2 eq_refl).
  - apply last_None in Hlt as ->. intros [= ->].
    cbn [app split_go]. rewrite Hc, Hd. done.
Qed.

Lemma split_snoc_word t c d :
  last t = Some c → isspace c = false → isspace d = false →
  length (split (t ++ [d])) = length (split t).
Proof.
  intros Hl Hc Hd. destruct (split_go_snoc_word t c d Hl Hc Hd) as [H1 H2].
  unfold split. revert H1 H2.
  destruct (split_go (t ++ [d])) as [w1 ws1], (split_go t) as [w2 ws2].
  cbn [fst snd]. intros H1 H2.
  destruct w1, w2; cbn [push length]; try lia.
  - by pose proof (proj1 H2 eq_refl).
  - by pose proof (proj2 H2 eq_refl).
Qed.

Lemma removelast_take {A} (l : list A) : removelast l = take (pred (length l)) l.
Proof. apply removelast_firstn_len. Qed.

Lemma completed_length t c : length (completed t c) ≤ S (length t).
Proof.
  unfold completed. destruct (isalnum c); [|lia].
  rewrite length_app. change (length (lit ".")) with 1. lia.
Qed.

Lemma completed_words t c :
  last t = Some c → length (split (completed t c)) = length (split t).
Proof.
  intros Hl. unfold completed. destruct (isalnum c) eqn:Ha; [|done].
  apply (split_snoc_word t c 46%N Hl); [by apply isalnum_not_space|].
  by rewrite isspace_ascii.
Qed.

(* the text with its last word replaced by a completion phrase *)
Lemma replaced_bounds text1 w p complete :
  last (split text1) = Some w →
  (p, complete) ∈ endings →
  let out := join (lit " ") (removelast (split text1)) ++ lit " " ++ complete in
  length (split out) ≤ S (length (split text1)) ∧
  length out ≤ length text1 + 26.
Proof.
  intros Hw Hin. cbv zeta.
  destruct (endings_are_short p complete Hin) as (Ha & Hws & Hlen).
  split.
  - change (lit " " ++ complete) with (32%N :: complete).
    rewrite (split_app_space _ _ _ isspace_space), length_app.
    rewrite (split_ascii complete Ha).
    rewrite split_join.
    2:{ rewrite removelast_take. apply Forall_take, split_is_word. }
    rewrite removelast_take, length_take.
    assert (length (split text1) ≠ 0).
    { destruct (split text1); [done|]. done. }
    lia.
  - rewrite !length_app. change (length (lit " ")) with 1.
    pose proof (join_length_removelast (lit " ") (split text1)).
    pose proof (join_split_length text1). lia.
Qed.

(** C2 (amended): for every text and limits, with 20 words and 100
    characters standing for a limit that is absent or zero, the text the
    Truncator hands to sentence completion has at most max_words words and at
    most max_chars characters in every branch, the hard cut included; the
    output then has at most max_words words and max_chars + 1 characters,
    unless its last word was replaced by a completion phrase of the table,
    and then at most max_words + 1 words and max_chars + 27 characters. *)
Theorem truncator_limits text max_chars max_words out :
  truncate_text_for_slide text max_chars max_words = Ok out →
  (length (split (truncated_text text max_chars max_words)) ≤ limit_or max_words 20 ∧
   length (truncated_text text max_chars max_words) ≤ limit_or max_chars 100) ∧
  ((length (split out) ≤ limit_or max_words 20 ∧
    length out ≤ limit_or max_chars 100 + 1) ∨
   (∃ p complete J,
      (p, complete) ∈ endings ∧ out = J ++ lit " " ++ complete ∧
      length (split out) ≤ limit_or max_words 20 + 1 ∧
      length out ≤ limit_or max_chars 100 + 27)).
Proof.
  intros Hout.
  destruct (truncated_text_within_limits text max_chars max_words) as (Hun & Hw & Hc).
  split; [done|].
  rewrite Hun in Hout. clear Hun.
  set (pre := truncated_text text max_chars max_words) in *.
  destruct (truthy text).
  2:{ injection Hout as <-. left. split; simpl; lia. }
  destruct pre as [|c0 pre0] eqn:Hpre.
  { injection Hout as <-. left. split; simpl; lia. }
  rewrite ensure_complete_sentences_unfold in Hout by done.
  rewrite <- Hpre in *. clear Hpre c0 pre0.
  set (t := rstrip_chars (lit ". ") pre) in *.
  assert (Htl : length t ≤ length pre) by apply rstrip_by_length.
  assert (Htw : length (split t) ≤ length (split pre)).
  { unfold t, rstrip_chars. rewrite rstrip_by_prefix. apply split_take_length. }
  destruct (last t) as [c|] eqn:Hlast; [|done]. cbv zeta in Hout.
  pose proof (completed_length t c) as Hcl.
  pose proof (completed_words t c Hlast) as Hcw.
  destruct (last (split (completed t c))) as [w|] eqn:Hlw; [|done].
  remember (complete_last_word endings (str_lower w) (completed t c)) as r eqn:Hr.
  injection Hout as <-. subst r.
  destruct (complete_last_word_spec endings (str_lower w) (completed t c))
    as [[_ ->]|(p & complete & Hin & ->)].
  - left. lia.
  - right. exists p, complete, (join (lit " ") (removelast (split (completed t c)))).
    destruct (replaced_bounds (completed t c) w p complete Hlw Hin) as [Hb1 Hb2].
    repeat split; try done; lia.
Qed.
End CompletionBounds.

(** C2 (as stated), the word limit: one word within the limit comes back as
    the two words of its completion phrase. *)
Example truncator_word_limit_exceeded :
  truncate_text_for_slide (lit "secur") None (Some 1) = Ok (lit " security measures.") ∧
  length (split (lit " security measures.")) = 2.
Proof. split; vm_compute; reflexivity. Qed.

Lemma truncator_limits_witness :
  truncate_text_for_slide (lit "secur") None (Some 1) = Ok (lit " security measures.") ∧
  (length (split (truncated_text (lit "secur") None (Some 1))) ≤ limit_or (Some 1) 20 ∧
   length (truncated_text (lit "secur") None (Some 1)) ≤ limit_or None 100) ∧
  ((length (split (lit " security measures.")) ≤ limit_or (Some 1) 20 ∧
    length (lit " security measures.") ≤ limit_or None 100 + 1) ∨
   (∃ p complete J,
      (p, complete) ∈ endings ∧ lit " security measures." = J ++ lit " " ++ complete ∧
      length (split (lit " security measures.")) ≤ limit_or (Some 1) 20 + 1 ∧
      length (lit " security measures.") ≤ limit_or None 100 + 27)).
Proof.
  assert (H : truncate_text_for_slide (lit "secur") None (Some 1)
              = Ok (lit " security measures.")) by (vm_compute; reflexivity).
  split; [exact H|].
  exact (truncator_limits (lit "secur") None (Some 1) _ H).
Defined.

(** ** Deduplicator: the path that replaces *)

Lemma od_set_keys k v d x :
  x ∈ (od_set k v d).*1 → x ∈ d.*1 ∨ x = k.
Proof.
  induction d as [|[k' v'] d IH]; simpl.
  - intros ?%list_elem_of_singleton. by right.
  - unfold str_eqb. case_bool_decide; simpl.
    + intros Hx. by left.
    + intros [->|Hx]%elem_of_cons; [left; apply list_elem_of_here|].
      destruct (IH Hx) as [?|?]; [left; by apply list_elem_of_further|by right].
Qed.

Lemma od_set_NoDup k v d : NoDup d.*1 → NoDup (od_set k v d).*1.
Proof.
  induction d as [|[k' v'] d IH]; simpl.
  - intros _. apply NoDup_singleton.
  - intros [Hk Hd]%NoDup_cons. unfold str_eqb. case_bool_decide as Hkk; simpl.
    + by apply NoDup_cons.
    + apply NoDup_cons. split; [|by apply IH].
      intros [?|?]%od_set_keys; [done|]. by subst.
Qed.

Lemma od_set_elem k v d kv :
  kv ∈ od_set k v d → kv ∈ d ∨ kv = (k, v).
Proof.
  induction d as [|[k' v'] d IH]; simpl.
  - intros ?%list_elem_of_singleton. by right.
  - unfold str_eqb. case_bool_decide; simpl.
    + intros [->|Hx]%elem_of_cons; [right; by subst|].
      left. by apply list_elem_of_further.
    + intros [->|Hx]%elem_of_cons; [left; apply list_elem_of_here|].
      destruct (IH Hx) as [?|?]; [left; by apply list_elem_of_further|by right].
Qed.

Section DeduplicateBullets.
Context `{Py : Runtime}.

Lemma keyed_od_set v d :
  keyed d → keyed (od_set (get_comparison_key v) v d).
Proof.
  intros [Hnd Hkv]. split; [by apply od_set_NoDup|].
  intros k' v' [Hin|[= -> ->]]%od_set_elem; [by apply Hkv|done].
Qed.

Lemma keyed_step d bullet : keyed d → keyed (deduplicate_bullets_step d bullet).
Proof.
  intros Hd. unfold deduplicate_bullets_step.
  set (clean_text := clean_and_deduplicate_text (bullet_text bullet)).
  destruct (truthy (get_comparison_key clean_text)); cbn [negb]; [|done].
  destruct (od_get _ d) as [old|]; [|by apply keyed_od_set].
  destruct (length old <? length clean_text); [by apply keyed_od_set|done].
Qed.

Lemma keyed_foldl bullets d :
  keyed d → keyed (foldl deduplicate_bullets_step d bullets).
Proof.
  revert d. induction bullets as [|b bullets IH]; intros d Hd; [done|].
  simpl. by apply IH, keyed_step.
Qed.

(* the dedup key of a cleaned text is its comparison key *)
Lemma dedup_key_comparison_key s : dedup_key s = get_comparison_key s.
Proof. by rewrite dedup_key_words, get_comparison_key_words. Qed.

(** The sibling of deduplicate_content keeps the promise of C1: no two
    elements of the output of deduplicate_bullets have the same dedup key. *)
Lemma deduplicate_bullets_keys_distinct bullets :
  keys_distinct dedup_key (deduplicate_bullets bullets).
Proof.
  intros i j a b Hij Ha Hb Hab. exfalso.
  unfold deduplicate_bullets in *.
  assert (Hk : keyed (foldl deduplicate_bullets_step [] bullets)).
  { apply keyed_foldl. split; [constructor|]. intros k v Hin. by apply elem_of_nil in Hin. }
  destruct Hk as [Hnd Hkv].
  set (d := foldl deduplicate_bullets_step [] bullets) in *.
  apply list_lookup_fmap_Some in Ha as ([ka va] & -> & Hda).
  apply list_lookup_fmap_Some in Hb as ([kb vb] & -> & Hdb).
  cbn [snd] in Hab. rewrite !dedup_key_comparison_key in Hab.
  rewrite (Hkv ka va), (Hkv kb vb) in Hab
    by (eapply list_elem_of_lookup_2; eassumption).
  subst kb. apply Hij.
  apply (NoDup_lookup _ i j ka Hnd); by rewrite list_lookup_fmap, ?Hda, ?Hdb.
Qed.
End DeduplicateBullets.

(** ** Advantage slide builder: what it writes *)

Section BuilderFacts.
Context `{Py : Runtime}.

(* whenever the record has a title and a "differentiators" list, that list
   is the one extended *)
Lemma create_advantage_slide_extends content product_name store title l :
  content !! "title"%string = Some (FStr title) →
  content !! "differentiators"%string = Some (FList l) →
  (create_advantage_slide content product_name store).1 !! l
  = Some (default [] (store !! l) ++ additional_advantages).
Proof.
  intros Ht Hd. unfold create_advantage_slide, bullets_of. rewrite Ht, Hd.
  destruct (truncate_all _); cbn [fst]; by rewrite lookup_insert_eq.
Qed.

(* every list the name [bullets] is not bound to is left as it was *)
Lemma create_advantage_slide_frame content product_name store l :
  is_Some (store !! l) →
  (∀ k, content !! k ≠ Some (FList l)) →
  (create_advantage_slide content product_name store).1 !! l = store !! l.
Proof.
  intros Hl Hk. unfold create_advantage_slide.
  destruct (content !! "title"%string) as [[title|?]|]; [|done|done].
  assert (Hb : ∀ l0 store0,
             bullets_of content store = (Some (FList l0), store0) →
             l0 ≠ l ∧ store0 !! l = store !! l).
  { unfold bullets_of. intros l0 store0.
    destruct (content !! "differentiators"%string) as [v|] eqn:E1.
    { intros [= -> <-]. split; [|done]. intros ->. by apply (Hk _ E1). }
    destruct (content !! "bullets"%string) as [v|] eqn:E2.
    { intros [= -> <-]. split; [|done]. intros ->. by apply (Hk _ E2). }
    destruct (content !! "advantages"%string) as [v|] eqn:E3.
    { intros [= -> <-]. split; [|done]. intros ->. by apply (Hk _ E3). }
    intros [= <- <-].
    assert (fresh (dom store) ≠ l).
    { intros Hf. apply (is_fresh (dom store)). rewrite Hf. by apply elem_of_dom. }
    split; [done|]. by rewrite lookup_insert_ne. }
  destruct (bullets_of content store) as [[[s|l0]|] store0] eqn:Eb; cbn [fst].
  - unfold bullets_of in Eb.
    destruct (content !! "differentiators"%string); [by injection Eb as _ <-|].
    destruct (content !! "bullets"%string); [by injection Eb as _ <-|].
    destruct (content !! "advantages"%string); [by injection Eb as _ <-|].
    done.
  - destruct (Hb l0 store0 eq_refl) as [Hne Hst].
    destruct (truncate_all _); cbn [fst]; by rewrite lookup_insert_ne.
  - unfold bullets_of in Eb.
    destruct (content !! "differentiators"%string); [done|].
    destruct (content !! "bullets"%string); [done|].
    by destruct (content !! "advantages"%string).
Qed.
(* the market wrapper writes "description" and nothing else *)
Lemma market_wrapper_record_frame content store content' k :
  market_wrapper_record content store = Ok content' →
  k ≠ "description"%string →
  content' !! k = content !! k.
Proof.
  unfold market_wrapper_record. intros Hw Hk.
  destruct (content !! "description"%string) as [[d|l]|]; [| |by injection Hw as <-].
  - destruct (truncate_text_for_slide d (Some 200) (Some 35)); [|done].
    injection Hw as <-. by rewrite lookup_insert_ne.
  - destruct (default [] (store !! l)); [|done].
    injection Hw as <-. by rewrite lookup_insert_ne.
Qed.

Lemma market_wrapper_record_description content store d t :
  content !! "description"%string = Some (FStr d) →
  truncate_text_for_slide d (Some 200) (Some 35) = Ok t →
  market_wrapper_record content store
  = Ok (<["description"%string := FStr t]> content).
Proof. intros Hd Ht. unfold market_wrapper_record. by rewrite Hd, Ht. Qed.
End BuilderFacts.

(* a description that needs no cut still gets its period *)
Example market_wrapper_record_adds_period :
  market_wrapper_record {[ "description"%string := FStr (lit "Growing fast") ]} ∅
  = Ok {[ "description"%string := FStr (lit "Growing fast.") ]}.
Proof. vm_compute. reflexivity. Qed.

(** ** Sentence completion: when it raises *)

Section CompletionTotality.
Context `{Py : Runtime}.

Lemma split_empty_iff s : split s = [] ↔ forallb isspace s = true.
Proof.
  split; [|apply split_all_space].
  intros Hs. apply forallb_forall. intros c Hc%list_elem_of_In.
  destruct (isspace c) eqn:E; [done|].
  by destruct (split_nonempty s c Hc E).
Qed.

(* the repair raises exactly on a non-empty text of which stripping the
   trailing periods and spaces leaves nothing but white space *)
Lemma ensure_complete_sentences_raises_iff text :
  ensure_complete_sentences text = Raise IndexError ↔
  text ≠ [] ∧ forallb isspace (rstrip_chars (lit ". ") text) = true.
Proof.
  destruct text as [|c0 text0]; [by split; [|intros [? _]]|].
  rewrite ensure_complete_sentences_unfold by done.
  set (t := rstrip_chars (lit ". ") (c0 :: text0)).
  destruct (last t) as [c|] eqn:Hc.
  - cbv zeta. split.
    + destruct (last (split (completed t c))) as [w|] eqn:Hw; [done|]. intros _.
      split; [done|]. apply last_None, split_empty_iff in Hw.
      unfold completed in Hw. destruct (isalnum c); [|done].
      rewrite forallb_app in Hw. by apply andb_prop in Hw as [? _].
    + intros [_ Ht].
      assert (Hs : isspace c = true).
      { rewrite forallb_forall in Ht. apply Ht, list_elem_of_In.
        by apply last_Some_elem_of. }
      assert (Ha : isalnum c = false).
      { destruct (isalnum c) eqn:E; [|done].
        apply isalnum_not_space in E. congruence. }
      unfold completed. rewrite Ha.
      apply split_empty_iff in Ht. by rewrite Ht.
  - apply last_None in Hc. rewrite Hc. by split.
Qed.

(* and returns on every other text *)
Lemma ensure_complete_sentences_returns text c :
  c ∈ rstrip_chars (lit ". ") text → isspace c = false →
  ∃ out, ensure_complete_sentences text = Ok out.
Proof.
  intros Hin Hc.
  destruct (ensure_complete_sentences text) as [out|[]] eqn:E; [by exists out| | |].
  - apply ensure_complete_sentences_raises_iff in E as [_ Ht].
    rewrite forallb_forall in Ht. apply list_elem_of_In, Ht in Hin. congruence.
  - exfalso. unfold ensure_complete_sentences in E.
    destruct (truthy text); cbn [negb] in E; [|done].
    destruct (last _); [|done]. by destruct (last (split _)).
  - exfalso. unfold ensure_complete_sentences in E.
    destruct (truthy text); cbn [negb] in E; [|done].
    destruct (last _); [|done]. by destruct (last (split _)).
Qed.
End CompletionTotality.

(** * Properties of the code around the claims *)

(** ** Style names *)

Section StyleFacts.
Context `{Py : Runtime}.

Lemma str_lower_case_variant s k :
  Forall2 case_variant s k → str_lower s = str_lower k.
Proof.
  unfold str_lower. induction 1 as [|c d s k [Hl _] _ IH]; [done|].
  cbn [flat_map]. by rewrite Hl, IH.
Qed.

Lemma str_lower_style_key k :
  k ∈ PRESENTATION_STYLES_keys → str_lower k = k.
Proof.
  intros Hk. rewrite str_lower_ascii.
  - revert Hk. unfold PRESENTATION_STYLES_keys.
    rewrite !fmap_cons, !elem_of_cons, fmap_nil, elem_of_nil.
    by intros [->|[->|[->|[]]]].
  - revert Hk. unfold PRESENTATION_STYLES_keys.
    rewrite !fmap_cons, !elem_of_cons, fmap_nil, elem_of_nil.
    by intros [->|[->|[->|[]]]].
Qed.

Lemma business_is_style_key : lit "business" ∈ PRESENTATION_STYLES_keys.
Proof. unfold PRESENTATION_STYLES_keys. rewrite !fmap_cons, !elem_of_cons. auto. Qed.

Lemma normalize_style_key style :
  normalize_style style ∈ PRESENTATION_STYLES_keys.
Proof.
  destruct style as [style|]; cbn; [|apply business_is_style_key].
  case_bool_decide; [done|apply business_is_style_key].
Qed.

Lemma normalize_style_of_key k :
  k ∈ PRESENTATION_STYLES_keys → normalize_style (Some k) = k.
Proof.
  intros Hk. unfold normalize_style. cbv zeta.
  rewrite (str_lower_style_key k Hk). by rewrite bool_decide_eq_true_2.
Qed.

(** X1. Whatever it is given, normalize_style answers with a key of
    PRESENTATION_STYLES, so that the lookups PRESENTATION_STYLES[style] the
    builders make after it cannot miss; and a name it has answered with is
    left as it is when normalised again. *)
Theorem normalize_style_closed style :
  normalize_style style ∈ PRESENTATION_STYLES_keys ∧
  normalize_style (Some (normalize_style style)) = normalize_style style.
Proof.
  split; [apply normalize_style_key|].
  apply normalize_style_of_key, normalize_style_key.
Qed.

(** X2. The style name is matched without regard to letter case: a string
    that differs from a key of PRESENTATION_STYLES in the case of its
    letters at most is normalised to that key. *)
Theorem normalize_style_ignores_case s k :
  k ∈ PRESENTATION_STYLES_keys →
  Forall2 case_variant s k →
  normalize_style (Some s) = k.
Proof.
  intros Hk Hs. unfold normalize_style. cbv zeta.
  rewrite (str_lower_case_variant s k Hs), (str_lower_style_key k Hk).
  by rewrite bool_decide_eq_true_2.
Qed.

End StyleFacts.

Lemma normalize_style_ignores_case_witness :
  normalize_style (Py := ascii_table) (Some (lit "Executive")) = lit "executive".
Proof.
  apply (normalize_style_ignores_case (Py := ascii_table)).
  - unfold PRESENTATION_STYLES_keys. rewrite !fmap_cons, !elem_of_cons. auto.
  - repeat constructor.
Defined.

(** ** The default order and the build loop *)

Section BuildLoopFacts.
Context {V : Type}.
Implicit Types (content : gmap string V) (persona : str) (tc : team_config).

Lemma persona_slides_NoDup persona : NoDup (persona_slides persona).
Proof.
  unfold persona_slides, persona_groups.
  destruct (str_eqb persona (lit "technical"));
    [|destruct (str_eqb persona (lit "executive"))];
    apply (bool_decide_unpack _); vm_compute; exact I.
Qed.

(* the eight slide types of the three groups are the same for every persona *)
Lemma persona_slides_elem persona t :
  t ∈ persona_slides persona ↔
  t ∈ ["title_slide"; "problem_slide"; "solution_slide"; "features_slide";
       "advantage_slide"; "audience_slide"; "market_slide";
       "roadmap_slide"]%string.
Proof.
  unfold persona_slides, persona_groups.
  destruct (str_eqb persona (lit "technical"));
    [|destruct (str_eqb persona (lit "executive"))];
    cbn [app]; rewrite !elem_of_cons, !elem_of_nil; tauto.
Qed.

Lemma builder_of_Some t :
  is_Some (builder_of t) ↔
  t ∈ ["title_slide"; "problem_slide"; "solution_slide"; "features_slide";
       "advantage_slide"; "audience_slide"; "market_slide";
       "roadmap_slide"; "team_slide"; "cta_slide"]%string.
Proof.
  rewrite !elem_of_cons, elem_of_nil. unfold builder_of.
  repeat match goal with
         | |- context [String.eqb t ?s] =>
             destruct (String.eqb_spec t s) as [->|?]
         end;
    try (split; [intros _; by auto 12|intros _; by eexists]).
  split; [by intros [? ?]|]. intros H; decompose [or] H; done.
Qed.

Lemma default_slide_order_elem content persona tc t :
  t ∈ default_slide_order content persona tc ↔
  (t ∈ persona_slides persona ∧ is_Some (content !! t))
  ∨ (t = "team_slide"%string ∧ include_team_slide tc = true ∧ team_members tc ≠ [])
  ∨ (t = "cta_slide"%string ∧ is_Some (content !! "cta_slide"%string)).
Proof.
  rewrite default_slide_order_unfold. cbv zeta.
  assert (Hne : nonempty (team_members tc) = true ↔ team_members tc ≠ []).
  { by destruct (team_members tc). }
  rewrite <- Hne, <- andb_true_iff, <- (has_key_true content "cta_slide").
  rewrite <- (has_key_true content t).
  destruct (include_team_slide tc && nonempty (team_members tc));
    destruct (has_key content "cta_slide");
    rewrite ?elem_of_app, ?list_elem_of_singleton, elem_of_List_filter;
    intuition congruence.
Qed.

Lemma default_slide_order_NoDup content persona tc :
  NoDup (default_slide_order content persona tc).
Proof.
  rewrite default_slide_order_unfold. cbv zeta.
  set (base := List.filter (has_key content) (persona_slides persona)).
  assert (Hb : NoDup base).
  { apply NoDup_ListNoDup, List.NoDup_filter, NoDup_ListNoDup, persona_slides_NoDup. }
  assert (Hteam : "team_slide"%string ∉ base).
  { intros [Hin _]%elem_of_List_filter. by apply (persona_slides_no_team persona). }
  assert (Hcta : "cta_slide"%string ∉ base).
  { intros [Hin _]%elem_of_List_filter. by apply (persona_slides_no_cta persona). }
  assert (Hsnoc : ∀ (l : list string) x, NoDup l → x ∉ l → NoDup (l ++ [x])).
  { intros l x Hl Hx. apply NoDup_app. split; [done|]. split; [|apply NoDup_singleton].
    intros y Hy ->%list_elem_of_singleton. done. }
  destruct (include_team_slide tc && nonempty (team_members tc));
    destruct (has_key content "cta_slide"); try done.
  - apply Hsnoc; [by apply Hsnoc|].
    rewrite elem_of_app, list_elem_of_singleton. by intros [?|?].
  - by apply Hsnoc.
  - by apply Hsnoc.
Qed.

(** X3. The default order lists nothing twice, and, "team_slide" aside,
    it lists a slide type exactly when the bundle has a record for it and
    the build loop has a builder for it: no supplied slide of a known type
    is left out, and a key of the bundle without a builder, such as
    "metadata", is never scheduled. *)
Theorem default_order_is_the_supplied_slides content persona tc :
  let order := plan_slide_order content persona tc None in
  NoDup order ∧
  ∀ t, t ≠ "team_slide"%string →
       (t ∈ order ↔ is_Some (content !! t) ∧ is_Some (builder_of t)).
Proof.
  cbv zeta. unfold plan_slide_order. split; [apply default_slide_order_NoDup|].
  intros t Ht. rewrite default_slide_order_elem, builder_of_Some, persona_slides_elem.
  rewrite !elem_of_cons, !elem_of_nil.
  split.
  - intros [[Hin Hc]|[[-> _]|[-> Hc]]]; [|done|].
    + split; [done|]. tauto.
    + split; [done|]. tauto.
  - intros [Hc Hin].
    destruct (decide (t = "cta_slide"%string)) as [->|Hn]; [right; right; done|].
    left. split; [|done]. tauto.
Qed.

(** X4. The persona decides the order of the slides and nothing else: for
    one bundle and one team configuration, the default orders of any two
    personas are rearrangements of each other. *)
Theorem persona_only_reorders content persona1 persona2 tc :
  default_slide_order content persona1 tc ≡ₚ default_slide_order content persona2 tc.
Proof.
  apply NoDup_Permutation; [apply default_slide_order_NoDup..|].
  intros t. rewrite !default_slide_order_elem, !persona_slides_elem. done.
Qed.

Lemma persona_slides_head persona :
  ∃ rest, persona_slides persona = "title_slide"%string :: rest.
Proof.
  unfold persona_slides, persona_groups.
  destruct (str_eqb persona (lit "technical"));
    [|destruct (str_eqb persona (lit "executive"))]; by eexists.
Qed.

(* in the default order the title slide comes first: when the bundle has a
   "title_slide" record, the first builder the loop calls is the title
   builder, on that record *)
Lemma build_calls_head_title content persona tc slide_data :
  content !! "title_slide"%string = Some slide_data →
  head (build_calls content persona tc None) = Some (BTitle, slide_data).
Proof.
  intros Ht. unfold build_calls, plan_slide_order.
  rewrite default_slide_order_unfold. cbv zeta.
  destruct (persona_slides_head persona) as [rest ->].
  assert (Hk : has_key content "title_slide" = true).
  { apply has_key_true. by rewrite Ht. }
  cbn [List.filter]. rewrite Hk.
  destruct (include_team_slide tc && nonempty (team_members tc));
    destruct (has_key content "cta_slide"); cbn [app omap list_omap]; by rewrite Ht.
Qed.

End BuildLoopFacts.

(** ** Merger of the persona defaults *)

Lemma fromkeys_foldl_NoDup (acc l : list str) :
  NoDup acc →
  NoDup (foldl (λ keys k, if bool_decide (k ∈ keys) then keys else keys ++ [k]) acc l).
Proof.
  revert acc. induction l as [|k l IH]; intros acc Hacc; [done|].
  cbn [foldl]. apply IH. case_bool_decide; [done|].
  apply NoDup_app. split; [done|]. split; [|apply NoDup_singleton].
  by intros x Hx ->%list_elem_of_singleton.
Qed.

Lemma fromkeys_foldl_elem (acc l : list str) x :
  x ∈ foldl (λ keys k, if bool_decide (k ∈ keys) then keys else keys ++ [k]) acc l
  ↔ x ∈ acc ∨ x ∈ l.
Proof.
  revert acc. induction l as [|k l IH]; intros acc.
  - cbn [foldl]. rewrite elem_of_nil. tauto.
  - cbn [foldl]. rewrite IH, elem_of_cons. case_bool_decide as Hk.
    + split; [tauto|]. intros [?|[->|?]]; auto.
    + rewrite elem_of_app, list_elem_of_singleton. tauto.
Qed.

Lemma fromkeys_foldl_prefix (acc l : list str) :
  acc `prefix_of`
  foldl (λ keys k, if bool_decide (k ∈ keys) then keys else keys ++ [k]) acc l.
Proof.
  revert acc. induction l as [|k l IH]; intros acc; [done|].
  cbn [foldl]. etrans; [|apply IH].
  case_bool_decide; [done|]. by apply prefix_app_r.
Qed.

Lemma dict_fromkeys_NoDup l : NoDup (dict_fromkeys l).
Proof. apply fromkeys_foldl_NoDup. constructor. Qed.

Lemma dict_fromkeys_elem l x : x ∈ dict_fromkeys l ↔ x ∈ l.
Proof.
  unfold dict_fromkeys. rewrite fromkeys_foldl_elem, elem_of_nil. tauto.
Qed.

Lemma dict_fromkeys_app_prefix a b :
  dict_fromkeys a `prefix_of` dict_fromkeys (a ++ b).
Proof.
  unfold dict_fromkeys. rewrite foldl_app. apply fromkeys_foldl_prefix.
Qed.

Lemma hashable_strings a : hashable (IStr <$> a) = Some a.
Proof. induction a as [|s a IH]; [done|]. cbn. by rewrite IH. Qed.

Lemma hashable_None l : hashable l = None ↔ ∃ d, IDict d ∈ l.
Proof.
  induction l as [|[s|d] l IH]; cbn.
  - split; [done|]. by intros [d ?%elem_of_nil].
  - destruct (hashable l) as [keys|]; cbn.
    + split; [done|]. intros [d [?|Hd]%elem_of_cons]; [done|].
      by pose proof (proj2 IH (ex_intro _ d Hd)).
    + split; [|done]. intros _. destruct (proj1 IH eq_refl) as [d Hd].
      exists d. by apply list_elem_of_further.
  - split; [|done]. intros _. exists d. apply list_elem_of_here.
Qed.

Section StoreFacts.
Implicit Types (store st : gmap loc (list item)) (v : field).

Lemma store_extends_refl store : store_extends store store.
Proof. by intros l _. Qed.

Lemma store_extends_trans store1 store2 store3 :
  store_extends store1 store2 → store_extends store2 store3 →
  store_extends store1 store3.
Proof.
  intros H12 H23 l Hl. rewrite <- (H12 l Hl). apply H23. by rewrite (H12 l Hl).
Qed.

Lemma store_extends_fresh store x :
  store_extends store (<[fresh (dom store) := x]> store).
Proof.
  intros l Hl. apply lookup_insert_ne. intros <-.
  apply (is_fresh (dom store)). by apply elem_of_dom.
Qed.

Lemma store_extends_None store st l :
  store_extends store st → st !! l = None → store !! l = None.
Proof.
  intros Hext Hl. destruct (store !! l) eqn:E; [|done].
  rewrite <- (Hext l) in E by (by rewrite E). congruence.
Qed.

Lemma list_at_extends store st l :
  store_extends store st → is_Some (store !! l) → list_at st l = list_at store l.
Proof. intros Hext Hl. unfold list_at. by rewrite (Hext l Hl). Qed.

Lemma field_truthy_extends store st v :
  store_extends store st → field_in_store store v = true →
  field_truthy st v = field_truthy store v.
Proof.
  intros Hext Hv. destruct v as [s|l]; [done|]. cbn in *.
  apply bool_decide_eq_true in Hv. by rewrite (list_at_extends store st l).
Qed.

Lemma field_in_store_extends store st v :
  store_extends store st → field_in_store store v = true →
  field_in_store st v = true.
Proof.
  intros Hext Hv. destruct v as [s|l]; [done|]. cbn in *.
  apply bool_decide_eq_true in Hv. apply bool_decide_eq_true.
  by rewrite (Hext l Hv).
Qed.

Lemma record_in_store_extends store st record :
  store_extends store st → record_in_store store record →
  record_in_store st record.
Proof.
  intros Hext Hr key v Hv. apply (field_in_store_extends store); [done|].
  by apply (Hr key).
Qed.

Lemma field_raises_extends store st mine theirs :
  store_extends store st →
  field_in_store store mine = true →
  (∀ v, theirs = Some v → field_in_store store v = true) →
  field_raises st mine theirs = field_raises store mine theirs.
Proof.
  intros Hext Hm Ht. destruct mine as [s|lm]; [done|].
  destruct theirs as [[s|lt]|]; [done| |done]. cbn in *.
  apply bool_decide_eq_true in Hm.
  specialize (Ht _ eq_refl). apply bool_decide_eq_true in Ht.
  by rewrite !(list_at_extends store st) by done.
Qed.

End StoreFacts.

Section MergerFacts.
Implicit Types (store st : gmap loc (list item)) (v : field).
Implicit Types (record slide_content : gmap string field).

Lemma record_in_store_insert store key v slide_content :
  slide_content !! key = None →
  record_in_store store (<[key := v]> slide_content) →
  field_in_store store v = true ∧ record_in_store store slide_content.
Proof.
  intros Hk Hr. split.
  - apply (Hr key). apply lookup_insert_eq.
  - intros k w Hw. apply (Hr k). rewrite lookup_insert_ne; [done|].
    intros <-. congruence.
Qed.

(* the rounds made so far do not raise, and neither does the round for a
   key whose fields do not raise *)
Lemma merge_raises_insert store record slide_content key v :
  slide_content !! key = None →
  merge_raises store record (<[key := v]> slide_content) ↔
  merge_raises store record slide_content
  ∨ ∃ mine, record !! key = Some mine ∧ field_raises store mine (Some v) = true.
Proof.
  intros Hk. unfold merge_raises. split.
  - intros (k & mine & Hm & Hr).
    destruct (decide (k = key)) as [->|Hne].
    + rewrite lookup_insert_eq in Hr. right. by exists mine.
    + rewrite lookup_insert_ne in Hr by done. left. by exists k, mine.
  - intros [(k & mine & Hm & Hr)|(mine & Hm & Hr)].
    + exists k, mine. split; [done|].
      destruct (decide (k = key)) as [->|Hne].
      * rewrite Hk in Hr. by destruct mine.
      * by rewrite lookup_insert_ne.
    + exists key, mine. by rewrite lookup_insert_eq.
Qed.

Lemma field_outcome_extends store st st' mine theirs result :
  store_extends st st' →
  field_outcome store st mine theirs result →
  field_outcome store st' mine theirs result.
Proof.
  intros Hext. unfold field_outcome.
  destruct theirs as [v|]; [|done]. destruct mine as [m|]; [|done].
  destruct (negb (field_truthy store m)); [done|].
  destruct v as [s|lt]; [done|]. destruct m as [s|lm]; [done|].
  intros (keys & l & Hk & Hr & Hn & Hl). exists keys, l.
  repeat split; try done. rewrite <- Hl. apply Hext. by rewrite Hl.
Qed.

Lemma merge_record_spec store record slide_content :
  record_in_store store record →
  record_in_store store slide_content →
  match merge_record record slide_content store with
  | None => merge_raises store record slide_content
  | Some (merged_content, st) =>
      ¬ merge_raises store record slide_content ∧
      store_extends store st ∧
      ∀ key, field_outcome store st (record !! key) (slide_content !! key)
                           (merged_content !! key)
  end.
Proof.
  intros Hrec. unfold merge_record.
  apply (map_fold_weak_ind
    (λ r m, record_in_store store m →
       match r with
       | None => merge_raises store record m
       | Some (merged_content, st) =>
           ¬ merge_raises store record m ∧ store_extends store st ∧
           ∀ key, field_outcome store st (record !! key) (m !! key)
                                (merged_content !! key)
       end)).
  - intros _. split; [|split].
    + by intros (k & mine & _ & Hr); rewrite lookup_empty in Hr; destruct mine.
    + apply store_extends_refl.
    + intros key. unfold field_outcome. by rewrite lookup_empty.
  - intros i x m r Hi IH Hm.
    apply (record_in_store_insert store i x m Hi) in Hm as [Hx Hm].
    specialize (IH Hm).
    pose proof (merge_raises_insert store record m i x Hi) as Hins.
    destruct r as [[mc st]|]; cbn [merge_field]; [|apply Hins; by left].
    destruct IH as (Hnr & Hext & Hout).
    pose proof (Hout i) as Houti. unfold field_outcome in Houti.
    rewrite Hi in Houti. rewrite Houti.
    assert (Hother : ∀ st' key, key ≠ i → store_extends st st' →
              ∀ mc' : gmap string field, mc' !! key = mc !! key →
              field_outcome store st' (record !! key) (<[i:=x]> m !! key)
                            (mc' !! key)).
    { intros st' key Hne Hst' mc' ->. rewrite lookup_insert_ne by done.
      by apply (field_outcome_extends store st). }
    destruct (record !! i) as [mine|] eqn:Hmine.
    + assert (Hin : field_in_store store mine = true) by (by apply (Hrec i)).
      rewrite (field_truthy_extends store st mine Hext Hin).
      destruct (field_truthy store mine) eqn:Htr; cbn [negb].
      * destruct x as [s|lt].
        { split; [|split; [done|]].
          - intros [?|(mine' & [= <-] & Hr)]%Hins; [done|]. by destruct mine.
          - intros key. destruct (decide (key = i)) as [->|Hne].
            + unfold field_outcome.
              rewrite lookup_insert_eq, Hmine, Htr. cbn [negb].
              by rewrite Houti.
            + by apply Hother. }
        destruct mine as [s|lm].
        { split; [|split; [done|]].
          - intros [?|(mine' & [= <-] & Hr)]%Hins; done.
          - intros key. destruct (decide (key = i)) as [->|Hne].
            + unfold field_outcome.
              rewrite lookup_insert_eq, Hmine, Htr. cbn [negb].
              by rewrite Houti.
            + by apply Hother. }
        cbn in Hin, Hx. apply bool_decide_eq_true in Hin, Hx.
        rewrite !(list_at_extends store st) by done.
        destruct (hashable (list_at store lm ++ list_at store lt)) as [keys|] eqn:Hh.
        -- cbv zeta. split; [|split].
           ++ intros [?|(mine' & [= <-] & Hr)]%Hins; [done|].
              cbn in Hr. rewrite Hh in Hr.
              apply andb_prop in Hr as [_ Hr]. by apply bool_decide_eq_true in Hr.
           ++ eapply store_extends_trans; [done|]. apply store_extends_fresh.
           ++ intros key. destruct (decide (key = i)) as [->|Hne].
              ** unfold field_outcome.
                 rewrite !lookup_insert_eq, Hmine, Htr. cbn [negb].
                 exists keys, (fresh (dom st)). split; [done|]. split; [done|].
                 split; [|by rewrite lookup_insert_eq].
                 apply (store_extends_None store st); [done|].
                 apply not_elem_of_dom, is_fresh.
              ** apply Hother; [done|apply store_extends_fresh|].
                 by rewrite lookup_insert_ne.
        -- apply Hins. right. exists (FList lm). split; [done|]. cbn. rewrite Hh.
           cbn in Htr. by rewrite Htr.
      * split; [|split; [done|]].
        -- intros [?|(mine' & [= <-] & Hr)]%Hins; [done|].
           destruct mine as [s|lm]; [done|]. destruct x as [s|lt]; [done|].
           cbn in Hr, Htr. by rewrite Htr in Hr.
        -- intros key. destruct (decide (key = i)) as [->|Hne].
           ++ unfold field_outcome.
              rewrite !lookup_insert_eq, Hmine, Htr. done.
           ++ apply Hother; [done|apply store_extends_refl|].
              by rewrite lookup_insert_ne.
    + split; [|split; [done|]].
      * by intros [?|(mine' & [=] & _)]%Hins.
      * intros key. destruct (decide (key = i)) as [->|Hne].
        -- unfold field_outcome. by rewrite !lookup_insert_eq, Hmine.
        -- apply Hother; [done|apply store_extends_refl|].
           by rewrite lookup_insert_ne.
Qed.

Lemma merge_raises_extends store st record slide_content :
  store_extends store st →
  record_in_store store record → record_in_store store slide_content →
  merge_raises st record slide_content ↔ merge_raises store record slide_content.
Proof.
  intros Hext Hrec Hsc. unfold merge_raises.
  split; intros (k & mine & Hm & Hr); exists k, mine; split; try done.
  - rewrite <- Hr. symmetry. apply field_raises_extends; [done|by apply (Hrec k)|].
    intros v Hv. by apply (Hsc k).
  - rewrite <- Hr. apply field_raises_extends; [done|by apply (Hrec k)|].
    intros v Hv. by apply (Hsc k).
Qed.

Lemma field_outcome_rebase store st st' mine theirs result :
  store_extends store st →
  (∀ v, mine = Some v → field_in_store store v = true) →
  (∀ v, theirs = Some v → field_in_store store v = true) →
  field_outcome st st' mine theirs result →
  field_outcome store st' mine theirs result.
Proof.
  intros Hext Hm Ht. unfold field_outcome.
  destruct theirs as [v|]; [|done]. destruct mine as [m|]; [|done].
  specialize (Hm _ eq_refl). specialize (Ht _ eq_refl).
  rewrite (field_truthy_extends store st m Hext Hm).
  destruct (negb (field_truthy store m)); [done|].
  destruct v as [s|lt]; [done|]. destruct m as [s|lm]; [done|].
  cbn in Hm, Ht. apply bool_decide_eq_true in Hm, Ht.
  rewrite !(list_at_extends store st) by done.
  intros (keys & l & Hk & Hr & Hn & Hl). exists keys, l.
  repeat split; try done. by apply (store_extends_None store st).
Qed.

Lemma merge_persona_content_spec store persona_content content :
  bundle_in_store store content →
  bundle_in_store store persona_content →
  store_extends store (merge_persona_content persona_content content store).2 ∧
  ∀ t,
    match content !! t with
    | None => (merge_persona_content persona_content content store).1 !! t = None
    | Some record =>
        match persona_content !! t with
        | None =>
            (merge_persona_content persona_content content store).1 !! t
            = Some record
        | Some slide_content =>
            (merge_raises store record slide_content ∧
             (merge_persona_content persona_content content store).1 !! t
             = Some slide_content)
            ∨ (¬ merge_raises store record slide_content ∧
               ∃ merged_content,
                 (merge_persona_content persona_content content store).1 !! t
                 = Some merged_content ∧
                 ∀ key, field_outcome store
                          (merge_persona_content persona_content content store).2
                          (record !! key) (slide_content !! key)
                          (merged_content !! key))
        end
    end.
Proof.
  intros Hcontent. unfold merge_persona_content.
  apply (map_fold_weak_ind
    (λ (r : gmap string (gmap string field) * gmap loc (list item)) m,
       bundle_in_store store m →
       store_extends store r.2 ∧
       ∀ t,
         match content !! t with
         | None => r.1 !! t = None
         | Some record =>
             match m !! t with
             | None => r.1 !! t = Some record
             | Some slide_content =>
                 (merge_raises store record slide_content ∧
                  r.1 !! t = Some slide_content)
                 ∨ (¬ merge_raises store record slide_content ∧
                    ∃ merged_content,
                      r.1 !! t = Some merged_content ∧
                      ∀ key, field_outcome store r.2 (record !! key)
                               (slide_content !! key) (merged_content !! key))
             end
         end)).
  - intros _. split; [apply store_extends_refl|].
    intros t. cbn [fst]. rewrite lookup_empty. by destruct (content !! t).
  - intros i x m [c st] Hi IH Hm. cbn [fst snd] in *.
    assert (Hx : record_in_store store x).
    { apply (Hm i). apply lookup_insert_eq. }
    assert (Hm' : bundle_in_store store m).
    { intros k w Hw. apply (Hm k). rewrite lookup_insert_ne; [done|].
      intros <-. congruence. }
    destruct (IH Hm') as [Hext IHt]. clear IH.
    pose proof (IHt i) as IHi. rewrite Hi in IHi.
    assert (Hrest : ∀ st' t, t ≠ i → store_extends st st' →
      ∀ c' : gmap string (gmap string field), c' !! t = c !! t →
      match content !! t with
      | None => c' !! t = None
      | Some record =>
          match <[i:=x]> m !! t with
          | None => c' !! t = Some record
          | Some slide_content =>
              (merge_raises store record slide_content ∧
               c' !! t = Some slide_content)
              ∨ (¬ merge_raises store record slide_content ∧
                 ∃ merged_content,
                   c' !! t = Some merged_content ∧
                   ∀ key, field_outcome store st' (record !! key)
                            (slide_content !! key) (merged_content !! key))
          end
      end).
    { intros st' t Hne Hst' c' Hc'. rewrite lookup_insert_ne by done.
      rewrite Hc'. pose proof (IHt t) as IHt'.
      destruct (content !! t) as [record|]; [|done].
      destruct (m !! t) as [slide_content|]; [|done].
      destruct IHt' as [?|(Hnr & mc & Hmc & Hout)]; [by left|].
      right. split; [done|]. exists mc. split; [done|].
      intros key. by apply (field_outcome_extends store st). }
    destruct (content !! i) as [record|] eqn:Hci.
    + rewrite IHi.
      assert (Hrec : record_in_store store record) by (by apply (Hcontent i)).
      pose proof (merge_record_spec st record x
                    (record_in_store_extends store st record Hext Hrec)
                    (record_in_store_extends store st x Hext Hx)) as Hspec.
      pose proof (merge_raises_extends store st record x Hext Hrec Hx) as Hraise.
      destruct (merge_record record x st) as [[mc st']|]; cbn [fst snd].
      * destruct Hspec as (Hnr & Hext' & Hout).
        split; [by eapply store_extends_trans|].
        intros t. destruct (decide (t = i)) as [->|Hne].
        -- rewrite Hci, !lookup_insert_eq. right. split; [by rewrite <- Hraise|].
           exists mc. split; [done|]. intros key.
           apply (field_outcome_rebase store st); [done| | |done].
           ++ intros v Hv. by apply (Hrec key).
           ++ intros v Hv. by apply (Hx key).
        -- apply Hrest; [done|done|]. by rewrite lookup_insert_ne.
      * split; [done|].
        intros t. destruct (decide (t = i)) as [->|Hne].
        -- rewrite Hci, !lookup_insert_eq. left. split; [by apply Hraise|done].
        -- apply Hrest; [done|apply store_extends_refl|].
           by rewrite lookup_insert_ne.
    + rewrite IHi. split; [done|].
      intros t. destruct (decide (t = i)) as [->|Hne].
      * by rewrite Hci.
      * apply Hrest; [done|apply store_extends_refl|done].
Qed.

End MergerFacts.

Section MergerProperties.
Implicit Types (store st : gmap loc (list item)) (v : field).
Implicit Types (record slide_content : gmap string field).
Implicit Types (content persona_content : gmap string (gmap string field)).

(* the inner loop changes no list of the store it starts in *)
Lemma merge_record_extends record slide_content store merged_content st :
  merge_record record slide_content store = Some (merged_content, st) →
  store_extends store st.
Proof.
  unfold merge_record. revert merged_content st.
  apply (map_fold_weak_ind
    (λ r (m : gmap string field),
       ∀ merged_content st, r = Some (merged_content, st) → store_extends store st)).
  - intros mc st [= _ <-]. apply store_extends_refl.
  - intros i x m r Hi IH mc st. destruct r as [[mc0 st0]|]; cbn; [|done].
    specialize (IH mc0 st0 eq_refl).
    destruct (mc0 !! i) as [mine|]; [|by intros [= _ <-]].
    destruct (negb (field_truthy st0 mine)); [by intros [= _ <-]|].
    destruct x as [s|lt]; [by intros [= _ <-]|].
    destruct mine as [s|lm]; [by intros [= _ <-]|].
    destruct (hashable _); [|done]. intros [= _ <-].
    eapply store_extends_trans; [done|]. apply store_extends_fresh.
Qed.

Lemma merge_persona_content_frame persona_content content store :
  dom (merge_persona_content persona_content content store).1 = dom content ∧
  (∀ t, persona_content !! t = None →
        (merge_persona_content persona_content content store).1 !! t = content !! t) ∧
  store_extends store (merge_persona_content persona_content content store).2.
Proof.
  unfold merge_persona_content.
  apply (map_fold_weak_ind
    (λ (r : gmap string (gmap string field) * gmap loc (list item)) m,
       dom r.1 = dom content ∧
       (∀ t, m !! t = None → r.1 !! t = content !! t) ∧
       store_extends store r.2)).
  - split; [done|]. split; [done|]. apply store_extends_refl.
  - intros i x m [c st] Hi (Hdom & Hframe & Hext). cbn [fst snd] in *.
    assert (Hins : ∀ (w : gmap string field) (st' : gmap loc (list item)),
              is_Some (c !! i) → store_extends st st' →
              dom (<[i:=w]> c) = dom content ∧
              (∀ t, <[i:=x]> m !! t = None → <[i:=w]> c !! t = content !! t) ∧
              store_extends store st').
    { intros w st' Hci Hst'. split; [|split].
      - rewrite dom_insert_L, <- Hdom.
        apply subseteq_union_1_L, singleton_subseteq_l. by apply elem_of_dom.
      - intros t Ht. apply lookup_insert_None in Ht as [Ht Hne].
        rewrite lookup_insert_ne by done. by apply Hframe.
      - by eapply store_extends_trans. }
    destruct (c !! i) as [record|] eqn:Hci.
    + destruct (merge_record record x st) as [[mc st']|] eqn:Hmr; cbn [fst snd].
      * apply Hins; [done|]. by eapply merge_record_extends.
      * apply Hins; [done|]. apply store_extends_refl.
    + split; [done|]. split; [|done].
      intros t Ht. apply lookup_insert_None in Ht as [Ht Hne]. by apply Hframe.
Qed.

Lemma persona_content_of_cases persona :
  persona_content_of persona = technical_content
  ∨ persona_content_of persona = executive_content
  ∨ persona_content_of persona = business_content.
Proof.
  unfold persona_content_of.
  assert (Hb : PERSONA_CONTENT !! lit "business" = Some business_content).
  { unfold PERSONA_CONTENT. by rewrite !lookup_insert_ne, lookup_singleton_eq. }
  rewrite Hb. cbn [default].
  assert (Hc : ∀ o, PERSONA_CONTENT !! persona = o →
            default business_content o = technical_content
            ∨ default business_content o = executive_content
            ∨ default business_content o = business_content).
  { intros [pc|] E; [|by right; right]. cbn [default].
    unfold PERSONA_CONTENT in E.
    apply lookup_insert_Some in E as [[_ <-]|[_ E]]; [by left|].
    apply lookup_insert_Some in E as [[_ <-]|[_ E]]; [by right; left|].
    apply lookup_singleton_Some in E as [_ <-]. by right; right. }
  by apply Hc.
Qed.

Lemma persona_content_of_slides persona t :
  t ∉ ["problem_slide"; "solution_slide"; "advantage_slide"; "cta_slide"]%string →
  persona_content_of persona !! t = None.
Proof.
  rewrite !not_elem_of_cons. intros (H1 & H2 & H3 & H4 & _).
  destruct (persona_content_of_cases persona) as [->|[->| ->]].
  - unfold technical_content.
    by rewrite !lookup_insert_ne, lookup_singleton_ne by done.
  - unfold executive_content.
    by rewrite !lookup_insert_ne, lookup_singleton_ne by done.
  - unfold business_content.
    by rewrite !lookup_insert_ne, lookup_singleton_ne by done.
Qed.

(** X5. Merging the persona defaults adds no slide to the bundle and
    removes none; for each of the three personas it can change the records
    of "problem_slide", "solution_slide", "advantage_slide" and "cta_slide"
    only, every other entry of the bundle ("metadata" included) is left as
    it was; and it changes no list object that existed before: what it
    builds is built in new lists. *)
Theorem merger_changes_four_slides_at_most persona content store :
  let r := merge_persona_content (persona_content_of persona) content store in
  dom r.1 = dom content ∧
  (∀ t, t ∉ ["problem_slide"; "solution_slide"; "advantage_slide";
             "cta_slide"]%string →
        r.1 !! t = content !! t) ∧
  store_extends store r.2.
Proof.
  cbv zeta.
  destruct (merge_persona_content_frame (persona_content_of persona) content store)
    as (Hdom & Hframe & Hext).
  split; [done|]. split; [|done].
  intros t Ht. by apply Hframe, persona_content_of_slides.
Qed.

(** X6. When the merge of a slide record does not raise, the text the user
    supplied wins: every non-empty string field of the user's record is in
    the merged record unchanged; a field the persona has and the user lacks
    or left empty is taken from the persona; and a field the persona does
    not have is as the user gave it. *)
Theorem merged_record_keeps_user_text store persona_content content t
    record slide_content :
  bundle_in_store store content →
  bundle_in_store store persona_content →
  content !! t = Some record →
  persona_content !! t = Some slide_content →
  ¬ merge_raises store record slide_content →
  ∃ merged_content,
    (merge_persona_content persona_content content store).1 !! t
    = Some merged_content ∧
    (∀ key s, record !! key = Some (FStr s) → s ≠ [] →
              merged_content !! key = Some (FStr s)) ∧
    (∀ key v, slide_content !! key = Some v →
              (record !! key = None
               ∨ ∃ mine, record !! key = Some mine
                         ∧ field_truthy store mine = false) →
              merged_content !! key = Some v) ∧
    (∀ key, slide_content !! key = None →
            merged_content !! key = record !! key).
Proof.
  intros Hc Hpc Hrec Hsc Hnr.
  destruct (merge_persona_content_spec store persona_content content Hc Hpc)
    as [_ Hspec].
  specialize (Hspec t). rewrite Hrec, Hsc in Hspec.
  destruct Hspec as [[? _]|(_ & mc & Hmc & Hout)]; [done|].
  exists mc. split; [done|]. split; [|split].
  - intros key s Hs Hne. specialize (Hout key). unfold field_outcome in Hout.
    rewrite Hs in Hout. destruct (slide_content !! key) as [v|]; [|done].
    cbn in Hout. destruct s; [done|]. cbn in Hout. by destruct v.
  - intros key v Hv Hmine. specialize (Hout key). unfold field_outcome in Hout.
    rewrite Hv in Hout. destruct Hmine as [Hmine|(mine & Hmine & Hf)].
    + by rewrite Hmine in Hout.
    + by rewrite Hmine, Hf in Hout.
  - intros key Hk. specialize (Hout key). unfold field_outcome in Hout.
    by rewrite Hk in Hout.
Qed.

(** X7. Where the user and the persona both have a list under a key (the
    user's not empty, the items strings), the merged record gets a new list
    object: the user's items first, then the persona's items that are not
    among them, each string once; nothing of either list is lost, and only
    exact repetitions are dropped. *)
Theorem merged_lists_are_combined store persona_content content t
    record slide_content key lm lt mine theirs :
  bundle_in_store store content →
  bundle_in_store store persona_content →
  content !! t = Some record →
  persona_content !! t = Some slide_content →
  ¬ merge_raises store record slide_content →
  record !! key = Some (FList lm) →
  slide_content !! key = Some (FList lt) →
  list_at store lm = IStr <$> mine → mine ≠ [] →
  list_at store lt = IStr <$> theirs →
  ∃ merged_content l combined,
    (merge_persona_content persona_content content store).1 !! t
    = Some merged_content ∧
    merged_content !! key = Some (FList l) ∧
    store !! l = None ∧
    (merge_persona_content persona_content content store).2 !! l
    = Some (IStr <$> combined) ∧
    NoDup combined ∧
    (∀ x, x ∈ combined ↔ x ∈ mine ∨ x ∈ theirs) ∧
    dict_fromkeys mine `prefix_of` combined.
Proof.
  intros Hc Hpc Hrec Hsc Hnr Hlm Hlt Hmine Hne Htheirs.
  destruct (merge_persona_content_spec store persona_content content Hc Hpc)
    as [_ Hspec].
  specialize (Hspec t). rewrite Hrec, Hsc in Hspec.
  destruct Hspec as [[? _]|(_ & mc & Hmc & Hout)]; [done|].
  specialize (Hout key). unfold field_outcome in Hout.
  rewrite Hlm, Hlt in Hout. cbn [field_truthy] in Hout.
  assert (Hnz : nonempty (list_at store lm) = true).
  { rewrite Hmine. by destruct mine. }
  rewrite Hnz in Hout. cbn [negb] in Hout. rewrite Hmine, Htheirs in Hout.
  destruct Hout as (keys & l & Hk & Hr & Hn & Hl).
  rewrite <- fmap_app, hashable_strings in Hk. injection Hk as <-.
  exists mc, l, (dict_fromkeys (mine ++ theirs)).
  repeat split; try done.
  - apply dict_fromkeys_NoDup.
  - by intros ?%dict_fromkeys_elem%elem_of_app.
  - intros ?. by apply dict_fromkeys_elem, elem_of_app.
  - apply dict_fromkeys_app_prefix.
Qed.

(** X8. When the user's list under a key for which the persona has a list
    holds a record (a dict) among its items, building the combined list
    raises, the exception is swallowed, and the user's whole slide record,
    title and text included, is replaced by the persona's record. *)
Theorem merge_failure_discards_user_record store persona_content content t
    record slide_content key lm lt d :
  bundle_in_store store content →
  bundle_in_store store persona_content →
  content !! t = Some record →
  persona_content !! t = Some slide_content →
  record !! key = Some (FList lm) →
  slide_content !! key = Some (FList lt) →
  IDict d ∈ list_at store lm →
  (merge_persona_content persona_content content store).1 !! t
  = Some slide_content.
Proof.
  intros Hc Hpc Hrec Hsc Hlm Hlt Hd.
  destruct (merge_persona_content_spec store persona_content content Hc Hpc)
    as [_ Hspec].
  specialize (Hspec t). rewrite Hrec, Hsc in Hspec.
  destruct Hspec as [[_ ?]|(Hnr & _)]; [done|].
  exfalso. apply Hnr. exists key, (FList lm). split; [done|].
  rewrite Hlt. cbn. apply andb_true_intro. split.
  - destruct (list_at store lm); [by apply elem_of_nil in Hd|done].
  - apply bool_decide_eq_true, hashable_None. exists d.
    apply elem_of_app. by left.
Qed.

End MergerProperties.

Lemma session_bundles_in_store :
  bundle_in_store session_store bundle_with_bullets ∧
  bundle_in_store session_store bundle_with_bullet_record ∧
  bundle_in_store session_store bundle_with_bare_advantage ∧
  bundle_in_store session_store (persona_content_of (lit "technical")).
Proof.
  unfold bundle_in_store, record_in_store.
  repeat split; apply (bool_decide_unpack _); vm_compute; exact I.
Qed.

Lemma technical_problem_slide :
  persona_content_of (lit "technical") !! "problem_slide"%string
  = Some {[ "title"%string := FStr (lit "Technical Challenges");
            "bullets"%string := FList 0 ]}.
Proof. vm_compute. reflexivity. Qed.

Lemma technical_advantage_slide :
  persona_content_of (lit "technical") !! "advantage_slide"%string
  = Some {[ "title"%string := FStr (lit "Technical Advantages");
            "bullets"%string := FList 2 ]}.
Proof. vm_compute. reflexivity. Qed.

Lemma merged_record_keeps_user_text_witness :
  ∃ merged_content,
    (merge_persona_content (persona_content_of (lit "technical"))
       bundle_with_bullets session_store).1 !! "problem_slide"%string
    = Some merged_content ∧
    merged_content !! "title"%string = Some (FStr (lit "Why deployments fail")).
Proof.
  pose proof (merged_record_keeps_user_text session_store
                (persona_content_of (lit "technical")) bundle_with_bullets
                "problem_slide" problem_record) as H.
  specialize (H _ (proj1 session_bundles_in_store)
                (proj2 (proj2 (proj2 session_bundles_in_store)))
                eq_refl technical_problem_slide).
  destruct H as (merged_content & Hm & Htext & _).
  - unfold merge_raises. apply (bool_decide_unpack _). vm_compute. exact I.
  - exists merged_content. split; [done|]. by apply Htext.
Defined.

Lemma merged_lists_are_combined_witness :
  ∃ merged_content l combined,
    (merge_persona_content (persona_content_of (lit "technical"))
       bundle_with_bullets session_store).1 !! "problem_slide"%string
    = Some merged_content ∧
    merged_content !! "bullets"%string = Some (FList l) ∧
    session_store !! l = None ∧
    (merge_persona_content (persona_content_of (lit "technical"))
       bundle_with_bullets session_store).2 !! l
    = Some (IStr <$> combined) ∧
    NoDup combined ∧
    (∀ x, x ∈ combined ↔
          x ∈ lit <$> ["Manual deployment and configuration processes";
                       "No rollback plan"]%string
          ∨ x ∈ lit <$> ["Complex integration requirements with legacy systems";
                         "Scalability limitations in current architecture";
                         "Manual deployment and configuration processes";
                         "Limited visibility into system performance metrics";
                         "Technical debt from outdated infrastructure";
                         "Resource-intensive maintenance procedures"]%string) ∧
    dict_fromkeys (lit <$> ["Manual deployment and configuration processes";
                            "No rollback plan"]%string) `prefix_of` combined.
Proof.
  eapply (merged_lists_are_combined session_store
           (persona_content_of (lit "technical")) bundle_with_bullets
           "problem_slide" problem_record _ "bullets" 20 0).
  - apply session_bundles_in_store.
  - apply session_bundles_in_store.
  - reflexivity.
  - apply technical_problem_slide.
  - unfold merge_raises. apply (bool_decide_unpack _). vm_compute. exact I.
  - reflexivity.
  - reflexivity.
  - vm_compute. reflexivity.
  - done.
  - vm_compute. reflexivity.
Defined.

Lemma merge_failure_discards_user_record_witness :
  (merge_persona_content (persona_content_of (lit "technical"))
     bundle_with_bullet_record session_store).1 !! "problem_slide"%string
  = Some {[ "title"%string := FStr (lit "Technical Challenges");
            "bullets"%string := FList 0 ]}.
Proof.
  eapply (merge_failure_discards_user_record session_store
           (persona_content_of (lit "technical")) bundle_with_bullet_record
           "problem_slide" problem_record_with_dict _ "bullets" 21 0
           {[ "point"%string := lit "No rollback plan" ]}).
  - apply session_bundles_in_store.
  - apply session_bundles_in_store.
  - reflexivity.
  - apply technical_problem_slide.
  - reflexivity.
  - reflexivity.
  - vm_compute. apply list_elem_of_here.
Defined.

(** ** The merger and the advantage slide builder *)

Section MergerAndBuilder.
Context `{Py : Runtime}.

(** X9. When the user's advantage slide brings no list of its own (no
    "differentiators", and "bullets" missing or empty) the merge hands the
    builder the persona's own "bullets" list, not a copy, and
    create_advantage_slide appends its three stock advantages to that list:
    the list object of PERSONA_CONTENT is longer after the build than it
    was before. *)
Theorem bare_advantage_slide_extends_persona_list store persona_content content
    record slide_content title lp product_name :
  bundle_in_store store content →
  bundle_in_store store persona_content →
  content !! "advantage_slide"%string = Some record →
  persona_content !! "advantage_slide"%string = Some slide_content →
  ¬ merge_raises store record slide_content →
  record !! "title"%string = Some (FStr title) → title ≠ [] →
  record !! "differentiators"%string = None →
  slide_content !! "differentiators"%string = None →
  (record !! "bullets"%string = None
   ∨ ∃ mine, record !! "bullets"%string = Some mine
             ∧ field_truthy store mine = false) →
  slide_content !! "bullets"%string = Some (FList lp) →
  let r := merge_persona_content persona_content content store in
  ∃ merged_content,
    r.1 !! "advantage_slide"%string = Some merged_content ∧
    (create_advantage_slide merged_content product_name r.2).1 !! lp
    = Some (list_at store lp ++ additional_advantages).
Proof.
  intros Hc Hpc Hrec Hsc Hnr Htitle Hne Hd Hpd Hb Hpb. cbv zeta.
  destruct (merge_persona_content_spec store persona_content content Hc Hpc)
    as [Hext Hspec].
  specialize (Hspec "advantage_slide"%string). rewrite Hrec, Hsc in Hspec.
  destruct Hspec as [[? _]|(_ & mc & Hmc & Hout)]; [done|].
  exists mc. split; [done|].
  assert (Ht : mc !! "title"%string = Some (FStr title)).
  { specialize (Hout "title"%string). unfold field_outcome in Hout.
    rewrite Htitle in Hout.
    destruct (slide_content !! "title"%string) as [v|]; [|done].
    cbn in Hout. destruct title; [done|]. cbn in Hout. by destruct v. }
  assert (Hdiff : mc !! "differentiators"%string = None).
  { specialize (Hout "differentiators"%string). unfold field_outcome in Hout.
    by rewrite Hpd, Hd in Hout. }
  assert (Hbul : mc !! "bullets"%string = Some (FList lp)).
  { specialize (Hout "bullets"%string). unfold field_outcome in Hout.
    rewrite Hpb in Hout. destruct Hb as [Hb|(mine & Hb & Hf)].
    - by rewrite Hb in Hout.
    - by rewrite Hb, Hf in Hout. }
  assert (Hlp : is_Some (store !! lp)).
  { pose proof (Hpc _ _ Hsc _ _ Hpb) as Hin. cbn in Hin.
    by apply bool_decide_eq_true in Hin. }
  unfold create_advantage_slide, bullets_of. rewrite Ht, Hdiff, Hbul.
  set (s2 := (merge_persona_content persona_content content store).2) in *.
  assert (Hl : default [] (s2 !! lp) = list_at store lp).
  { unfold list_at. by rewrite (Hext lp Hlp). }
  rewrite Hl.
  destruct (truncate_all _); cbn [fst]; by rewrite lookup_insert_eq.
Qed.

End MergerAndBuilder.

Lemma bare_advantage_slide_extends_persona_list_witness :
  ∃ merged_content,
    (merge_persona_content (persona_content_of (lit "technical"))
       bundle_with_bare_advantage session_store).1 !! "advantage_slide"%string
    = Some merged_content ∧
    (create_advantage_slide (Py := ascii_table) merged_content (lit "Acme")
       (merge_persona_content (persona_content_of (lit "technical"))
          bundle_with_bare_advantage session_store).2).1 !! 2
    = Some (list_at session_store 2 ++ additional_advantages).
Proof.
  eapply (bare_advantage_slide_extends_persona_list (Py := ascii_table)
           session_store (persona_content_of (lit "technical"))
           bundle_with_bare_advantage bare_advantage_record _
           (lit "Why [Product Name]") 2 (lit "Acme")).
  - apply session_bundles_in_store.
  - apply session_bundles_in_store.
  - reflexivity.
  - apply technical_advantage_slide.
  - unfold merge_raises. apply (bool_decide_unpack _). vm_compute. exact I.
  - reflexivity.
  - done.
  - reflexivity.
  - reflexivity.
  - by left.
  - reflexivity.
Defined.

(** ** Content enrichers *)

Lemma add_expansions_prefix threshold expansions clean_text :
  clean_text `prefix_of` add_expansions threshold expansions clean_text.
Proof.
  revert clean_text. induction expansions as [|e es IH]; intros t; [done|].
  cbn [add_expansions]. destruct (threshold <=? length t); [done|]. cbv zeta.
  etrans; [|apply IH].
  destruct (ends_with_period t).
  - by apply prefix_app_r.
  - rewrite <- app_assoc. by apply prefix_app_r.
Qed.

Lemma add_expansions_long threshold expansions clean_text :
  threshold ≤ length clean_text →
  add_expansions threshold expansions clean_text = clean_text.
Proof.
  intros Hl. destruct expansions as [|e es]; [done|]. cbn [add_expansions].
  by rewrite (proj2 (Nat.leb_le _ _) Hl).
Qed.

(* the loop reaches the threshold when the expansions are long enough *)
Lemma add_expansions_reaches threshold expansions clean_text :
  threshold ≤ length clean_text + expansions_length expansions →
  threshold ≤ length (add_expansions threshold expansions clean_text).
Proof.
  revert clean_text. induction expansions as [|e es IH]; intros t Hl.
  - cbn in *. lia.
  - cbn [add_expansions]. destruct (threshold <=? length t) eqn:E.
    + by apply Nat.leb_le.
    + cbv zeta. apply IH. cbn [expansions_length] in Hl.
      destruct (ends_with_period t); rewrite !length_app; cbn [length lit]; cbn; lia.
Qed.

(* and overshoots it by one expansion, its space and a period at most *)
Lemma add_expansions_bound threshold expansions clean_text bound :
  Forall (λ e, length e ≤ bound) expansions →
  length clean_text < threshold →
  length (add_expansions threshold expansions clean_text) ≤ threshold + bound + 1.
Proof.
  intros Hb. revert clean_text.
  induction Hb as [|e es He Hes IH]; intros t Hl; [cbn; lia|].
  cbn [add_expansions]. rewrite (proj2 (Nat.leb_gt _ _) Hl). cbv zeta.
  set (t' := (if ends_with_period t then t else t ++ lit ".") ++ lit " " ++ e).
  assert (Ht' : length t' ≤ threshold + bound + 1).
  { unfold t'. destruct (ends_with_period t); rewrite !length_app; cbn; lia. }
  destruct (decide (length t' < threshold)) as [Hlt|Hge]; [by apply IH|].
  rewrite add_expansions_long by lia. done.
Qed.

Lemma ends_with_period_snoc s e :
  ends_with_period e = true → ends_with_period (s ++ e) = true.
Proof.
  unfold ends_with_period. destruct (last e) as [c|] eqn:E; [|done].
  intros Hc. destruct e as [|c0 e] using rev_ind; [done|].
  rewrite last_snoc in E. injection E as ->.
  by rewrite app_assoc, last_snoc.
Qed.

(* a text that was expanded ends with the period of its last expansion *)
Lemma add_expansions_period threshold expansions clean_text :
  Forall (λ e, ends_with_period e = true) expansions →
  expansions ≠ [] → length clean_text < threshold →
  ends_with_period (add_expansions threshold expansions clean_text) = true.
Proof.
  intros Hp. revert clean_text.
  induction Hp as [|e es He Hes IH]; intros t Hne Hl; [done|].
  cbn [add_expansions]. rewrite (proj2 (Nat.leb_gt _ _) Hl). cbv zeta.
  set (t' := (if ends_with_period t then t else t ++ lit ".") ++ lit " " ++ e).
  assert (Ht' : ends_with_period t' = true).
  { unfold t'. rewrite app_assoc. by apply ends_with_period_snoc. }
  destruct es as [|e' es']; [done|].
  destruct (decide (length t' < threshold)) as [Hlt|Hge]; [by apply IH|].
  rewrite add_expansions_long by lia. done.
Qed.

(* rounds that all run: the text gets every expansion *)
Lemma add_expansions_all threshold expansions clean_text :
  length clean_text + expansions_length expansions + length expansions ≤ threshold →
  length clean_text + expansions_length expansions
  ≤ length (add_expansions threshold expansions clean_text).
Proof.
  revert clean_text. induction expansions as [|e es IH]; intros t Hl.
  - cbn in *. lia.
  - cbn [add_expansions expansions_length length] in *.
    rewrite (proj2 (Nat.leb_gt threshold (length t))) by lia. cbv zeta.
    etrans; [|apply IH].
    + destruct (ends_with_period t); rewrite !length_app; cbn; lia.
    + destruct (ends_with_period t); rewrite !length_app; cbn; lia.
Qed.

Section EnricherFacts.
Context `{Py : Runtime}.

Lemma lstrip_by_all P s : forallb P s = true → lstrip_by P s = [].
Proof.
  induction s as [|c s IH]; [done|]. cbn. intros [Hc Hs]%andb_prop.
  rewrite Hc. by apply IH.
Qed.

Lemma strip_all_space s : forallb isspace s = true → strip s = [].
Proof. intros Hs. unfold strip. by rewrite lstrip_by_all. Qed.

Lemma lstrip_by_head P s c s' :
  lstrip_by P s = c :: s' → P c = false.
Proof.
  induction s as [|d s IH]; [done|]. cbn. destruct (P d) eqn:E; [done|].
  by intros [= <- _].
Qed.

Lemma strip_idemp s : strip (strip s) = strip s.
Proof.
  unfold strip. destruct (lstrip_by isspace s) as [|c u] eqn:E; [done|].
  pose proof (lstrip_by_head _ _ _ _ E) as Hc.
  assert (Hr : ∃ r, rstrip_by isspace (c :: u) = c :: r).
  { cbn. destruct (rstrip_by isspace u); [|by eexists].
    rewrite Hc. by eexists. }
  destruct Hr as [r Hr]. rewrite Hr. cbn [lstrip_by]. rewrite Hc.
  rewrite <- Hr. apply rstrip_by_idemp.
Qed.

(** X10. The four enrichers always reach their length: whatever the text
    and the product name, expand_advantage_content,
    expand_audience_content and expand_market_content return at least 200
    characters and expand_cta_content at least 100. *)
Theorem enrichers_reach_their_thresholds text product_name :
  200 ≤ length (expand_advantage_content text product_name) ∧
  200 ≤ length (expand_audience_content text product_name) ∧
  200 ≤ length (expand_market_content text) ∧
  100 ≤ length (expand_cta_content text).
Proof.
  assert (Hgen : ∀ threshold expansions t,
            threshold ≤ expansions_length expansions →
            threshold ≤ length (if length t <? threshold
                                then add_expansions threshold expansions t
                                else t)).
  { intros threshold expansions t Hl.
    destruct (length t <? threshold) eqn:E.
    - apply add_expansions_reaches. lia.
    - by apply Nat.ltb_ge. }
  repeat split; apply Hgen; vm_compute; lia.
Qed.

(** X11. The text expand_audience_content returns begins with the text it
    was given (stripped, and with the product name filled in); a text of
    200 characters or more is returned as it is; a shorter one is extended
    to at most 282 characters and then ends with a period. *)
Theorem audience_text_is_extended text product_name :
  let clean_text :=
    if truthy product_name
    then replace PRODUCT_NAME product_name (strip text) else strip text in
  clean_text `prefix_of` expand_audience_content text product_name ∧
  (200 ≤ length clean_text →
   expand_audience_content text product_name = clean_text) ∧
  (length clean_text < 200 →
   length (expand_audience_content text product_name) ≤ 282 ∧
   ends_with_period (expand_audience_content text product_name) = true).
Proof.
  cbv zeta. unfold expand_audience_content. cbv zeta.
  set (clean_text := if truthy product_name
                     then replace PRODUCT_NAME product_name (strip text)
                     else strip text).
  split; [|split].
  - destruct (length clean_text <? 200); [apply add_expansions_prefix|done].
  - intros Hl. by rewrite (proj2 (Nat.ltb_ge _ _) Hl).
  - intros Hl. rewrite (proj2 (Nat.ltb_lt _ _) Hl). split.
    + apply (add_expansions_bound 200 audience_expansions clean_text 81); [|done].
      apply Forall_forall. intros e He.
      assert (Hb : forallb (λ e, length e <=? 81) audience_expansions = true)
        by (vm_compute; reflexivity).
      rewrite forallb_forall in Hb. apply Nat.leb_le, Hb. by apply list_elem_of_In.
    + apply add_expansions_period; [|done|done].
      apply Forall_forall. intros e He.
      assert (Hb : forallb ends_with_period audience_expansions = true)
        by (vm_compute; reflexivity).
      rewrite forallb_forall in Hb. apply Hb. by apply list_elem_of_In.
Qed.

(** X12. Given no text (an empty string, or white space only, which is
    what create_audience_slide passes when the record has none of
    "paragraph", "description" and "content"), expand_audience_content
    returns its first three expansions behind a period of their own: the
    text on the slide starts with ". These organizations". *)
Theorem audience_text_for_no_text text product_name :
  forallb isspace text = true →
  expand_audience_content text product_name
  = lit ". These organizations face increasing pressure to modernize their operations. Decision-makers in this segment prioritize efficiency and reliability. The need for comprehensive solutions continues to grow.".
Proof.
  intros Hs. unfold expand_audience_content.
  rewrite (strip_all_space text Hs). cbv zeta.
  assert (Hr : (if truthy product_name
                then replace PRODUCT_NAME product_name [] else []) = []).
  { by destruct (truthy product_name). }
  rewrite Hr. vm_compute. reflexivity.
Qed.

Lemma content_expansions_lengths content_type :
  let content_expansions :=
    default (default [] (expansions !! "solution"%string))
            (expansions !! content_type) in
  280 ≤ expansions_length content_expansions ∧
  expansions_length content_expansions ≤ 306 ∧
  length content_expansions = 4.
Proof.
  cbv zeta.
  assert (Hc : ∀ o, expansions !! content_type = o →
            280 ≤ expansions_length
                    (default (default [] (expansions !! "solution"%string)) o) ∧
            expansions_length
              (default (default [] (expansions !! "solution"%string)) o) ≤ 306 ∧
            length (default (default [] (expansions !! "solution"%string)) o) = 4).
  { intros [a|] E; cbn [default]; [|vm_compute; lia].
    unfold expansions in E.
    apply lookup_insert_Some in E as [[_ <-]|[_ E]]; [vm_compute; lia|].
    apply lookup_insert_Some in E as [[_ <-]|[_ E]]; [vm_compute; lia|].
    apply lookup_insert_Some in E as [[_ <-]|[_ E]]; [vm_compute; lia|].
    apply lookup_singleton_Some in E as [_ <-]. vm_compute; lia. }
  by apply Hc.
Qed.

Lemma add_expansions_at_most threshold expansions clean_text :
  length (add_expansions threshold expansions clean_text)
  ≤ length clean_text + expansions_length expansions + length expansions.
Proof.
  revert clean_text. induction expansions as [|e es IH]; intros t.
  - cbn. lia.
  - cbn [add_expansions expansions_length length].
    destruct (threshold <=? length t); [lia|]. cbv zeta.
    etrans; [apply IH|].
    destruct (ends_with_period t); rewrite !length_app; cbn; lia.
Qed.

Lemma expand_content_intelligently_short clean_text content_type :
  clean_text ≠ [] → strip clean_text = clean_text → length clean_text < 75 →
  clean_text `prefix_of` expand_content_intelligently clean_text content_type ∧
  length clean_text + 280
  ≤ length (expand_content_intelligently clean_text content_type) ∧
  length (expand_content_intelligently clean_text content_type) < 400.
Proof.
  intros Hne Hs Hl. unfold expand_content_intelligently.
  destruct (truthy clean_text) eqn:Ht; [|by destruct clean_text].
  cbn [negb]. rewrite Hs. cbv zeta.
  rewrite (proj2 (Nat.ltb_lt (length clean_text) 400)) by lia.
  destruct (content_expansions_lengths content_type) as (Hlo & Hhi & Hlen).
  cbv zeta in Hlo, Hhi, Hlen.
  set (a := default (default [] (expansions !! "solution"%string))
                    (expansions !! content_type)) in *.
  split; [apply add_expansions_prefix|].
  pose proof (add_expansions_all 400 a clean_text) as Hall.
  pose proof (add_expansions_at_most 400 a clean_text) as Hmost.
  lia.
Qed.

(** X13. enhance_bullet_content returns as many bullets as it is given, in
    their order, each beginning with the stripped bullet. A bullet of 75
    characters or more is only stripped, and an empty one stays empty; a
    shorter one is given all four additions of its content type, so that
    it grows by at least 280 characters and stays under 400. *)
Theorem enhance_bullet_content_lengths bullets content_type :
  length (enhance_bullet_content bullets content_type) = length bullets ∧
  ∀ i bullet, bullets !! i = Some bullet →
    ∃ out,
      enhance_bullet_content bullets content_type !! i = Some out ∧
      strip bullet `prefix_of` out ∧
      (strip bullet = [] → out = []) ∧
      (75 ≤ length (strip bullet) → out = strip bullet) ∧
      (strip bullet ≠ [] → length (strip bullet) < 75 →
       length (strip bullet) + 280 ≤ length out ∧ length out < 400).
Proof.
  unfold enhance_bullet_content. split; [apply length_fmap|].
  intros i bullet Hb. rewrite list_lookup_fmap, Hb. cbn [fmap option_fmap option_map].
  eexists. split; [done|]. cbv zeta.
  destruct (length (strip bullet) <? 75) eqn:E.
  - apply Nat.ltb_lt in E.
    destruct (decide (strip bullet = [])) as [H0|Hne].
    + rewrite H0. cbn. repeat split; try done; lia.
    + destruct (expand_content_intelligently_short (strip bullet) content_type
                  Hne (strip_idemp bullet) E) as (Hp & Hlo & Hhi).
      split; [done|]. split; [done|]. split; [lia|]. done.
  - apply Nat.ltb_ge in E. split; [done|]. split; [|split; [done|lia]].
    intros H0. rewrite H0 in E. cbn in E. lia.
Qed.

End EnricherFacts.

Lemma audience_text_for_no_text_witness :
  expand_audience_content (Py := ascii_table) (lit "  ") (lit "Acme")
  = lit ". These organizations face increasing pressure to modernize their operations. Decision-makers in this segment prioritize efficiency and reliability. The need for comprehensive solutions continues to grow.".
Proof.
  apply (audience_text_for_no_text (Py := ascii_table)). reflexivity.
Defined.

(** ** Deduplication of bullets: which bullets stay, and in which order *)

Lemma od_set_fst k v d :
  (od_set k v d).*1 = if bool_decide (k ∈ d.*1) then d.*1 else d.*1 ++ [k].
Proof.
  induction d as [|[k' v'] d IH]; [done|].
  cbn [od_set]. unfold str_eqb.
  destruct (decide (k' = k)) as [->|Hk].
  - rewrite (bool_decide_eq_true_2 (k = k)) by done.
    rewrite bool_decide_eq_true_2; [done|]. apply list_elem_of_here.
  - rewrite (bool_decide_eq_false_2 (k' = k)) by done.
    rewrite !fmap_cons, IH. cbn [fst].
    destruct (decide (k ∈ d.*1)) as [Hin|Hin].
    + rewrite (bool_decide_eq_true_2 _ Hin).
      rewrite bool_decide_eq_true_2; [done|]. by apply list_elem_of_further.
    + rewrite (bool_decide_eq_false_2 _ Hin).
      rewrite bool_decide_eq_false_2; [done|].
      intros [?|?]%elem_of_cons; [by subst|done].
Qed.

Lemma od_get_None k d : od_get k d = None ↔ k ∉ d.*1.
Proof.
  induction d as [|[k' v'] d IH]; cbn.
  - split; [intros _; apply not_elem_of_nil|done].
  - unfold str_eqb. case_bool_decide as Hk.
    + subst k'. split; [done|]. intros Hn. exfalso. apply Hn, list_elem_of_here.
    + rewrite IH, not_elem_of_cons. split; [by split|by intros [_ ?]].
Qed.

Lemma od_get_Some k d v : od_get k d = Some v → (k, v) ∈ d.
Proof.
  induction d as [|[k' v'] d IH]; cbn; [done|].
  unfold str_eqb. case_bool_decide as Hk.
  - subst k'. intros [= ->]. apply list_elem_of_here.
  - intros Hg. by apply list_elem_of_further, IH.
Qed.

Lemma od_get_elem k d v : NoDup d.*1 → (k, v) ∈ d → od_get k d = Some v.
Proof.
  induction d as [|[k' v'] d IH]; cbn.
  - by intros _ ?%elem_of_nil.
  - intros [Hk Hd]%NoDup_cons. unfold str_eqb.
    intros [[= -> ->]|Hin]%elem_of_cons.
    + by rewrite bool_decide_eq_true_2.
    + rewrite bool_decide_eq_false_2; [by apply IH|].
      intros ->. apply Hk. apply list_elem_of_fmap. by exists (k, v).
Qed.

Lemma od_set_same k v d : (k, v) ∈ od_set k v d.
Proof.
  induction d as [|[k' v'] d IH]; cbn; [apply list_elem_of_here|].
  unfold str_eqb. case_bool_decide as Hk.
  - subst k'. apply list_elem_of_here.
  - by apply list_elem_of_further.
Qed.

Lemma od_set_other k v d k' v' :
  (k', v') ∈ d → k' ≠ k → (k', v') ∈ od_set k v d.
Proof.
  intros Hin Hne. induction d as [|[k0 v0] d IH]; [by apply elem_of_nil in Hin|].
  cbn. unfold str_eqb. case_bool_decide as Hk.
  - subst k0. apply elem_of_cons in Hin as [[= ? ?]|Hin]; [done|].
    by apply list_elem_of_further.
  - apply elem_of_cons in Hin as [->|Hin]; [apply list_elem_of_here|].
    by apply list_elem_of_further, IH.
Qed.

Section DeduplicateBulletsOrder.
Context `{Py : Runtime}.

Lemma truthy_nonempty (s : str) : truthy s = true ↔ s ≠ [].
Proof. by destruct s. Qed.

Lemma deduplicate_bullets_step_fst d bullet :
  (deduplicate_bullets_step d bullet).*1 =
  if truthy (dedup_key (bullet_text bullet))
  then (if bool_decide (dedup_key (bullet_text bullet) ∈ d.*1) then d.*1
        else d.*1 ++ [dedup_key (bullet_text bullet)])
  else d.*1.
Proof.
  unfold deduplicate_bullets_step, dedup_key. cbv zeta.
  set (clean_text := clean_and_deduplicate_text (bullet_text bullet)).
  set (key := get_comparison_key clean_text).
  destruct (truthy key); cbn [negb]; [|done].
  destruct (od_get key d) as [old|] eqn:E.
  - assert (Hin : key ∈ d.*1).
    { apply od_get_Some in E. apply list_elem_of_fmap. by exists (key, old). }
    rewrite (bool_decide_eq_true_2 _ Hin).
    destruct (length old <? length clean_text); [|done].
    by rewrite od_set_fst, (bool_decide_eq_true_2 _ Hin).
  - apply od_get_None in E. by rewrite od_set_fst.
Qed.

Lemma deduplicate_bullets_fold_fst bullets d :
  (foldl deduplicate_bullets_step d bullets).*1 =
  foldl (λ keys k, if bool_decide (k ∈ keys) then keys else keys ++ [k]) d.*1
        (List.filter truthy (dedup_key ∘ bullet_text <$> bullets)).
Proof.
  revert d. induction bullets as [|b bs IH]; intros d; [done|].
  cbn [foldl fmap list_fmap List.filter compose].
  rewrite IH, deduplicate_bullets_step_fst.
  by destruct (truthy (dedup_key (bullet_text b))).
Qed.

Lemma keyed_values d :
  keyed d → get_comparison_key <$> d.*2 = d.*1.
Proof.
  intros [_ Hkv]. induction d as [|[k v] d IH]; [done|].
  cbn. rewrite (Hkv k v) by apply list_elem_of_here. f_equal.
  apply IH. intros k' v' Hin. by apply Hkv, list_elem_of_further.
Qed.

Lemma keyed_nil : keyed [].
Proof. split; [constructor|]. by intros k v ?%elem_of_nil. Qed.

(** X14. The bullets deduplicate_bullets returns have exactly the
    comparison keys of the bullets it is given, the empty key left out,
    each key once and in the order in which the keys first occur: a bullet
    whose key is empty is dropped, and a later bullet never moves an
    earlier one. *)
Theorem deduplicate_bullets_keys_in_first_occurrence_order bullets :
  get_comparison_key <$> deduplicate_bullets bullets
  = dict_fromkeys (List.filter truthy (dedup_key ∘ bullet_text <$> bullets)).
Proof.
  unfold deduplicate_bullets.
  rewrite (keyed_values _ (keyed_foldl bullets [] keyed_nil)).
  apply deduplicate_bullets_fold_fst.
Qed.

(* what the dict of deduplicate_bullets holds after the bullets [seen] *)
Lemma deduplicate_bullets_invariant seen :
  let d := foldl deduplicate_bullets_step [] seen in
  (∀ k v, (k, v) ∈ d →
     k ≠ [] ∧ ∃ b, b ∈ seen ∧ v = clean_and_deduplicate_text (bullet_text b)) ∧
  (∀ b, b ∈ seen → dedup_key (bullet_text b) ≠ [] →
     ∃ v, (dedup_key (bullet_text b), v) ∈ d ∧
          length (clean_and_deduplicate_text (bullet_text b)) ≤ length v).
Proof.
  induction seen as [|b seen IH] using rev_ind.
  - cbn. split; [by intros k v ?%elem_of_nil|by intros b ?%elem_of_nil].
  - cbv zeta in *. rewrite foldl_app. cbn [foldl].
    pose proof (keyed_foldl seen [] keyed_nil) as [Hnd Hkv].
    set (d := foldl deduplicate_bullets_step [] seen) in *.
    destruct IH as [IH1 IH2].
    unfold deduplicate_bullets_step. cbv zeta.
    set (clean_text := clean_and_deduplicate_text (bullet_text b)).
    set (key := get_comparison_key clean_text).
    assert (Hkey : dedup_key (bullet_text b) = key) by done.
    assert (Hold : ∀ k v, (k, v) ∈ d →
              k ≠ [] ∧ ∃ b0, b0 ∈ seen ++ [b] ∧
                             v = clean_and_deduplicate_text (bullet_text b0)).
    { intros k v Hin. destruct (IH1 k v Hin) as (Hk & b0 & Hb0 & Hv).
      split; [done|]. exists b0. split; [|done]. apply elem_of_app. by left. }
    assert (Hnew : key ≠ [] → ∀ k v, (k, v) ∈ od_set key clean_text d →
              k ≠ [] ∧ ∃ b0, b0 ∈ seen ++ [b] ∧
                             v = clean_and_deduplicate_text (bullet_text b0)).
    { intros Hne k v [Hin|[= -> ->]]%od_set_elem; [by apply Hold|].
      split; [done|]. exists b. split; [|done].
      apply elem_of_app. right. apply list_elem_of_here. }
    destruct (truthy key) eqn:Ht; cbn [negb].
    + apply truthy_nonempty in Ht.
      destruct (od_get key d) as [old|] eqn:E.
      * destruct (length old <? length clean_text) eqn:El.
        -- apply Nat.ltb_lt in El. split; [by apply Hnew|].
           intros b0 [Hb0| ->%list_elem_of_singleton]%elem_of_app Hk0.
           ++ destruct (IH2 b0 Hb0 Hk0) as (v & Hv & Hl).
              destruct (decide (dedup_key (bullet_text b0) = key)) as [Heq|Hne].
              ** exists clean_text. rewrite Heq. split; [apply od_set_same|].
                 rewrite Heq in Hv.
                 rewrite (od_get_elem key d v Hnd Hv) in E. injection E as ->. lia.
              ** exists v. split; [by apply od_set_other|done].
           ++ exists clean_text. split; [apply od_set_same|done].
        -- apply Nat.ltb_ge in El. split; [done|].
           intros b0 [Hb0| ->%list_elem_of_singleton]%elem_of_app Hk0.
           ++ by apply IH2.
           ++ exists old. split; [by apply od_get_Some|done].
      * apply od_get_None in E. split; [by apply Hnew|].
        intros b0 [Hb0| ->%list_elem_of_singleton]%elem_of_app Hk0.
        -- destruct (IH2 b0 Hb0 Hk0) as (v & Hv & Hl).
           exists v. split; [|done]. apply od_set_other; [done|].
           intros Heq. apply E. rewrite <- Heq.
           apply list_elem_of_fmap. by exists (dedup_key (bullet_text b0), v).
        -- exists clean_text. split; [apply od_set_same|done].
    + split; [done|].
      intros b0 [Hb0| ->%list_elem_of_singleton]%elem_of_app Hk0; [by apply IH2|].
      rewrite Hkey in Hk0. by destruct key.
Qed.

(** X15. Every bullet deduplicate_bullets returns is the cleaned text of
    one of the bullets it was given and has a comparison key that is not
    empty; and every bullet given whose key is not empty is represented in
    the result by a bullet of the same key that is at least as long as its
    own cleaned text: of the variants of a bullet the longest stays. *)
Theorem deduplicate_bullets_keeps_the_longest bullets :
  let out := deduplicate_bullets bullets in
  (∀ v, v ∈ out →
     get_comparison_key v ≠ [] ∧
     ∃ b, b ∈ bullets ∧ v = clean_and_deduplicate_text (bullet_text b)) ∧
  (∀ b, b ∈ bullets → dedup_key (bullet_text b) ≠ [] →
     ∃ v, v ∈ out ∧ get_comparison_key v = dedup_key (bullet_text b) ∧
          length (clean_and_deduplicate_text (bullet_text b)) ≤ length v).
Proof.
  cbv zeta. unfold deduplicate_bullets.
  destruct (deduplicate_bullets_invariant bullets) as [H1 H2].
  pose proof (keyed_foldl bullets [] keyed_nil) as [Hnd Hkv].
  cbv zeta in H1, H2.
  set (d := foldl deduplicate_bullets_step [] bullets) in *.
  split.
  - intros v Hv. apply list_elem_of_fmap in Hv as ([k v'] & -> & Hin).
    cbn [snd]. destruct (H1 k v' Hin) as [Hk Hb].
    split; [|done]. by rewrite (Hkv k v' Hin).
  - intros b Hb Hk. destruct (H2 b Hb Hk) as (v & Hv & Hl).
    exists v. split; [|split; [by apply Hkv|done]].
    apply list_elem_of_fmap. by exists (dedup_key (bullet_text b), v).
Qed.

End DeduplicateBulletsOrder.

(** ** Deduplication of content items *)

Section DeduplicateContentFacts.
Context `{Py : Runtime}.

Lemma get_comparison_key_nil : get_comparison_key [] = [].
Proof. done. Qed.

(* what the dict and the list of deduplicate_content hold after the items
   [seen] *)
Lemma deduplicate_content_invariant product_name seen :
  let st := foldl (deduplicate_content_step product_name) (∅, []) seen in
  (∀ k v, st.1 !! k = Some v →
     ∃ it, it ∈ seen ∧ kept_form product_name it ∈ st.2 ∧
           item_key it = k ∧ v = clean_and_deduplicate_text (item_text it)) ∧
  (∀ it, it ∈ seen → item_key it ≠ [] →
     ∃ v, st.1 !! item_key it = Some v ∧
          length (clean_and_deduplicate_text (item_text it)) ≤ length v) ∧
  (∀ o, o ∈ st.2 →
     ∃ it, it ∈ seen ∧ o = kept_form product_name it ∧ item_key it ≠ []).
Proof.
  induction seen as [|it seen IH] using rev_ind.
  - cbn. split; [by intros k v ?|]. split; [by intros it ?%elem_of_nil|].
    by intros o ?%elem_of_nil.
  - cbv zeta in *. rewrite foldl_app. cbn [foldl].
    destruct (foldl (deduplicate_content_step product_name) (∅, []) seen)
      as [seen_points cleaned_content].
    cbn [fst snd] in IH. destruct IH as (IH1 & IH2 & IH3).
    unfold deduplicate_content_step.
    set (clean_text := clean_and_deduplicate_text (item_text it)).
    set (key := get_comparison_key clean_text).
    assert (Hkey : item_key it = key) by done.
    assert (Hskip : key = [] →
      (∀ k v, seen_points !! k = Some v →
         ∃ it0, it0 ∈ seen ++ [it] ∧ kept_form product_name it0 ∈ cleaned_content ∧
                item_key it0 = k ∧ v = clean_and_deduplicate_text (item_text it0)) ∧
      (∀ it0, it0 ∈ seen ++ [it] → item_key it0 ≠ [] →
         ∃ v, seen_points !! item_key it0 = Some v ∧
              length (clean_and_deduplicate_text (item_text it0)) ≤ length v) ∧
      (∀ o, o ∈ cleaned_content →
         ∃ it0, it0 ∈ seen ++ [it] ∧ o = kept_form product_name it0
                ∧ item_key it0 ≠ [])).
    { intros Hk. split; [|split].
      - intros k v Hv. destruct (IH1 k v Hv) as (it0 & Hin & ?).
        exists it0. split; [|done]. apply elem_of_app. by left.
      - intros it0 [Hin| ->%list_elem_of_singleton]%elem_of_app Hne.
        + by apply IH2.
        + by rewrite Hkey in Hne.
      - intros o Ho. destruct (IH3 o Ho) as (it0 & Hin & ?).
        exists it0. split; [|done]. apply elem_of_app. by left. }
    destruct (truthy clean_text) eqn:Hc; cbn [negb].
    2:{ apply Hskip. unfold key. destruct clean_text; [done|discriminate]. }
    destruct (truthy key) eqn:Ht; cbn [negb].
    2:{ apply Hskip. by destruct key. }
    assert (Hne : key ≠ []) by (by destruct key).
    destruct (longer_or_new seen_points key clean_text) eqn:El.
    2:{ unfold longer_or_new in El.
        destruct (seen_points !! key) as [old|] eqn:Eold; [|done].
        apply Nat.ltb_ge in El.
        split; [|split].
        - intros k v Hv. destruct (IH1 k v Hv) as (it0 & Hin & ?).
          exists it0. split; [|done]. apply elem_of_app. by left.
        - intros it0 [Hin| ->%list_elem_of_singleton]%elem_of_app Hk0.
          + by apply IH2.
          + rewrite Hkey. by exists old.
        - intros o Ho. destruct (IH3 o Ho) as (it0 & Hin & ?).
          exists it0. split; [|done]. apply elem_of_app. by left. }
    assert (Hst : ∀ out',
      out' = cleaned_content ++ [kept_form product_name it] →
      (∀ k v, <[key:=clean_text]> seen_points !! k = Some v →
         ∃ it0, it0 ∈ seen ++ [it] ∧ kept_form product_name it0 ∈ out' ∧
                item_key it0 = k ∧ v = clean_and_deduplicate_text (item_text it0)) ∧
      (∀ it0, it0 ∈ seen ++ [it] → item_key it0 ≠ [] →
         ∃ v, <[key:=clean_text]> seen_points !! item_key it0 = Some v ∧
              length (clean_and_deduplicate_text (item_text it0)) ≤ length v) ∧
      (∀ o, o ∈ out' →
         ∃ it0, it0 ∈ seen ++ [it] ∧ o = kept_form product_name it0
                ∧ item_key it0 ≠ [])).
    { intros out' ->. split; [|split].
      - intros k v Hv. apply lookup_insert_Some in Hv as [[<- <-]|[Hnk Hv]].
        + exists it. split; [apply elem_of_app; right; apply list_elem_of_here|].
          split; [apply elem_of_app; right; apply list_elem_of_here|done].
        + destruct (IH1 k v Hv) as (it0 & Hin & Hk & ?).
          exists it0. split; [apply elem_of_app; by left|].
          split; [apply elem_of_app; by left|done].
      - intros it0 [Hin| ->%list_elem_of_singleton]%elem_of_app Hk0.
        + destruct (IH2 it0 Hin Hk0) as (v & Hv & Hl).
          destruct (decide (item_key it0 = key)) as [Heq|Hnk].
          * exists clean_text. rewrite Heq, lookup_insert_eq. split; [done|].
            unfold longer_or_new in El. rewrite Heq in Hv. rewrite Hv in El.
            apply Nat.ltb_lt in El. lia.
          * exists v. by rewrite lookup_insert_ne.
        + exists clean_text. rewrite Hkey, lookup_insert_eq. done.
      - intros o [Ho| ->%list_elem_of_singleton]%elem_of_app.
        + destruct (IH3 o Ho) as (it0 & Hin & ?).
          exists it0. split; [|done]. apply elem_of_app. by left.
        + exists it. split; [apply elem_of_app; right; apply list_elem_of_here|].
          split; [done|]. by rewrite Hkey. }
    destruct it as [s|d]; cbn [fst snd]; by apply Hst.
Qed.

(** X16. Every item deduplicate_content returns is the kept form of an
    item it was given whose comparison key is not empty (an item without a
    key is dropped); and every item given that has a key is represented in
    the result by an item of the same key whose cleaned text is at least as
    long: nothing is dropped without a longer or equal variant staying. *)
Theorem deduplicate_content_keeps_a_longest_variant content_list product_name :
  let out := deduplicate_content content_list product_name in
  (∀ o, o ∈ out →
     ∃ it, it ∈ content_list ∧ o = kept_form product_name it ∧ item_key it ≠ []) ∧
  (∀ it, it ∈ content_list → item_key it ≠ [] →
     ∃ it', it' ∈ content_list ∧ kept_form product_name it' ∈ out ∧
            item_key it' = item_key it ∧
            length (clean_and_deduplicate_text (item_text it))
            ≤ length (clean_and_deduplicate_text (item_text it'))).
Proof.
  cbv zeta. unfold deduplicate_content.
  destruct (deduplicate_content_invariant product_name content_list)
    as (H1 & H2 & H3). cbv zeta in H1, H2, H3.
  split; [done|].
  intros it Hin Hk. destruct (H2 it Hin Hk) as (v & Hv & Hl).
  destruct (H1 _ _ Hv) as (it' & Hin' & Hout & Hk' & ->).
  by exists it'.
Qed.

End DeduplicateContentFacts.

(** ** Text normaliser: what the cleaned text is like *)

Lemma join_elem sep ws (c : char) :
  c ∈ join sep ws → c ∈ sep ∨ ∃ w, w ∈ ws ∧ c ∈ w.
Proof.
  induction ws as [|w ws IH]; [by intros ?%elem_of_nil|].
  rewrite join_cons. destruct ws as [|w' ws].
  - intros Hc. right. exists w. split; [apply list_elem_of_here|done].
  - intros [Hc|[Hc|Hc]%elem_of_app]%elem_of_app.
    + right. exists w. split; [apply list_elem_of_here|done].
    + by left.
    + destruct (IH Hc) as [?|(w0 & Hw0 & ?)]; [by left|].
      right. exists w0. split; [by apply list_elem_of_further|done].
Qed.

Lemma lstrip_by_elem P s (c : char) : c ∈ lstrip_by P s → c ∈ s.
Proof.
  induction s as [|d s IH]; [done|]. cbn. destruct (P d); [|done].
  intros Hc. by apply list_elem_of_further, IH.
Qed.

Lemma rstrip_by_elem P s (c : char) : c ∈ rstrip_by P s → c ∈ s.
Proof.
  destruct (rstrip_by_split P s) as (u & Hs & _). intros Hc.
  rewrite Hs. apply elem_of_app. by left.
Qed.

Section CleanedText.
Context `{Py : Runtime}.

Lemma split_go_elem s :
  (∀ c, c ∈ (split_go s).1 → c ∈ s) ∧
  (∀ w c, w ∈ (split_go s).2 → c ∈ w → c ∈ s).
Proof.
  induction s as [|d s [IH1 IH2]]; [by split; [intros c|intros w c ?%elem_of_nil]|].
  cbn [split_go]. destruct (isspace d); cbn [fst snd].
  - split; [by intros c ?%elem_of_nil|].
    intros w c Hw Hc. apply list_elem_of_further.
    destruct (split_go s).1 as [|c0 w0] eqn:E; cbn [push] in Hw.
    + by apply (IH2 w).
    + apply elem_of_cons in Hw as [->|Hw]; [by apply IH1|by apply (IH2 w)].
  - split.
    + intros c [->|Hc]%elem_of_cons; [apply list_elem_of_here|].
      by apply list_elem_of_further, IH1.
    + intros w c Hw Hc. by apply list_elem_of_further, (IH2 w).
Qed.

Lemma split_elem s w c : w ∈ split s → c ∈ w → c ∈ s.
Proof.
  unfold split. destruct (split_go_elem s) as [H1 H2].
  destruct (split_go s).1 as [|c0 w0] eqn:E; cbn [push].
  - apply H2.
  - intros [->|Hw]%elem_of_cons; [apply H1|by apply H2].
Qed.

Lemma remove_glyphs_removes text c :
  c ∈ replace [45%N] [] (replace [MIDDLE_DOT] []
        (replace [42%N] [] (replace [BULLET] [] text))) →
  c ∈ text ∧ is_bullet_glyph c = false.
Proof.
  rewrite !replace_char, !elem_of_List_filter.
  intros ((((Hc & H1) & H2) & H3) & H4). split; [done|].
  unfold is_bullet_glyph, inb. cbn [existsb].
  apply negb_true_iff in H1, H2, H3, H4.
  by rewrite H1, H2, H3, H4.
Qed.

Lemma remove_glyphs_length text :
  length (replace [45%N] [] (replace [MIDDLE_DOT] []
            (replace [42%N] [] (replace [BULLET] [] text))))
  ≤ length text.
Proof.
  rewrite !replace_char.
  repeat (etrans; [apply List.filter_length_le|]). done.
Qed.

(** X17. The cleaned text has no bullet, asterisk, middle dot or hyphen
    left in it, wherever they stood in the text (a hyphenated word loses
    its hyphen); it has no white space at its ends; it is no longer than
    the text; and it has the comparison key of the text, so that cleaning
    a text before taking its key changes nothing. *)
Theorem cleaned_text_has_no_glyphs text :
  let clean_text := clean_and_deduplicate_text text in
  (∀ c, c ∈ clean_text → is_bullet_glyph c = false) ∧
  strip clean_text = clean_text ∧
  length clean_text ≤ length text ∧
  get_comparison_key clean_text = get_comparison_key text.
Proof.
  cbv zeta. split; [|split; [|split]].
  - unfold clean_and_deduplicate_text.
    destruct (truthy text); cbn [negb]; [|by intros c ?%elem_of_nil].
    cbv zeta. intros c Hc.
    unfold strip, rstrip_chars in Hc.
    apply rstrip_by_elem, lstrip_by_elem, rstrip_by_elem in Hc.
    apply join_elem in Hc as [Hc|(w & Hw & Hc)].
    + by apply list_elem_of_singleton in Hc as ->.
    + by apply (remove_glyphs_removes text), (split_elem _ w).
  - unfold clean_and_deduplicate_text.
    destruct (truthy text); cbn [negb]; [|done]. apply strip_idemp.
  - unfold clean_and_deduplicate_text.
    destruct (truthy text); cbn [negb]; [|cbn; lia]. cbv zeta.
    etrans; [apply strip_length|].
    etrans; [apply rstrip_by_length|].
    etrans; [apply join_split_length|]. apply remove_glyphs_length.
  - apply dedup_key_comparison_key.
Qed.

End CleanedText.

(** ** Problem slide *)

Lemma startswith_app s t p :
  startswith s p = true → startswith (s ++ t) p = true.
Proof.
  revert s. induction p as [|d p IH]; intros s; [intros _; apply startswith_nil|].
  destruct s as [|c s]; [done|]. cbn.
  intros [-> Hs]%andb_prop. cbn. by apply IH.
Qed.

Lemma contains_nil s : contains s [] = true.
Proof. by destruct s. Qed.

Lemma contains_app_r a b p : contains b p = true → contains (a ++ b) p = true.
Proof.
  intros Hb. induction a as [|c a IH]; [done|].
  cbn [app contains]. rewrite IH. apply orb_true_r.
Qed.

Lemma contains_app_l a b p : contains a p = true → contains (a ++ b) p = true.
Proof.
  induction a as [|c a IH].
  - cbn. destruct p; [|done]. intros _. apply contains_nil.
  - cbn [app contains]. intros [Hs|Hc]%orb_prop.
    + change (c :: a ++ b) with ((c :: a) ++ b).
      by rewrite (startswith_app (c :: a) b p Hs).
    + rewrite (IH Hc). apply orb_true_r.
Qed.

Lemma contains_join sep bullets bullet p :
  bullet ∈ bullets → contains bullet p = true →
  contains (join sep bullets) p = true.
Proof.
  intros Hin Hp. induction bullets as [|b bs IH]; [by apply elem_of_nil in Hin|].
  destruct bs as [|b' bs'].
  - apply list_elem_of_singleton in Hin as ->. done.
  - change (join sep (b :: b' :: bs')) with (b ++ sep ++ join sep (b' :: bs')).
    apply elem_of_cons in Hin as [->|Hin].
    + by apply contains_app_l.
    + apply contains_app_r, contains_app_r. by apply IH.
Qed.

Section ProblemSlideFacts.
Context `{Py : Runtime}.

Lemma str_lower_app s t : str_lower (s ++ t) = str_lower s ++ str_lower t.
Proof. unfold str_lower. apply List.flat_map_app. Qed.

Lemma str_lower_join bullets :
  str_lower (join (lit " ") bullets) = join (lit " ") (str_lower <$> bullets).
Proof.
  induction bullets as [|b bs IH]; [done|].
  destruct bs as [|b' bs']; [done|].
  change (join (lit " ") (b :: b' :: bs'))
    with (b ++ lit " " ++ join (lit " ") (b' :: bs')).
  rewrite !str_lower_app, IH.
  assert (Hsp : str_lower (lit " ") = lit " ").
  { unfold str_lower. cbn. rewrite lower_space; [done|]. apply isspace_space. }
  by rewrite Hsp.
Qed.

Lemma any_in_intro combined_text words word :
  word ∈ words → contains combined_text (lit word) = true →
  any_in combined_text words = true.
Proof.
  intros Hin Hc. unfold any_in. apply existsb_exists.
  exists word. split; [by apply list_elem_of_In|done].
Qed.

(** X18. The content type is decided by the first group of words that has
    a member anywhere in the bullets, without regard to letter case, and
    the market group is asked first: when one bullet has "market",
    "growth", "opportunity" or "size" in it, as a word or inside one, the
    type is "market" whatever else the bullets say. *)
Theorem market_words_decide_the_content_type bullets bullet word :
  bullet ∈ bullets →
  word ∈ ["market"; "growth"; "opportunity"; "size"]%string →
  contains (str_lower bullet) (lit word) = true →
  determine_content_type bullets = "market"%string.
Proof.
  intros Hb Hw Hc. unfold determine_content_type. cbv zeta.
  rewrite (any_in_intro _ _ word Hw); [done|].
  rewrite str_lower_join. apply (contains_join _ _ (str_lower bullet)); [|done].
  apply list_elem_of_fmap. by exists bullet.
Qed.

Lemma determine_content_type_cases bullets :
  determine_content_type bullets
  ∈ ["market"; "solution"; "challenge"; "general"]%string.
Proof.
  unfold determine_content_type. cbv zeta.
  repeat match goal with |- context [any_in ?t ?w] => destruct (any_in t w) end;
    rewrite !elem_of_cons; auto.
Qed.

End ProblemSlideFacts.

Lemma market_words_decide_the_content_type_witness :
  determine_content_type (Py := ascii_table)
    [lit "Slow releases"; lit "Teams cannot Emphasize quality"]
  = "market"%string.
Proof.
  apply (market_words_decide_the_content_type (Py := ascii_table) _
           (lit "Teams cannot Emphasize quality") "size").
  - apply list_elem_of_further, list_elem_of_here.
  - do 3 apply list_elem_of_further. apply list_elem_of_here.
  - reflexivity.
Defined.

(** *** The loop that fills the list up to four bullets *)

Lemma ascii_lower_is_ascii s :
  is_ascii s = true → is_ascii (str_lower (Py := ascii_table) s) = true.
Proof.
  unfold str_lower, is_ascii. induction s as [|c s IH]; [done|].
  cbn [forallb flat_map]. intros [Hc Hs]%andb_prop.
  rewrite forallb_app, (IH Hs), andb_true_r.
  change (lower (Runtime := ascii_table) c) with [ascii_lower c].
  cbn [forallb]. rewrite andb_true_r. apply N.ltb_lt in Hc. apply N.ltb_lt.
  unfold ascii_lower. destruct ((65 <=? c)%N && (c <=? 90)%N) eqn:E; [|done].
  apply andb_prop in E as [_ E]. apply N.leb_le in E. lia.
Qed.

Lemma is_ascii_filter (f : char → bool) s :
  is_ascii s = true → is_ascii (List.filter f s) = true.
Proof.
  unfold is_ascii. induction s as [|c s IH]; [done|].
  cbn [forallb List.filter]. intros [Hc Hs]%andb_prop.
  destruct (f c); cbn [forallb]; rewrite ?Hc; by apply IH.
Qed.

Section FillFacts.
Context `{Py : Runtime}.

Lemma key_filter_ascii s :
  is_ascii s = true →
  List.filter (λ c, isalnum c || isspace c) s
  = List.filter (λ c, isalnum (Runtime := ascii_table) c
                      || isspace (Runtime := ascii_table) c) s.
Proof.
  unfold is_ascii. induction s as [|c s IH]; [done|].
  cbn [forallb List.filter]. intros [Hc Hs]%andb_prop.
  apply N.ltb_lt in Hc.
  rewrite (isalnum_ascii c Hc), (isspace_ascii c Hc).
  rewrite (isalnum_ascii (Runtime := ascii_table) c Hc).
  rewrite (isspace_ascii (Runtime := ascii_table) c Hc).
  by rewrite (IH Hs).
Qed.

(* on ASCII text the comparison key is the one of the ASCII table *)
Lemma get_comparison_key_ascii s :
  is_ascii s = true →
  get_comparison_key s = get_comparison_key (Py := ascii_table) s.
Proof.
  intros Hs. unfold get_comparison_key.
  destruct (negb (truthy s)); [done|]. cbv zeta.
  rewrite (key_filter_ascii s Hs).
  set (f := List.filter _ s).
  assert (Hf : is_ascii f = true) by (by apply is_ascii_filter).
  pose proof (str_lower_ascii f Hf) as Hl.
  pose proof (split_ascii _ (ascii_lower_is_ascii f Hf)) as Hsp.
  unfold str_lower in Hl, Hsp. by rewrite Hl, Hsp.
Qed.

End FillFacts.

(* the four stock bullets of each content type are ASCII and have four
   different comparison keys *)
Lemma stock_bullets_checked :
  forallb (λ content_type,
             (length (stock_bullets content_type) =? 4)
             && forallb is_ascii (stock_bullets content_type)
             && bool_decide (NoDup (get_comparison_key (Py := ascii_table)
                                      <$> stock_bullets content_type)))
          ["market"; "solution"; "challenge"; "general"]%string = true.
Proof. vm_compute. reflexivity. Qed.

(* of more candidates than keys, one is none of the keys *)
Lemma one_candidate_is_new (candidates keys : list str) :
  NoDup candidates → length keys < length candidates →
  ∃ i c, candidates !! i = Some c ∧ c ∉ keys.
Proof.
  intros Hnd Hl.
  destruct (decide (Forall (λ c, c ∈ keys) candidates)) as [Hall|Hex].
  - exfalso. assert (Hsub : candidates ⊆+ keys).
    { apply NoDup_submseteq; [done|]. by apply Forall_forall. }
    apply submseteq_length in Hsub. lia.
  - apply not_Forall_Exists in Hex; [|apply _].
    apply Exists_exists in Hex as (c & Hc & Hn).
    apply list_elem_of_lookup in Hc as [i Hi]. by exists i, c.
Qed.

Section FillLoop.
Context `{Py : Runtime}.

Lemma stock_bullets_of_type bullets :
  let stock := stock_bullets (determine_content_type bullets) in
  length stock = 4 ∧
  NoDup (get_comparison_key <$> stock).
Proof.
  cbv zeta. pose proof stock_bullets_checked as Hc.
  rewrite forallb_forall in Hc.
  specialize (Hc (determine_content_type bullets)
                 (proj1 (list_elem_of_In _ _) (determine_content_type_cases bullets))).
  apply andb_prop in Hc as [[Hlen Hascii]%andb_prop Hnd].
  apply Nat.eqb_eq in Hlen. apply bool_decide_eq_true in Hnd.
  split; [done|].
  assert (Heq : get_comparison_key <$> stock_bullets (determine_content_type bullets)
                = get_comparison_key (Py := ascii_table)
                    <$> stock_bullets (determine_content_type bullets)).
  { apply list_fmap_ext. intros i s Hs. apply get_comparison_key_ascii.
    rewrite forallb_forall in Hascii. apply Hascii, list_elem_of_In.
    by eapply list_elem_of_lookup_2. }
  by rewrite Heq.
Qed.

(* while the list is short of four bullets some draw adds one *)
Lemma fill_bullets_progress bullets :
  length bullets < 4 →
  ∃ pick,
    get_comparison_key
      (generate_additional_bullet pick (determine_content_type bullets))
    ∉ get_comparison_key <$> bullets.
Proof.
  intros Hl. destruct (stock_bullets_of_type bullets) as [Hlen Hnd].
  cbv zeta in Hlen, Hnd.
  destruct (one_candidate_is_new
              (get_comparison_key <$> stock_bullets (determine_content_type bullets))
              (get_comparison_key <$> bullets) Hnd) as (i & k & Hi & Hk).
  { rewrite !length_fmap. lia. }
  apply list_lookup_fmap_Some in Hi as (c & -> & Hc).
  exists i. unfold generate_additional_bullet, random_choice.
  rewrite Hlen. apply lookup_lt_Some in Hc as Hlt. rewrite Hlen in Hlt.
  rewrite Nat.mod_small by done. by rewrite Hc.
Qed.

Lemma fill_bullets_full picks bullets :
  4 ≤ length bullets → fill_bullets picks bullets = Some bullets.
Proof.
  intros Hl. destruct picks; cbn [fill_bullets];
    by rewrite (proj2 (Nat.leb_le _ _) Hl).
Qed.

Lemma fill_bullets_step pick picks bullets :
  length bullets < 4 →
  fill_bullets (pick :: picks) bullets =
  let new_bullet :=
    generate_additional_bullet pick (determine_content_type bullets) in
  if bool_decide (get_comparison_key new_bullet ∈ get_comparison_key <$> bullets)
  then fill_bullets picks bullets
  else fill_bullets picks (bullets ++ [new_bullet]).
Proof. intros Hl. cbn [fill_bullets]. by rewrite (proj2 (Nat.leb_gt _ _) Hl). Qed.

Lemma fill_bullets_finishes n bullets :
  4 - length bullets ≤ n →
  ∃ picks out, length picks ≤ 4 - length bullets ∧
               fill_bullets picks bullets = Some out.
Proof.
  revert bullets. induction n as [|n IH]; intros bullets Hn.
  - exists [], bullets. split; [cbn; lia|]. apply fill_bullets_full. lia.
  - destruct (decide (4 ≤ length bullets)) as [Hfull|Hshort].
    { exists [], bullets. split; [cbn; lia|]. by apply fill_bullets_full. }
    destruct (fill_bullets_progress bullets) as [pick Hpick]; [lia|].
    set (new_bullet := generate_additional_bullet pick
                         (determine_content_type bullets)) in *.
    destruct (IH (bullets ++ [new_bullet])) as (picks & out & Hl & Hout).
    { rewrite length_app. cbn. lia. }
    exists (pick :: picks), out. split.
    + rewrite length_app in Hl. cbn in *. lia.
    + rewrite fill_bullets_step by lia. cbv zeta. fold new_bullet.
      by rewrite bool_decide_eq_false_2.
Qed.

(** X19. The loop of create_problem_slide that fills the list up to four
    bullets can always finish: whatever the bullets it starts from, there
    are draws of the random generator, no more than the number of bullets
    missing, on which every round adds a bullet and the loop ends. (The
    loop has no bound of its own: a draw whose bullet has a comparison key
    that is already there is a round without effect.) *)
Theorem fill_bullets_can_finish bullets :
  ∃ picks out, length picks ≤ 4 - length bullets ∧
               fill_bullets picks bullets = Some out.
Proof. by apply (fill_bullets_finishes (4 - length bullets)). Qed.

Lemma generate_additional_bullet_stock pick bullets :
  generate_additional_bullet pick (determine_content_type bullets)
  ∈ stock_bullets (determine_content_type bullets).
Proof.
  unfold generate_additional_bullet, random_choice.
  destruct (stock_bullets_of_type bullets) as [Hlen _]. cbv zeta in Hlen.
  destruct (stock_bullets (determine_content_type bullets) !! (pick mod 4))
    as [b|] eqn:E.
  - rewrite Hlen, E. by eapply list_elem_of_lookup_2.
  - apply lookup_ge_None in E. rewrite Hlen in E.
    pose proof (Nat.mod_upper_bound pick 4). lia.
Qed.

Lemma fill_bullets_result picks bullets out :
  fill_bullets picks bullets = Some out →
  bullets `prefix_of` out ∧
  length out = max 4 (length bullets) ∧
  (NoDup (get_comparison_key <$> bullets) → NoDup (get_comparison_key <$> out)) ∧
  (∀ b, b ∈ out → b ∈ bullets ∨ ∃ content_type, b ∈ stock_bullets content_type).
Proof.
  revert bullets. induction picks as [|pick picks IH]; intros bullets.
  - cbn [fill_bullets]. destruct (4 <=? length bullets) eqn:E; [|done].
    intros [= <-]. apply Nat.leb_le in E. repeat split; [done|lia|done|auto].
  - destruct (decide (4 ≤ length bullets)) as [Hfull|Hshort].
    { rewrite fill_bullets_full by done. intros [= <-].
      repeat split; [done|lia|done|auto]. }
    rewrite fill_bullets_step by lia. cbv zeta.
    set (new_bullet := generate_additional_bullet pick
                         (determine_content_type bullets)).
    case_bool_decide as Hkey; [apply IH|].
    intros Hout. destruct (IH _ Hout) as (Hp & Hl & Hnd & Hst).
    split; [|split; [|split]].
    + etrans; [|done]. by apply prefix_app_r.
    + rewrite Hl, length_app. cbn. lia.
    + intros Hb. apply Hnd. rewrite fmap_app. apply NoDup_app.
      split; [done|]. split; [|apply NoDup_singleton].
      intros k Hk ->%list_elem_of_singleton. done.
    + intros b Hb. destruct (Hst b Hb) as [[Hin| ->%list_elem_of_singleton]%elem_of_app|?];
        [by left| |by right].
      right. eexists. apply generate_additional_bullet_stock.
Qed.

(** X20. When the filling loop ends, the list it leaves begins with the
    bullets it started from, in their order; it has four bullets, or as
    many as it started from when those were four already; every bullet it
    added is one of the stock bullets of generate_additional_bullet; and
    if the comparison keys of the bullets were all different before, they
    are all different after: no stock bullet repeats a bullet of the
    list. *)
Theorem fill_bullets_adds_only_new_stock_bullets picks bullets out :
  fill_bullets picks bullets = Some out →
  bullets `prefix_of` out ∧
  length out = max 4 (length bullets) ∧
  (NoDup (get_comparison_key <$> bullets) → NoDup (get_comparison_key <$> out)) ∧
  (∀ b, b ∈ out → b ∈ bullets ∨ ∃ content_type, b ∈ stock_bullets content_type).
Proof. apply fill_bullets_result. Qed.

Lemma truncate_each_length max_chars max_words bullets out :
  truncate_each max_chars max_words bullets = Ok out →
  length out = length bullets.
Proof.
  revert out. induction bullets as [|b bs IH]; intros out; cbn.
  - by intros [= <-].
  - destruct (truncate_text_for_slide b _ _); [|done].
    destruct (truncate_each max_chars max_words bs); [|done].
    intros [= <-]. cbn. by rewrite (IH _ eq_refl).
Qed.

(** X21. The problem slide never has fewer than four bullets or more than
    five. For every record, style and product name there are draws of the
    random generator, four at most, on which the filling loop ends; and
    whenever the bullets are written, there are four of them for the
    executive style and four or five for the others. *)
Theorem problem_slide_has_four_or_five_bullets title pain_points bullets
    differentiators style product_name :
  (∃ picks, length picks ≤ 4 ∧
            is_Some (problem_slide_bullets title pain_points bullets
                       differentiators style product_name picks)) ∧
  (∀ picks out,
     problem_slide_bullets title pain_points bullets differentiators style
       product_name picks = Some (Ok out) →
     4 ≤ length out ≤ 5 ∧ (style = lit "executive" → length out = 4)).
Proof.
  unfold problem_slide_bullets.
  destruct title as [title|]; [|split; [exists []; by split; [cbn; lia|]|done]].
  cbv zeta.
  set (clean_bullets :=
         if truthy product_name
         then replace PRODUCT_NAME product_name
                <$> deduplicate_bullets
                      (IStr <$> all_points pain_points bullets differentiators)
         else deduplicate_bullets
                (IStr <$> all_points pain_points bullets differentiators)).
  split.
  - destruct (fill_bullets_finishes (4 - length clean_bullets) clean_bullets)
      as (picks & out & Hl & Hout); [done|].
    exists picks. split; [lia|]. by rewrite Hout.
  - intros picks out.
    destruct (fill_bullets picks clean_bullets) as [filled|] eqn:Hf; [|done].
    destruct (fill_bullets_result _ _ _ Hf) as (_ & Hl & _).
    intros [= Ht]. apply truncate_each_length in Ht. rewrite Ht, length_take.
    unfold str_eqb. case_bool_decide as Hs.
    + split; [lia|]. intros _. lia.
    + split; [lia|]. intros ?. done.
Qed.

End FillLoop.

Lemma fill_bullets_adds_only_new_stock_bullets_witness :
  let bullets := [lit "Slow releases"; lit "Manual testing"; lit "No audit trail"] in
  let out := bullets ++ [lit "Enhanced operational efficiency and productivity"] in
  bullets `prefix_of` out ∧
  length out = max 4 (length bullets) ∧
  (NoDup (get_comparison_key (Py := ascii_table) <$> bullets) →
   NoDup (get_comparison_key (Py := ascii_table) <$> out)) ∧
  (∀ b, b ∈ out → b ∈ bullets ∨ ∃ content_type, b ∈ stock_bullets content_type).
Proof.
  apply (fill_bullets_adds_only_new_stock_bullets (Py := ascii_table) [0]).
  vm_compute. reflexivity.
Defined.

(** ** Sentence completion: when it returns *)

Lemma forallb_false_elem {A} (f : A → bool) l :
  forallb f l = false → ∃ x, x ∈ l ∧ f x = false.
Proof.
  induction l as [|x l IH]; [done|]. cbn. destruct (f x) eqn:E; cbn.
  - intros (y & Hy & Hf)%IH. exists y. split; [by apply list_elem_of_further|done].
  - intros _. exists x. split; [apply list_elem_of_here|done].
Qed.

Section CompletionDomain.
Context `{Py : Runtime}.

(** X22. The sentence-completion repair returns on the empty text and on
    every text that has, once its trailing periods and spaces are
    stripped, a character that is not white space; on every other text it
    raises, and IndexError is the only exception it raises. *)
Theorem ensure_complete_sentences_returns_iff text :
  ((∃ out, ensure_complete_sentences text = Ok out) ↔
   text = [] ∨ ∃ c, c ∈ rstrip_chars (lit ". ") text ∧ isspace c = false) ∧
  (∀ e, ensure_complete_sentences text = Raise e → e = IndexError).
Proof.
  split.
  - split.
    + intros [out Hout].
      destruct text as [|c0 text0]; [by left|]. right.
      destruct (forallb isspace (rstrip_chars (lit ". ") (c0 :: text0))) eqn:E.
      * assert (Hr : ensure_complete_sentences (c0 :: text0) = Raise IndexError).
        { by apply ensure_complete_sentences_raises_iff. }
        congruence.
      * apply forallb_false_elem in E as (c & Hc & Hs). by exists c.
    + intros [->|(c & Hc & Hs)]; [by exists []|].
      by apply (ensure_complete_sentences_returns text c).
  - intros e. unfold ensure_complete_sentences.
    destruct (truthy text); cbn [negb]; [|done].
    destruct (last _); [|by intros [= <-]].
    destruct (last (split _)); [done|by intros [= <-]].
Qed.

End CompletionDomain.

(** ** Advantage slide builder: the one list it touches *)

Section AdvantageLists.
Context `{Py : Runtime}.

(** X23. create_advantage_slide changes one list at most: a list object
    that is not as it was before the call is the list the record holds
    under "differentiators", "bullets" or "advantages", and it is the list
    it was with the three stock advantages appended. *)
Theorem create_advantage_slide_changes_one_list content product_name store l :
  is_Some (store !! l) →
  (create_advantage_slide content product_name store).1 !! l ≠ store !! l →
  (∃ k, k ∈ ["differentiators"; "bullets"; "advantages"]%string ∧
        content !! k = Some (FList l)) ∧
  (create_advantage_slide content product_name store).1 !! l
  = Some (list_at store l ++ additional_advantages).
Proof.
  intros Hl. unfold create_advantage_slide.
  destruct (content !! "title"%string) as [[title|?]|]; [|done|done].
  assert (Hcase : ∀ k l0, content !! k = Some (FList l0) →
            k ∈ ["differentiators"; "bullets"; "advantages"]%string →
            (let bullets := default [] (store !! l0) ++ additional_advantages in
             match truncate_all (take 5 (deduplicate_bullets bullets)) with
             | Ok ps => (<[l0:=bullets]> store,
                         Ok {| slide_title :=
                                 join (lit " ")
                                   (split (replace PRODUCT_NAME product_name title));
                               slide_bullets := ps |})
             | Raise e => (<[l0:=bullets]> store, Raise e)
             end).1 !! l ≠ store !! l →
            (∃ k, k ∈ ["differentiators"; "bullets"; "advantages"]%string ∧
                  content !! k = Some (FList l)) ∧
            (let bullets := default [] (store !! l0) ++ additional_advantages in
             match truncate_all (take 5 (deduplicate_bullets bullets)) with
             | Ok ps => (<[l0:=bullets]> store,
                         Ok {| slide_title :=
                                 join (lit " ")
                                   (split (replace PRODUCT_NAME product_name title));
                               slide_bullets := ps |})
             | Raise e => (<[l0:=bullets]> store, Raise e)
             end).1 !! l = Some (list_at store l ++ additional_advantages)).
  { intros k l0 Hk Hin. cbv zeta.
    destruct (decide (l0 = l)) as [->|Hne].
    - intros _. split; [by exists k|].
      destruct (truncate_all _); cbn [fst]; by rewrite lookup_insert_eq.
    - intros Hch. exfalso. apply Hch.
      destruct (truncate_all _); cbn [fst]; by rewrite lookup_insert_ne. }
  unfold bullets_of.
  destruct (content !! "differentiators"%string) as [[s|l0]|] eqn:E1; [done| |].
  { apply (Hcase "differentiators"%string l0 E1). rewrite !elem_of_cons. auto. }
  destruct (content !! "bullets"%string) as [[s|l0]|] eqn:E2; [done| |].
  { apply (Hcase "bullets"%string l0 E2). rewrite !elem_of_cons. auto. }
  destruct (content !! "advantages"%string) as [[s|l0]|] eqn:E3; [done| |].
  { apply (Hcase "advantages"%string l0 E3). rewrite !elem_of_cons. auto. }
  intros Hch. exfalso. apply Hch.
  assert (Hf : fresh (dom store) ≠ l).
  { intros Hf. apply (is_fresh (dom store)). rewrite Hf. by apply elem_of_dom. }
  destruct (truncate_all _); cbn [fst]; by rewrite !lookup_insert_ne.
Qed.

End AdvantageLists.

Lemma create_advantage_slide_changes_one_list_witness :
  (∃ k, k ∈ ["differentiators"; "bullets"; "advantages"]%string ∧
        adv_content !! k = Some (FList 0)) ∧
  (create_advantage_slide (Py := ascii_table) adv_content [] adv_store).1 !! 0
  = Some (list_at adv_store 0 ++ additional_advantages).
Proof.
  apply (create_advantage_slide_changes_one_list (Py := ascii_table)).
  - by eexists.
  - vm_compute. discriminate.
Defined.

(** ** Title slide builder *)

(** X24. A title slide needs a subtitle: create_title_slide reads
    subtitle_top, which it has assigned only when the record has a
    "subtitle", so that on a record without one it raises
    UnboundLocalError; and in the default order that call is the first
    the build loop makes, before any slide is made. *)
Theorem title_slide_without_subtitle_raises
    (content : gmap string (gmap string field)) persona tc record :
  content !! "title_slide"%string = Some record →
  record !! "subtitle"%string = None →
  head (build_calls content persona tc None) = Some (BTitle, record) ∧
  create_title_slide record = inl (UnboundLocalError "subtitle_top").
Proof.
  intros Hc Hs. split; [by apply build_calls_head_title|].
  unfold create_title_slide. by rewrite Hs.
Qed.

Lemma title_slide_without_subtitle_raises_witness :
  head (build_calls bundle_with_bare_title (lit "business")
          {| include_team_slide := false; team_members := [] |} None)
  = Some (BTitle, {[ "title"%string := FStr (lit "Acme") ]}) ∧
  create_title_slide {[ "title"%string := FStr (lit "Acme") ]}
  = inl (UnboundLocalError "subtitle_top").
Proof.
  apply (title_slide_without_subtitle_raises bundle_with_bare_title).
  - reflexivity.
  - reflexivity.
Defined.

(** ** Image cache layer: calls of the fetcher and what the cache holds *)

Section ImageCacheBudget.
Context {bytes hash : Type} `{Countable hash}.
Context (md5 : bytes → hash).
Context (fetch_image_for_slide : nat → string → bool → option bytes).

Local Abbreviation sess := (@session bytes hash _ _).
Local Abbreviation fetch_attempts := (fetch_attempts md5 fetch_image_for_slide).
Local Abbreviation fetch_unique_image := (fetch_unique_image md5 fetch_image_for_slide).
Local Abbreviation fetch_image_with_cache :=
  (fetch_image_with_cache md5 fetch_image_for_slide).

Ltac run_layer := unfold mbind, M_bind, mret, M_ret, is_used, mark_used,
  cache_store, cache_lookup, fetch; simpl.

Lemma fetch_attempts_requests n slide_type up (s : sess) :
  fetches s ≤ fetches (fetch_attempts n slide_type up s).2 ≤ fetches s + n.
Proof.
  revert s. induction n as [|n IH]; intros s; simpl; [lia|].
  run_layer.
  destruct (fetch_image_for_slide (fetches s) slide_type up) as [img|]; simpl;
    [|lia].
  case_bool_decide as Hused; simpl; [|lia].
  specialize (IH {| used_images := used_images s;
                    original_images_cache := original_images_cache s;
                    fetches := S (fetches s) |}).
  simpl in IH. lia.
Qed.

Lemma fetch_attempts_cached n slide_type up (s : sess) img :
  is_Some (original_images_cache s) →
  (fetch_attempts n slide_type up s).1 = Some img →
  cached_image slide_type (fetch_attempts n slide_type up s).2 = Some img.
Proof.
  revert s. induction n as [|n IH]; intros s Hc; simpl; [done|].
  run_layer.
  destruct (fetch_image_for_slide (fetches s) slide_type up) as [img'|]; simpl;
    [|done].
  case_bool_decide as Hused; simpl.
  - apply (IH {| used_images := used_images s;
                 original_images_cache := original_images_cache s;
                 fetches := S (fetches s) |}). done.
  - intros [= ->]. unfold cached_image. simpl.
    destruct Hc as [cache ->]. simpl. apply lookup_insert_eq.
Qed.

(** X25. One call of fetch_image_with_cache calls fetch_image_for_slide
    three times at most, and not at all when the session's cache has an
    image for the slide that the deck has not used yet or when the build is
    not of a new presentation. What one call of fetch_image_for_slide asks
    of the image service is its own matter (it has a retry loop of its own)
    and is not counted here. *)
Theorem image_layer_fetch_budget slide_type is_new_presentation up (s : sess) :
  let r := fetch_image_with_cache slide_type is_new_presentation up s in
  fetches s ≤ fetches r.2 ≤ fetches s + 3 ∧
  (is_new_presentation = false → fetches r.2 = fetches s) ∧
  (∀ img, cached_image slide_type s = Some img → md5 img ∉ used_images s →
          r.1 = Some img ∧ fetches r.2 = fetches s).
Proof.
  cbv zeta. unfold fetch_image_with_cache, fetch_unique_image, cached_image.
  run_layer.
  pose proof (fetch_attempts_requests 3 slide_type up s) as Hreq.
  destruct (match original_images_cache s with
            | Some cache => cache !! cache_key slide_type
            | None => None
            end) as [cached|]; simpl.
  - case_bool_decide as Hused; simpl.
    + destruct is_new_presentation; simpl.
      * split; [done|]. split; [done|]. by intros img [= <-] Hn.
      * split; [lia|]. split; [done|]. by intros img [= <-] Hn.
    + split; [lia|]. split; [done|]. by intros img [= <-] _.
  - destruct is_new_presentation; simpl.
    + split; [done|]. split; done.
    + split; [lia|]. split; done.
Qed.

(** X26. In a session that has an image cache, the image a call of
    fetch_image_with_cache returns is the image the cache holds for the
    slide when the call is over, whether it came from the cache or from
    the image service: lookup after store gives the stored image. *)
Theorem returned_image_is_cached slide_type is_new_presentation up (s : sess) img :
  is_Some (original_images_cache s) →
  (fetch_image_with_cache slide_type is_new_presentation up s).1 = Some img →
  cached_image slide_type
    (fetch_image_with_cache slide_type is_new_presentation up s).2 = Some img.
Proof.
  intros Hc. unfold fetch_image_with_cache, fetch_unique_image.
  run_layer.
  pose proof (fetch_attempts_cached 3 slide_type up s img Hc) as Hatt.
  destruct (match original_images_cache s with
            | Some cache => cache !! cache_key slide_type
            | None => None
            end) as [cached|] eqn:E; simpl.
  - case_bool_decide as Hused; simpl.
    + destruct is_new_presentation; simpl; [done|].
      intros [= <-]. by unfold cached_image.
    + intros [= <-]. unfold cached_image. by simpl.
  - destruct is_new_presentation; simpl; [done|done].
Qed.

(** X27. When the build is not of a new presentation, the call returns
    what the cache holds for the slide, or nothing, makes no request and
    leaves the cache as it was; it returns the cached image also when the
    deck has used that image already, so that in such a build two slides
    can show one image. *)
Theorem rebuild_uses_the_cache_only slide_type up (s : sess) :
  let r := fetch_image_with_cache slide_type false up s in
  r.1 = cached_image slide_type s ∧
  fetches r.2 = fetches s ∧
  original_images_cache r.2 = original_images_cache s.
Proof.
  cbv zeta. unfold fetch_image_with_cache, fetch_unique_image, cached_image.
  run_layer.
  destruct (match original_images_cache s with
            | Some cache => cache !! cache_key slide_type
            | None => None
            end) as [cached|]; simpl; [|done].
  by case_bool_decide.
Qed.

End ImageCacheBudget.

Lemma returned_image_is_cached_witness :
  cached_image "problem"
    (fetch_image_with_cache id same_image_four_times "problem" true false
       fresh_session).2
  = Some 7.
Proof.
  apply (returned_image_is_cached id same_image_four_times).
  - by eexists.
  - reflexivity.
Defined.
